(** * The [say] command of common-pepper: recurring-task definitions

    A shallow embedding of [src/commands/main/say/index.js]: the interval
    parser [parseSeconds], the field validator [checkRegexNotMatch], the
    store validator [validateJSON], the task store [updateTaskList] and the
    command parser [exec] / [modifyTask].

    Conventions of the embedding.
    - A JavaScript string is a [string]; a character is a code unit below
      256 (ASCII and Latin-1).
    - A JavaScript number is an integer in [Z]: every number the program
      computes is an integer.  The model agrees with IEEE doubles as long
      as all intermediate magnitudes stay below 2^53.  For the components
      that the field validator lets through, which are not negative, a
      component or a sum beyond that bound is outside the range of [Date],
      and program and model both answer 0 (for a clock after 1970).
    - An object is the list of its own properties in property order; a
      read that finds no own property falls back on [Object.prototype].
    - The store file is what [fs.readFileSync] followed by [JSON.parse]
      makes of it: missing, not parseable, or a JSON document.  Writing is
      assumed to succeed.
    - The world carries a trace of the calls of [parseSeconds] and of the
      writes of the store file.
    - Console and logger output is not part of the model; the exceptions
      that the diagnostic code can raise are. *)

From Stdlib Require Import ZArith NArith List String Ascii Bool Lia.
From Stdlib Require Import DecimalString DecimalPos.
Import ListNotations.
Set Warnings "-register-all".
Local Open Scope string_scope.
Local Open Scope Z_scope.

(** ** Strings *)

Module Str.

Definition code (c : ascii) : nat := nat_of_ascii c.

(** The double quote and the backslash. *)
Definition dquote : ascii := "034"%char.
Definition backslash : ascii := "092"%char.

Definition in_range (lo hi c : ascii) : bool :=
  (Nat.leb (code lo) (code c) && Nat.leb (code c) (code hi))%bool.

Definition is_digit (c : ascii) : bool := in_range "0" "9" c.

(** [Array.prototype.join]. *)
Fixpoint join (sep : string) (l : list string) : string :=
  match l with
  | [] => ""
  | [x] => x
  | x :: rest => x ++ sep ++ join sep rest
  end.

(** [String.prototype.split] with a one-character separator: the pieces
    between the separators, empty pieces included. *)
Fixpoint split_acc (sep : ascii) (acc : string) (s : string) : list string :=
  match s with
  | EmptyString => [acc]
  | String c rest =>
      if Ascii.eqb c sep then acc :: split_acc sep "" rest
      else split_acc sep (acc ++ String c "") rest
  end.

Definition split (sep : ascii) (s : string) : list string := split_acc sep "" s.

(** [String.prototype.toLowerCase] on code units below 256: A-Z, and the
    Latin-1 capitals 192..222 except the multiplication sign 215. *)
Definition lower_char (c : ascii) : ascii :=
  let n := code c in
  if (Nat.leb 65 n && Nat.leb n 90)%bool then ascii_of_nat (n + 32)
  else if (Nat.leb 192 n && Nat.leb n 222 && negb (Nat.eqb n 215))%bool
       then ascii_of_nat (n + 32)
  else c.

Fixpoint toLowerCase (s : string) : string :=
  match s with
  | EmptyString => EmptyString
  | String c rest => String (lower_char c) (toLowerCase rest)
  end.

(** Value of a string of decimal digits, most significant first. *)
Fixpoint digits_value_acc (acc : Z) (s : string) : Z :=
  match s with
  | EmptyString => acc
  | String c rest => digits_value_acc (10 * acc + Z.of_nat (code c - 48)) rest
  end.

Definition digits_value (s : string) : Z := digits_value_acc 0 s.

Fixpoint all_chars (p : ascii -> bool) (s : string) : bool :=
  match s with
  | EmptyString => true
  | String c rest => (p c && all_chars p rest)%bool
  end.


(** A non-empty string of decimal digits. *)
Definition is_digits (s : string) : bool :=
  (negb (String.eqb s "") && all_chars is_digit s)%bool.

End Str.

(** ** Regular expressions

    The program's patterns are all anchored ([^...$]) and use only literals,
    character classes, grouping, alternation and counted or starred
    repetition, so [String.prototype.match] succeeds exactly when the whole
    string is in the pattern's language.  Membership is decided with
    derivatives. *)

Module Regex.

Inductive regex : Type :=
| Empty                                   (* matches nothing *)
| Eps                                     (* the empty string *)
| Chr (c : ascii)                         (* a literal character *)
| Class (negated : bool) (ranges : list (ascii * ascii))   (* a bracket class, possibly negated *)
| Seq (r1 r2 : regex)
| Alt (r1 r2 : regex)                     (* r1|r2 *)
| Star (r : regex)                        (* r* and r{0,} *)
| Rep (lo hi : nat) (r : regex).          (* r{lo,hi} *)

(** A literal word. *)
Fixpoint Lit (s : string) : regex :=
  match s with
  | EmptyString => Eps
  | String c EmptyString => Chr c
  | String c rest => Seq (Chr c) (Lit rest)
  end.

(** r+ *)
Definition Plus (r : regex) : regex := Seq r (Star r).

Fixpoint seqs (l : list regex) : regex :=
  match l with
  | [] => Eps
  | [r] => r
  | r :: rest => Seq r (seqs rest)
  end.

Definition class_mem (negated : bool) (ranges : list (ascii * ascii)) (c : ascii) : bool :=
  xorb negated (existsb (fun '(lo, hi) => Str.in_range lo hi c) ranges).

Fixpoint nullable (r : regex) : bool :=
  match r with
  | Empty => false
  | Eps => true
  | Chr _ => false
  | Class _ _ => false
  | Seq r1 r2 => nullable r1 && nullable r2
  | Alt r1 r2 => nullable r1 || nullable r2
  | Star _ => true
  | Rep lo _ r => Nat.eqb lo 0 || nullable r
  end.

(** Constructors that absorb [Empty] and [Eps], to keep derivatives small. *)
Definition mkSeq (r1 r2 : regex) : regex :=
  match r1, r2 with
  | Empty, _ => Empty
  | _, Empty => Empty
  | Eps, _ => r2
  | _, Eps => r1
  | _, _ => Seq r1 r2
  end.

Definition mkAlt (r1 r2 : regex) : regex :=
  match r1, r2 with
  | Empty, _ => r2
  | _, Empty => r1
  | _, _ => Alt r1 r2
  end.

Fixpoint deriv (c : ascii) (r : regex) : regex :=
  match r with
  | Empty => Empty
  | Eps => Empty
  | Chr d => if Ascii.eqb c d then Eps else Empty
  | Class neg ranges => if class_mem neg ranges c then Eps else Empty
  | Seq r1 r2 =>
      mkAlt (mkSeq (deriv c r1) r2) (if nullable r1 then deriv c r2 else Empty)
  | Alt r1 r2 => mkAlt (deriv c r1) (deriv c r2)
  | Star r1 => mkSeq (deriv c r1) (Star r1)
  | Rep lo hi r1 =>
      match hi with
      | O => Empty
      | S hi' => mkSeq (deriv c r1) (Rep (Nat.pred lo) hi' r1)
      end
  end.

(** [s.match(/^r$/)] is not [null]. *)
Fixpoint matches (r : regex) (s : string) : bool :=
  match s with
  | EmptyString => nullable r
  | String c rest => matches (deriv c r) rest
  end.

(** Every character the pattern can consume satisfies [P]. *)
Fixpoint accepts_only (P : ascii -> bool) (r : regex) : bool :=
  match r with
  | Empty => true
  | Eps => true
  | Chr c => P c
  | Class neg ranges =>
      forallb (fun n => implb (class_mem neg ranges (ascii_of_nat n)) (P (ascii_of_nat n)))
              (seq 0 256)
  | Seq r1 r2 => accepts_only P r1 && accepts_only P r2
  | Alt r1 r2 => accepts_only P r1 && accepts_only P r2
  | Star r1 => accepts_only P r1
  | Rep _ _ r1 => accepts_only P r1
  end.

(** Character classes of the program's patterns. *)
Definition digit : regex := Class false [("0", "9")]%char.            (* \d *)
Definition word : regex :=                                            (* [a-zA-Z0-9_] *)
  Class false [("a", "z"); ("A", "Z"); ("0", "9"); ("_", "_")]%char.
Definition name_char : regex :=                                       (* [a-zA-Z0-9_-] *)
  Class false [("a", "z"); ("A", "Z"); ("0", "9"); ("_", "_"); ("-", "-")]%char.
Definition not_quote : regex := Class true [(Str.dquote, Str.dquote)]. (* any character but the double quote *)

End Regex.

(** ** JSON documents and their serialization *)

Module JSON.

Inductive json : Type :=
| JNull
| JBool (b : bool)
| JNum (z : Z)
| JStr (s : string)
| JArr (items : list json)
| JObj (props : list (string * json)).   (* own properties, in property order *)

Definition N_to_string (n : N) : string := NilEmpty.string_of_uint (N.to_uint n).

Fixpoint strip_trailing_zeros (s : string) : string :=
  match s with
  | EmptyString => EmptyString
  | String c rest =>
      match strip_trailing_zeros rest with
      | EmptyString => if Ascii.eqb c "0" then EmptyString else String c EmptyString
      | rest' => String c rest'
      end
  end.

(** [Number::toString] of an integer: plain decimal digits below 10^21,
    exponent notation from there on (with the exact digits of [z], where
    JavaScript prints the shortest digits that round-trip). *)
Definition number_to_string (z : Z) : string :=
  let n := Z.abs_N z in
  let sign := if z <? 0 then "-" else "" in
  if (n <? 10 ^ 21)%N then sign ++ N_to_string n
  else
    match N_to_string n with
    | EmptyString => sign
    | String d rest =>
        let frac := strip_trailing_zeros rest in
        sign ++ String d (if String.eqb frac "" then "" else "." ++ frac)
             ++ "e+" ++ N_to_string (N.of_nat (String.length rest))
    end.

Definition hex_digit (n : nat) : ascii :=
  if Nat.ltb n 10 then ascii_of_nat (48 + n) else ascii_of_nat (87 + n).

(** One character of [QuoteJSONString]. *)
Definition quote_char (c : ascii) : string :=
  let n := Str.code c in
  if Ascii.eqb c Str.dquote then String Str.backslash (String Str.dquote "")
  else if Ascii.eqb c Str.backslash then String Str.backslash (String Str.backslash "")
  else if Nat.eqb n 8 then String Str.backslash "b"
  else if Nat.eqb n 9 then String Str.backslash "t"
  else if Nat.eqb n 10 then String Str.backslash "n"
  else if Nat.eqb n 12 then String Str.backslash "f"
  else if Nat.eqb n 13 then String Str.backslash "r"
  else if Nat.ltb n 32
       then String Str.backslash
              (String "u" (String "0" (String "0"
                 (String (hex_digit (n / 16)) (String (hex_digit (n mod 16)) "")))))
  else String c "".

Fixpoint quote_body (s : string) : string :=
  match s with
  | EmptyString => EmptyString
  | String c rest => quote_char c ++ quote_body rest
  end.

Definition quote (s : string) : string :=
  String Str.dquote (quote_body s ++ String Str.dquote "").

(** [JSON.stringify(j)], the compact form the store validator looks at. *)
Fixpoint stringify (j : json) : string :=
  match j with
  | JNull => "null"
  | JBool true => "true"
  | JBool false => "false"
  | JNum z => number_to_string z
  | JStr s => quote s
  | JArr items => "[" ++ Str.join "," (map stringify items) ++ "]"
  | JObj props =>
      "{" ++ Str.join "," (map (fun kv => quote (fst kv) ++ ":" ++ stringify (snd kv)) props)
          ++ "}"
  end.

End JSON.
Export JSON.

(** ** JavaScript values and ordinary objects *)

Module JS.

(** What a property read on the task mapping can yield: a value that came
    out of [JSON.parse] or out of the program, one of the functions every
    object inherits from [Object.prototype], [Object.prototype] itself
    (the value of the inherited [__proto__] accessor), or [undefined]. *)
Inductive value : Type :=
| VJson (j : json)
| VFunction
| VObjectPrototype
| VUndefined.

(** [ToBoolean]. *)
Definition truthy (v : value) : bool :=
  match v with
  | VJson JNull => false
  | VJson (JBool b) => b
  | VJson (JNum z) => negb (z =? 0)
  | VJson (JStr s) => negb (String.eqb s "")
  | VJson (JArr _) => true
  | VJson (JObj _) => true
  | VFunction => true
  | VObjectPrototype => true
  | VUndefined => false
  end.

(** The function-valued properties of [Object.prototype]. *)
Definition Object_prototype_functions : list string :=
  [ "constructor"; "hasOwnProperty"; "isPrototypeOf"; "propertyIsEnumerable";
    "toLocaleString"; "toString"; "valueOf";
    "__defineGetter__"; "__defineSetter__"; "__lookupGetter__"; "__lookupSetter__" ].

Definition inherited (k : string) : value :=
  if String.eqb k "__proto__" then VObjectPrototype
  else if existsb (String.eqb k) Object_prototype_functions then VFunction
  else VUndefined.

(** A key is an array index when it is the canonical decimal form of an
    integer below 2^32 - 1; such keys come first, in ascending order, in
    the property order of an object. *)
Definition array_index (k : string) : option N :=
  if (Str.is_digits k
      && (String.eqb k "0" || negb (String.prefix "0" k))
      && (Str.digits_value k <? 4294967295))%bool
  then Some (Z.to_N (Str.digits_value k))
  else None.

Section Objects.
Context {A : Type}.
Implicit Types (o : list (string * A)) (k : string).

(** Own property lookup. *)
Fixpoint own o k : option A :=
  match o with
  | [] => None
  | (k', v) :: rest => if String.eqb k k' then Some v else own rest k
  end.

Fixpoint replace o k (v : A) : list (string * A) :=
  match o with
  | [] => []
  | (k', v') :: rest =>
      if String.eqb k k' then (k', v) :: rest else (k', v') :: replace rest k v
  end.

Fixpoint insert_index (n : N) k (v : A) o : list (string * A) :=
  match o with
  | [] => [(k, v)]
  | (k', v') :: rest =>
      match array_index k' with
      | Some m => if (m <? n)%N then (k', v') :: insert_index n k v rest
                  else (k, v) :: o
      | None => (k, v) :: o
      end
  end.

(** [CreateDataProperty]: an existing own property keeps its place, a
    new one goes where the property order puts it. *)
Definition define o k (v : A) : list (string * A) :=
  match own o k with
  | Some _ => replace o k v
  | None =>
      match array_index k with
      | Some n => insert_index n k v o
      | None => o ++ [(k, v)]
      end
  end.

(** [o[k] = v] on an ordinary object whose prototype is
    [Object.prototype].  Without an own property of that name, writing
    [__proto__] runs the inherited setter, which creates no property. *)
Definition set o k (v : A) : list (string * A) :=
  match own o k with
  | Some _ => replace o k v
  | None => if String.eqb k "__proto__" then o else define o k v
  end.

(** [delete o[k]]. *)
Definition delete o k : list (string * A) :=
  filter (fun kv => negb (String.eqb k (fst kv))) o.

(** [Object.keys(o)]. *)
Definition keys o : list string := map fst o.

End Objects.

(** [o[k]] on a task mapping: the own property, else what
    [Object.prototype] provides. *)
Definition get (o : list (string * value)) (k : string) : value :=
  match own o k with
  | Some v => v
  | None => inherited k
  end.

Fixpoint indexed {A : Type} (i : N) (l : list A) : list (string * A) :=
  match l with
  | [] => []
  | x :: rest => (N_to_string i, x) :: indexed (N.succ i) rest
  end.

Fixpoint chars (s : string) : list json :=
  match s with
  | EmptyString => []
  | String c rest => JStr (String c "") :: chars rest
  end.

(** The own enumerable properties that [{...v}] copies. *)
Definition spread (v : value) : list (string * json) :=
  match v with
  | VJson (JObj props) => props
  | VJson (JArr items) => indexed 0 items
  | VJson (JStr s) => indexed 0 (chars s)
  | _ => []
  end.

(** The object literal [{...a, ...b}]. *)
Definition merge (a b : list (string * json)) : list (string * json) :=
  fold_left (fun acc kv => define acc (fst kv) (snd kv)) (a ++ b) [].

(** The mapping as [JSON.parse] hands it over. *)
Definition of_json (props : list (string * json)) : list (string * value) :=
  map (fun kv => (fst kv, VJson (snd kv))) props.

(** The mapping as [JSON.stringify] sees it: function-valued and
    undefined properties are left out, [Object.prototype] prints as an
    empty object. *)
Fixpoint to_json (o : list (string * value)) : list (string * json) :=
  match o with
  | [] => []
  | (k, VJson j) :: rest => (k, j) :: to_json rest
  | (k, VObjectPrototype) :: rest => (k, JObj []) :: to_json rest
  | (_, VFunction) :: rest => to_json rest
  | (_, VUndefined) :: rest => to_json rest
  end.

End JS.

(** ** The store file, the environment and the observable events *)

(** What reading and parsing the file at [DB_PATH] gives.  A document
    remembers the indentation it was written with: [DBInit] and the clear
    command write with 2 spaces, [updateTaskList] with 4. *)
Inductive store_file : Type :=
| Missing                                  (* [readFileSync] throws ENOENT *)
| Unparseable (text : string)              (* [JSON.parse] throws a SyntaxError *)
| Document (doc : json) (indent : nat).

Inductive event : Type :=
| ParseSecondsCalled (interval : string)
| FileWritten (doc : json) (indent : nat).

Record world : Type := mkWorld {
  db_file : store_file;
  trace : list event          (* oldest first *)
}.

(** [process.env.PREFIX] as it prints in a template, and the clock that
    [new Date()] reads, in milliseconds. *)
Record env : Type := mkEnv {
  PREFIX : string;
  now : Z
}.

(** The exceptions of the program: the two that reading the store can
    raise, and the one of a failed destructuring or property read. *)
Inductive exn : Type := ENOENT | SyntaxError | TypeError.

(** Code that may throw. *)
Definition bind {A B : Type} (m : exn + A) (k : A -> exn + B) : exn + B :=
  match m with
  | inl err => inl err
  | inr a => k a
  end.

Notation "x <- m ;; k" := (bind m (fun x => k))
  (at level 61, m at next level, right associativity).

(** [JSON.parse(fs.readFileSync(DB_PATH))]. *)
Definition read_store (f : store_file) : exn + json :=
  match f with
  | Missing => inl ENOENT
  | Unparseable _ => inl SyntaxError
  | Document doc _ => inr doc
  end.

(** What [exec] hands back to its caller: a string, or the [false] of
    [updateTaskList]'s [catch] block. *)
Inductive reply : Type :=
| Str (s : string)
| JSfalse.

(** The [taskName] argument of [updateTaskList] and [validateJSON]: [exec]
    passes a string, [modifyTask] the array that [splice] returned. *)
Inductive name_arg : Type :=
| NameStr (s : string)
| NameArr (items : list string).

Inductive op : Type := Create | Modify | Delete.

(** The empty document, [[{}]]. *)
Definition empty_doc : json := JArr [JObj []].

Definition write_file (doc : json) (indent : nat) (w : world) : world :=
  {| db_file := Document doc indent;
     trace := trace w ++ [FileWritten doc indent] |}.

(** [DBInit]: create the store when the file does not exist. *)
Definition DBInit (w : world) : world :=
  match db_file w with
  | Missing => write_file empty_doc 2 w
  | _ => w
  end.

(** ** The [say] object *)

Module Say.

Import Regex.

Definition usage (e : env) : string :=
  PREFIX e ++ "say <message> every <h>:<m>:<s> on <channel> named <task-name>".

Definition modify (e : env) : string :=
  PREFIX e ++ "say modify say|on|every|named <message>|<h>:<m>:<s>|<channel>|<task-name>".

(** *** parseSeconds *)

(** [StrWhiteSpaceChar] below 256. *)
Definition is_space (c : ascii) : bool :=
  existsb (Nat.eqb (Str.code c)) [9; 10; 11; 12; 13; 32; 160]%nat.

Fixpoint trim_start (s : string) : string :=
  match s with
  | String c rest => if is_space c then trim_start rest else s
  | EmptyString => s
  end.

Definition digit_of (radix : Z) (c : ascii) : option Z :=
  let n := Z.of_nat (Str.code c) in
  let d := if (48 <=? n) && (n <=? 57) then Some (n - 48)
           else if (97 <=? n) && (n <=? 122) then Some (n - 87)
           else if (65 <=? n) && (n <=? 90) then Some (n - 55)
           else None in
  match d with
  | Some v => if v <? radix then Some v else None
  | None => None
  end.

(** The longest prefix of digits of the radix; [None] when it is empty. *)
Fixpoint leading_digits (radix : Z) (acc : option Z) (s : string) : option Z :=
  match s with
  | EmptyString => acc
  | String c rest =>
      match digit_of radix c with
      | Some d =>
          leading_digits radix
            (Some (radix * match acc with Some a => a | None => 0 end + d)) rest
      | None => acc
      end
  end.

(** [parseInt(s)] without a radix; [None] is NaN. *)
Definition parseInt (s : string) : option Z :=
  let s1 := trim_start s in
  let '(sign, s2) :=
    match s1 with
    | String c rest =>
        if Ascii.eqb c "-" then (-1, rest)
        else if Ascii.eqb c "+" then (1, rest)
        else (1, s1)
    | EmptyString => (1, s1)
    end in
  let '(radix, s3) :=
    match s2 with
    | String c0 (String c1 rest) =>
        if Ascii.eqb c0 "0" && (Ascii.eqb c1 "x" || Ascii.eqb c1 "X")
        then (16, rest)
        else (10, s2)
    | _ => (10, s2)
    end in
  match leading_digits radix None s3 with
  | Some v => Some (sign * v)
  | None => None
  end.

(** A field of [hms]: [None] is undefined, [Some None] is NaN. *)
Definition truthy_part (p : option (option Z)) : bool :=
  match p with
  | Some (Some z) => negb (z =? 0)
  | _ => false
  end.

(** A parsed component that is NaN or not negative. *)
Definition part_nonneg (p : option Z) : Prop :=
  match p with
  | Some z => 0 <= z
  | None => True
  end.

Definition part_value (p : option (option Z)) : Z :=
  match p with
  | Some (Some z) => z
  | _ => 0
  end.

(** [(new Date(t)).toString() === "Invalid Date"]: the time value is
    outside the range of [TimeClip]. *)
Definition max_time : Z := 8640000000000000.

Definition invalid_date (t : Z) : bool := max_time <? Z.abs t.

Definition parseSeconds (epox : Z) (interval : string) : Z :=
  let timeParts := map parseInt (Str.split ":" interval) in
  let '(hours, minutes, seconds) :=
    match timeParts with
    | [s] => (None, None, Some s)
    | [m; s] => (None, Some m, Some s)
    | [h; m; s] => (Some h, Some m, Some s)
    | _ => (None, None, None)
    end in
  if (truthy_part seconds && invalid_date (epox + part_value seconds))
     || (truthy_part minutes && invalid_date (epox + part_value minutes * 60))
     || (truthy_part hours && invalid_date (epox + part_value hours * 60 * 60))
  then 0
  else
    let intervalInSeconds := 0 in
    let intervalInSeconds :=
      if truthy_part seconds then intervalInSeconds + part_value seconds
      else intervalInSeconds in
    let intervalInSeconds :=
      if truthy_part minutes then intervalInSeconds + part_value minutes * 60
      else intervalInSeconds in
    let intervalInSeconds :=
      if truthy_part hours then intervalInSeconds + part_value hours * 60 * 60
      else intervalInSeconds in
    if invalid_date intervalInSeconds then 0 else intervalInSeconds.

(** A call of [parseSeconds] from the command parser: reads the clock and
    leaves the call in the trace. *)
Definition call_parseSeconds (e : env) (interval : string) (w : world) : Z * world :=
  (parseSeconds (now e) interval,
   {| db_file := db_file w; trace := trace w ++ [ParseSecondsCalled interval] |}).

(** *** checkRegexNotMatch *)

(** [/^\d+$|^(\d+:){1,2}(\d+)$/] *)
Definition interval_re : regex :=
  Alt (Plus digit) (Seq (Rep 1 2 (Seq (Plus digit) (Chr ":"))) (Plus digit)).

Definition digit_or_colon (c : ascii) : bool := Str.is_digit c || Ascii.eqb c ":".

(** [/^[a-zA-Z0-9_]{4,25}$/] *)
Definition channel_re : regex := Rep 4 25 word.

(** [/^[a-zA-Z0-9_-]{3,40}$/] *)
Definition name_re : regex := Rep 3 40 name_char.

(** The first violation among the fields of [toMatch], in property
    order; [None] is the [false] of the source. *)
Fixpoint checkRegexNotMatch (toMatch : list (string * string)) : option string :=
  match toMatch with
  | [] => None
  | (type, v) :: rest =>
      if String.eqb type "every" then
        if negb (matches interval_re v)
        then Some "Interval should be in h:m:s or m:s or s format."
        else checkRegexNotMatch rest
      else if String.eqb type "on" then
        if negb (matches channel_re v)
        then Some ("Username should only contain alphanumeric and underscores, "
                   ++ "ranging from 4-25 characters only.")
        else checkRegexNotMatch rest
      else if String.eqb type "named" then
        if negb (matches name_re v)
        then Some ("Task names should only contain alphanumerics, hyphens "
                   ++ "and underscores, ranging from 3-50 characters only.")
        else checkRegexNotMatch rest
      else checkRegexNotMatch rest
  end.

(** *** validateJSON *)

Definition quoted (s : string) : string :=
  String Str.dquote (s ++ String Str.dquote "").

(** One entry of the mapping: a quoted name of 3 to 40 characters, then
    the record with its three fields in order. *)
Definition entry_re : regex :=
  seqs [ Chr Str.dquote; Rep 3 40 name_char; Chr Str.dquote; Lit ":{";
         seqs [ Lit (quoted "totalWaitInterval"); Chr ":"; Plus digit; Chr ",";
                Lit (quoted "channel"); Chr ":";
                Chr Str.dquote; Rep 4 25 word; Chr Str.dquote; Chr ",";
                Lit (quoted "taskMessage"); Chr ":";
                Chr Str.dquote;
                Star (Alt not_quote (Seq (Chr Str.backslash) (Chr Str.dquote)));
                Chr Str.dquote ];
         Chr "}" ].

(** The [taskList] pattern:
    [^(\[{((ENTRY,){0,}(ENTRY))*}\])$]. *)
Definition taskList : regex :=
  seqs [ Chr "["; Chr "{";
         Star (Seq (Star (Seq entry_re (Chr ","))) entry_re);
         Chr "}"; Chr "]" ].

(** [if (taskName)]: a string is truthy unless empty, an array always. *)
Definition name_truthy (taskName : name_arg) : bool :=
  match taskName with
  | NameStr s => negb (String.eqb s "")
  | NameArr _ => true
  end.

(** [ToPropertyKey(taskName)], which is also how a template prints it. *)
Definition name_key (taskName : name_arg) : string :=
  match taskName with
  | NameStr s => s
  | NameArr items => Str.join "," items
  end.

(** [const [tasks] = db]: the first element of an array, the first
    character of a string; anything else JSON can hold is not iterable. *)
Definition first_of (db : json) : exn + JS.value :=
  match db with
  | JArr [] => inr JS.VUndefined
  | JArr (x :: _) => inr (JS.VJson x)
  | JStr EmptyString => inr JS.VUndefined
  | JStr (String c _) => inr (JS.VJson (JStr (String c "")))
  | _ => inl TypeError
  end.

(** Reading a property of [undefined] or [null] throws; of anything else
    it does not. *)
Definition can_read_property (v : JS.value) : bool :=
  match v with
  | JS.VUndefined => false
  | JS.VJson JNull => false
  | _ => true
  end.

(** The store validator.  When the pattern fails and a task name was
    given, the diagnostic code destructures [db] and reads
    [tasks[taskName]] before it logs; the model keeps the exceptions of
    these two steps and drops the log lines (the logger itself is taken
    not to throw). *)
Definition validateJSON (db : json) (taskName : name_arg) : exn + bool :=
  if matches taskList (stringify db) then inr true
  else if name_truthy taskName then
    match first_of db with
    | inl err => inl err
    | inr tasks => if can_read_property tasks then inr false else inl TypeError
    end
  else inr false.

(** *** updateTaskList *)

(** How a template prints a JSON value. *)
Fixpoint to_display (j : json) : string :=
  match j with
  | JNull => "null"
  | JBool true => "true"
  | JBool false => "false"
  | JNum z => number_to_string z
  | JStr s => s
  | JArr items =>
      Str.join "," (map (fun x => match x with
                                  | JNull => ""
                                  | _ => to_display x
                                  end) items)
  | JObj _ => "[object Object]"
  end.

(** [${updatedTask.channel}] *)
Definition channel_text (updatedTask : list (string * json)) : string :=
  match JS.own updatedTask "channel" with
  | Some j => to_display j
  | None => "undefined"
  end.

(** [taskName !== updatedTask["named"]]: an array is never strictly
    equal to anything else. *)
Definition strict_neq (taskName : name_arg) (named : json) : bool :=
  match taskName, named with
  | NameStr s, JStr t => negb (String.eqb s t)
  | _, _ => true
  end.

(** The body of the [try] block of [updateTaskList]. *)
Definition updateTaskList_try (taskName : name_arg) (type : op)
           (updatedTask : list (string * json)) (w : world) : exn + (reply * world) :=
  JSONfile <- read_store (db_file w) ;;
  valid <- validateJSON JSONfile
             (match type with Modify => taskName | _ => NameStr "" end) ;;
  if negb valid then inr (Str "Invalid Task List.", w)
  else
    first <- first_of JSONfile ;;
    match first with
    | JS.VJson (JObj props) =>
        let tasks := JS.of_json props in
        let key := name_key taskName in
        let persist tasks' returnedValue :=
          (Str returnedValue, write_file (JArr [JObj (JS.to_json tasks')]) 4 w) in
        match type with
        | Create =>
            let returnedValue :=
              "Task " ++ key ++ " activated on channel "
                      ++ channel_text updatedTask ++ "." in
            if JS.truthy (JS.get tasks key)
            then inr (Str ("Task with name '" ++ key ++ "' already exists."), w)
            else inr (persist (JS.set tasks key (JS.VJson (JObj updatedTask)))
                              returnedValue)
        | Modify =>
            let returnedValue := "Task " ++ key ++ " successfully modified." in
            if negb (JS.truthy (JS.get tasks key))
            then inr (Str ("The task '" ++ key ++ "' does not exists."), w)
            else
              match JS.own updatedTask "named" with
              | Some named =>
                  (* [Object.keys(updatedTask).includes("named")] *)
                  if strict_neq taskName named
                  then inr (persist
                              (JS.delete
                                 (JS.set tasks (to_display named) (JS.get tasks key))
                                 key)
                              returnedValue)
                  else inr (persist tasks returnedValue)
              | None =>
                  let old := JS.get tasks key in
                  let modified := JS.merge (JS.spread old) updatedTask in
                  inr (persist (JS.set tasks key (JS.VJson (JObj modified)))
                               returnedValue)
              end
        | Delete =>
            let returnedValue := "Task " ++ key ++ " successfully removed." in
            if negb (JS.truthy (JS.get tasks key))
            then inr (Str ("The task '" ++ key ++ "' does not exists."), w)
            else inr (persist (JS.delete tasks key) returnedValue)
        end
    | _ =>
        (* Not reached: a document that passes the validator is an array
           that starts with an object, see [validateJSON_true_shape]. *)
        inl TypeError
    end.

(** [updateTaskList]: the [catch] block logs the exception and returns
    [false]; nothing has been written by then. *)
Definition updateTaskList (taskName : name_arg) (type : op)
           (updatedTask : list (string * json)) (w : world) : reply * world :=
  match updateTaskList_try taskName type updatedTask w with
  | inr result => result
  | inl _ => (JSfalse, w)
  end.

(** *** modifyTask *)

Definition includes (l : list string) (x : option string) : bool :=
  match x with
  | Some s => existsb (String.eqb s) l
  | None => false
  end.

Definition modifyTask (e : env) (request : list string) (w : world) : reply * world :=
  let taskName := NameArr (firstn 1 request) in
  let request := skipn 1 request in
  if (List.length request =? 1)%nat && includes ["remove"; "delete"] (nth_error request 0)
  then updateTaskList taskName Delete [] w
  else if (List.length request =? 1)%nat
          || negb (includes ["say"; "every"; "on"; "named"] (nth_error request 0))
  then (Str (modify e), w)
  else
    match request with
    | modifyType :: ((first :: _) as request) =>
        let regexNotMatch :=
          if negb (String.eqb modifyType "say") && (List.length request =? 1)%nat
          then checkRegexNotMatch [(modifyType, first)]
          else None in
        match regexNotMatch with
        | Some violation => (Str violation, w)
        | None =>
            if String.eqb modifyType "say" then
              updateTaskList taskName Modify
                [("taskMessage", JStr (Str.join " " request))] w
            else if String.eqb modifyType "every" then
              let '(seconds, w1) := call_parseSeconds e first w in
              updateTaskList taskName Modify [("totalWaitInterval", JNum seconds)] w1
            else if String.eqb modifyType "on" then
              updateTaskList taskName Modify
                [("channel", JStr (Str.toLowerCase first))] w
            else if String.eqb modifyType "named" then
              updateTaskList taskName Modify [("named", JStr first)] w
            else updateTaskList taskName Modify [] w
        end
    | _ =>
        (* Fewer than two words are left only when the test above
           already answered with the usage text. *)
        (Str (modify e), w)
    end.

(** *** exec *)

(** [request.splice(start)] removes the elements from [start] on; a
    negative [start] counts from the end, and both are clamped to the
    array. *)
Definition splice_start (len start : Z) : nat :=
  Z.to_nat (if start <? 0 then Z.max (len + start) 0 else Z.min start len).

(** [meta[i]], [undefined] outside the array. *)
Definition at_index (l : list string) (i : Z) : option string :=
  if i <? 0 then None else nth_error l (Z.to_nat i).

Definition is_word (x : option string) (s : string) : bool :=
  match x with
  | Some t => String.eqb t s
  | None => false
  end.

Definition exec (e : env) (context : string) (request : list string) (w : world)
  : reply * world :=
  if String.eqb (Str.join " " request) "clear task list"
  then (Str "The task list has been wiped clean.", write_file empty_doc 2 w)
  else if is_word (nth_error request 0) "modify"
  then modifyTask e (skipn 1 request) w
  else
    let cut := splice_start (Z.of_nat (List.length request))
                            (Z.of_nat (List.length request) - 6) in
    let meta := skipn cut request in
    let request := firstn cut request in
    let len := Z.of_nat (List.length meta) in
    if (List.length request =? 0)%nat
       || negb (is_word (at_index meta 0) "every")
       || negb (is_word (at_index meta (len - 4)) "on")
       || negb (is_word (at_index meta (len - 2)) "named")
    then (Str (usage e), w)
    else
      match meta with
      | [_; every; _; on; _; taskName] =>
          match checkRegexNotMatch [("every", every); ("on", on); ("named", taskName)] with
          | Some violation => (Str violation, w)
          | None =>
              let '(intervalInSeconds, w1) := call_parseSeconds e every w in
              if intervalInSeconds =? 0
              then (Str "Please enter a valid interval.", w1)
              else
                let newTask :=
                  [ ("totalWaitInterval", JNum intervalInSeconds);
                    ("channel", JStr (Str.toLowerCase on));
                    ("taskMessage", JStr (Str.join " " request)) ] in
                updateTaskList (NameStr taskName) Create newTask w1
          end
      | _ =>
          (* [meta] has six words whenever the test above lets the
             command through, see [meta_has_six_words]. *)
          (Str (usage e), w)
      end.

End Say.



(** ** Sample stores and commands *)

Module Sample.

Definition env0 : env := {| PREFIX := "!"; now := 1700000000000 |}.

(** [[{"bot-task": {"totalWaitInterval": 7530, "channel": "pogtv",
    "taskMessage": "my repeat message"}}]] *)
Definition bot_task : json :=
  JObj [ ("totalWaitInterval", JNum 7530);
         ("channel", JStr "pogtv");
         ("taskMessage", JStr "my repeat message") ].

Definition one_task : json := JArr [JObj [("bot-task", bot_task)]].

Definition other_task : json :=
  JObj [ ("totalWaitInterval", JNum 60);
         ("channel", JStr "lobby");
         ("taskMessage", JStr "hello") ].

Definition two_tasks : json :=
  JArr [JObj [("bot-task", bot_task); ("greeter", other_task)]].

(** A store whose only entry lacks [totalWaitInterval]. *)
Definition two_fields : json :=
  JArr [JObj [("bot-task",
               JObj [ ("channel", JStr "pogtv");
                      ("taskMessage", JStr "my repeat message") ])]].

Definition fresh (doc : json) : world := {| db_file := Document doc 4; trace := [] |}.

End Sample.

(** ** The vocabulary of the properties *)

Section Vocabulary.
Import Regex.

(** The strings a pattern stands for. *)
Inductive lang : regex -> string -> Prop :=
| lang_Eps : lang Eps ""
| lang_Chr c : lang (Chr c) (String c "")
| lang_Class neg ranges c :
    class_mem neg ranges c = true -> lang (Class neg ranges) (String c "")
| lang_Seq r1 r2 s1 s2 : lang r1 s1 -> lang r2 s2 -> lang (Seq r1 r2) (s1 ++ s2)
| lang_Alt_l r1 r2 s : lang r1 s -> lang (Alt r1 r2) s
| lang_Alt_r r1 r2 s : lang r2 s -> lang (Alt r1 r2) s
| lang_Star_nil r : lang (Star r) ""
| lang_Star_cons r s1 s2 : lang r s1 -> lang (Star r) s2 -> lang (Star r) (s1 ++ s2)
| lang_Rep_nil hi r : lang (Rep 0 hi r) ""
| lang_Rep_cons lo hi r s1 s2 :
    lang r s1 -> lang (Rep (Nat.pred lo) hi r) s2 -> lang (Rep lo (S hi) r) (s1 ++ s2).

(** A pattern whose counted repetitions repeat something that cannot be
    empty, with a lower bound that is not above the upper bound.  The
    patterns of the program are of this kind; for them the matcher and
    [lang] agree. *)
Fixpoint proper (r : regex) : bool :=
  match r with
  | Seq r1 r2 => proper r1 && proper r2
  | Alt r1 r2 => proper r1 && proper r2
  | Star r1 => proper r1
  | Rep lo hi r1 => proper r1 && negb (nullable r1) && Nat.leb lo hi
  | _ => true
  end.

(** [a-zA-Z0-9_] *)
Definition is_word_char (c : ascii) : bool :=
  Str.in_range "a" "z" c || Str.in_range "A" "Z" c || Str.in_range "0" "9" c
  || Ascii.eqb c "_".

(** [a-zA-Z0-9_-] *)
Definition is_name_char (c : ascii) : bool := is_word_char c || Ascii.eqb c "-".

Definition length_between (lo hi : nat) (s : string) : bool :=
  Nat.leb lo (String.length s) && Nat.leb (String.length s) hi.

(** A task as [exec] builds it. *)
Definition task_record (seconds : Z) (channel message : string) : json :=
  JObj [ ("totalWaitInterval", JNum seconds);
         ("channel", JStr channel);
         ("taskMessage", JStr message) ].

(** An entry of the mapping as the data model has it: a name and a
    channel of the right form, and a record with the three fields in
    order, the interval not negative and short enough to print in plain
    digits. *)
Inductive well_formed_entry : string * json -> Prop :=
| wf_entry name seconds channel message :
    matches Say.name_re name = true ->
    0 <= seconds < 10 ^ 21 ->
    matches Say.channel_re channel = true ->
    well_formed_entry (name, task_record seconds channel message).

Definition well_formed (props : list (string * json)) : Prop :=
  Forall well_formed_entry props.

(** The part of [entry_re] that stands for the text of the message:
    any characters but the double quote, or a backslash and a double
    quote, repeated. *)
Definition message_re : regex :=
  Star (Alt not_quote (Seq (Chr Str.backslash) (Chr Str.dquote))).

(** The text of an entry, grouped as [entry_re] is. *)
Definition entry_text (name digits channel body : string) : string :=
  let dq := String Str.dquote "" in
  dq ++ name ++ dq ++ ":{"
     ++ (Say.quoted "totalWaitInterval" ++ ":" ++ digits ++ ","
         ++ Say.quoted "channel" ++ ":" ++ dq ++ channel ++ dq ++ ","
         ++ Say.quoted "taskMessage" ++ ":" ++ dq ++ body ++ dq)
     ++ "}".

(** A property of the entries of the mapping, read on the values that
    the mapping holds in memory: a function-valued property is not
    written, [Object.prototype] is written as an empty object. *)
Definition on_value (Q : string * json -> Prop) (kv : string * JS.value) : Prop :=
  match snd kv with
  | JS.VJson j => Q (fst kv, j)
  | JS.VObjectPrototype => Q (fst kv, JObj [])
  | JS.VFunction => True
  | JS.VUndefined => True
  end.

(** The task mapping of a store file: the first element of the document
    when that is an object, nothing otherwise. *)
Definition store_entries (f : store_file) : list (string * json) :=
  match f with
  | Document (JArr (JObj props :: _)) _ => props
  | _ => []
  end.

(** The operations of the task store that the commands decode to: the
    command, and the task name, the kind and the patch that
    [updateTaskList] receives. *)
Inductive decoded (e : env) : list string -> name_arg -> op -> list (string * json) -> Prop :=
| decoded_create message every on name :
    message <> [] ->
    Say.checkRegexNotMatch [("every", every); ("on", on); ("named", name)] = None ->
    Say.parseSeconds (now e) every <> 0 ->
    decoded e (message ++ ["every"; every; "on"; on; "named"; name])
            (NameStr name) Create
            [ ("totalWaitInterval", JNum (Say.parseSeconds (now e) every));
              ("channel", JStr (Str.toLowerCase on));
              ("taskMessage", JStr (Str.join " " message)) ]
| decoded_delete name word :
    word = "remove" \/ word = "delete" ->
    decoded e ["modify"; name; word] (NameArr [name]) Delete []
| decoded_say name word words :
    decoded e ("modify" :: name :: "say" :: word :: words) (NameArr [name]) Modify
            [("taskMessage", JStr (Str.join " " (word :: words)))]
| decoded_every name value rest :
    (rest = [] -> Regex.matches Say.interval_re value = true) ->
    decoded e ("modify" :: name :: "every" :: value :: rest) (NameArr [name]) Modify
            [("totalWaitInterval", JNum (Say.parseSeconds (now e) value))]
| decoded_on name value rest :
    (rest = [] -> Regex.matches Say.channel_re value = true) ->
    decoded e ("modify" :: name :: "on" :: value :: rest) (NameArr [name]) Modify
            [("channel", JStr (Str.toLowerCase value))]
| decoded_named name value rest :
    (rest = [] -> Regex.matches Say.name_re value = true) ->
    decoded e ("modify" :: name :: "named" :: value :: rest) (NameArr [name]) Modify
            [("named", JStr value)].

(** A world after a command that wrote nothing: as before, or with
    one more call of [parseSeconds] in the trace. *)
Inductive no_write (w : world) : world -> Prop :=
| no_write_same : no_write w w
| no_write_parse arg :
    no_write w {| db_file := db_file w;
                  trace := trace w ++ [ParseSecondsCalled arg] |}.

(** A store file that holds a one-element sequence whose mapping is
    well formed. *)
Definition well_formed_file (f : store_file) : Prop :=
  exists props indent, f = Document (JArr [JObj props]) indent /\ well_formed props.

(** A field of a record: when it is called [channel], it holds a string
    without upper-case letters. *)
Definition lower_case_field (f : string * json) : Prop :=
  fst f = "channel" -> exists c, snd f = JStr c /\ Str.toLowerCase c = c.

(** An entry of the mapping whose channel, if it is a record that has
    one, is in lower case. *)
Definition lower_case_channel (kv : string * json) : Prop :=
  match snd kv with
  | JObj fields => Forall lower_case_field fields
  | _ => True
  end.

(** The replies with which a command confirms that it has changed the
    store. *)
Inductive confirmation : reply -> Prop :=
| confirm_clear : confirmation (Str "The task list has been wiped clean.")
| confirm_create name channel :
    confirmation (Str ("Task " ++ name ++ " activated on channel " ++ channel ++ "."))
| confirm_modify name :
    confirmation (Str ("Task " ++ name ++ " successfully modified."))
| confirm_delete name :
    confirmation (Str ("Task " ++ name ++ " successfully removed.")).

(** The writes in a trace. *)
Definition writes (tr : list event) : list event :=
  filter (fun ev => match ev with FileWritten _ _ => true | _ => false end) tr.

(** A character of a serialized string that stands for itself:
    neither the double quote nor the backslash. *)
Definition plain_char (c : ascii) : bool :=
  negb (Ascii.eqb c Str.dquote) && negb (Ascii.eqb c Str.backslash).

(** No double quote without a backslash just before it; [prev] is the
    character before the string. *)
Fixpoint no_bare_quote (prev : ascii) (t : string) : bool :=
  match t with
  | EmptyString => true
  | String c rest =>
      (negb (Ascii.eqb c Str.dquote) || Ascii.eqb prev Str.backslash)
      && no_bare_quote c rest
  end.

(** The last character of [t], or [prev] when [t] is empty. *)
Fixpoint last_char (prev : ascii) (t : string) : ascii :=
  match t with
  | EmptyString => prev
  | String c rest => last_char c rest
  end.

(** Text that does not go on with a character of a task name. *)
Definition no_name_start (t : string) : bool :=
  match t with
  | EmptyString => true
  | String c _ => negb (is_name_char c)
  end.

(** What the pattern of the store lets follow an entry: the end of the
    document, or the opening quote of another entry, after a comma or
    directly. *)
Inductive follows : string -> Prop :=
| follows_end : follows "}]"
| follows_entry c rest :
    is_name_char c = true -> follows (String Str.dquote (String c rest))
| follows_comma c rest :
    is_name_char c = true -> follows (String "," (String Str.dquote (String c rest))).

(** Serialized text in which the first double quote, if there is one,
    opens a string that is followed by something else than a name. *)
Inductive first_quote_opens : string -> Prop :=
| first_quote_none t :
    Str.all_chars plain_char t = true -> first_quote_opens t
| first_quote_some u s rest :
    Str.all_chars plain_char u = true ->
    no_name_start rest = true ->
    first_quote_opens (u ++ String Str.dquote (quote_body s ++ String Str.dquote rest)).

(** The characters of a serialized number. *)
Definition number_char (c : ascii) : bool :=
  Str.is_digit c || Ascii.eqb c "-" || Ascii.eqb c "." || Ascii.eqb c "e"
  || Ascii.eqb c "+".

(** The serialized text of the fields that follow a field of an object,
    and then [t]. *)
Fixpoint fields_tail (props : list (string * json)) (t : string) : string :=
  match props with
  | [] => t
  | kv :: rest =>
      String "," (String Str.dquote
        (quote_body (fst kv)
           ++ String Str.dquote (String ":" (stringify (snd kv) ++ fields_tail rest t))))
  end.

(** The serialized text of the elements that follow an element of an
    array, and then [t]. *)
Fixpoint items_tail (items : list json) (t : string) : string :=
  match items with
  | [] => t
  | x :: rest => String "," (stringify x ++ items_tail rest t)
  end.

(** What the pattern of the store reads after an entry: the end of the
    document, or another entry, directly or after a comma. *)
Inductive continuation : string -> Prop :=
| continuation_end : continuation "}]"
| continuation_next e X :
    lang Say.entry_re e -> continuation X -> continuation (e ++ X)
| continuation_comma e X :
    lang Say.entry_re e -> continuation X -> continuation (String "," (e ++ X)).

End Vocabulary.

(** * Properties *)

(** ** Ordinary objects *)

Section ObjectFacts.
Context {A : Type}.
Implicit Types (o : list (string * A)) (k : string) (v : A).

Lemma own_replace_same o k v :
  JS.own o k <> None -> JS.own (JS.replace o k v) k = Some v.
Proof.
  induction o as [|[k' v'] rest IH]; simpl; intros H.
  - congruence.
  - destruct (String.eqb k k') eqn:E; simpl; rewrite E; auto.
Qed.

Lemma own_replace_other o k k' v :
  k' <> k -> JS.own (JS.replace o k v) k' = JS.own o k'.
Proof.
  intros Hne. induction o as [|[k0 v0] rest IH]; simpl; auto.
  destruct (String.eqb k k0) eqn:E; simpl.
  - apply String.eqb_eq in E. subst k0.
    destruct (String.eqb k' k) eqn:E'; auto.
    apply String.eqb_eq in E'. congruence.
  - rewrite IH. reflexivity.
Qed.

Lemma own_insert_index_same n o k v :
  JS.own o k = None -> JS.own (JS.insert_index n k v o) k = Some v.
Proof.
  induction o as [|[k' v'] rest IH]; simpl; intros H.
  - now rewrite String.eqb_refl.
  - destruct (String.eqb k k') eqn:E; [discriminate|].
    destruct (JS.array_index k') as [m|]; [destruct (m <? n)%N|]; simpl;
      rewrite ?E, ?String.eqb_refl; auto.
Qed.

Lemma own_insert_index_other n o k k' v :
  k' <> k -> JS.own (JS.insert_index n k v o) k' = JS.own o k'.
Proof.
  intros Hne. apply String.eqb_neq in Hne.
  induction o as [|[k0 v0] rest IH]; simpl.
  - now rewrite Hne.
  - destruct (JS.array_index k0) as [m|]; [destruct (m <? n)%N|]; simpl;
      rewrite ?Hne, ?IH; auto.
Qed.

Lemma own_app_same o k v :
  JS.own o k = None -> JS.own (o ++ [(k, v)]) k = Some v.
Proof.
  induction o as [|[k' v'] rest IH]; simpl; intros H.
  - now rewrite String.eqb_refl.
  - destruct (String.eqb k k'); [discriminate | auto].
Qed.

Lemma own_app_other o k k' v :
  k' <> k -> JS.own (o ++ [(k, v)]) k' = JS.own o k'.
Proof.
  intros Hne. apply String.eqb_neq in Hne.
  induction o as [|[k0 v0] rest IH]; simpl.
  - now rewrite Hne.
  - now rewrite IH.
Qed.

Lemma own_define_same o k v : JS.own (JS.define o k v) k = Some v.
Proof.
  unfold JS.define. destruct (JS.own o k) eqn:E.
  - apply own_replace_same. congruence.
  - destruct (JS.array_index k).
    + now apply own_insert_index_same.
    + now apply own_app_same.
Qed.

Lemma own_define_other o k k' v :
  k' <> k -> JS.own (JS.define o k v) k' = JS.own o k'.
Proof.
  intros Hne. unfold JS.define. destruct (JS.own o k).
  - now apply own_replace_other.
  - destruct (JS.array_index k).
    + now apply own_insert_index_other.
    + now apply own_app_other.
Qed.

(** An assignment creates or updates the property, except [__proto__]
    on an object that has no own property of that name. *)
Lemma own_set_same o k v :
  JS.own o k <> None \/ k <> "__proto__" ->
  JS.own (JS.set o k v) k = Some v.
Proof.
  intros H. unfold JS.set. destruct (JS.own o k) eqn:E.
  - apply own_replace_same. congruence.
  - destruct H as [H|H]; [congruence|].
    apply String.eqb_neq in H. rewrite H. apply own_define_same.
Qed.

Lemma own_set_other o k k' v :
  k' <> k -> JS.own (JS.set o k v) k' = JS.own o k'.
Proof.
  intros Hne. unfold JS.set. destruct (JS.own o k).
  - now apply own_replace_other.
  - destruct (String.eqb k "__proto__"); auto using own_define_other.
Qed.

Lemma own_delete_same o k : JS.own (JS.delete o k) k = None.
Proof.
  induction o as [|[k' v'] rest IH]; simpl; auto.
  destruct (String.eqb k k') eqn:E; simpl; rewrite ?E; auto.
Qed.

Lemma own_delete_other o k k' :
  k' <> k -> JS.own (JS.delete o k) k' = JS.own o k'.
Proof.
  intros Hne. induction o as [|[k0 v0] rest IH]; simpl; auto.
  destruct (String.eqb k k0) eqn:E; simpl.
  - apply String.eqb_eq in E. subst k0.
    apply String.eqb_neq in Hne. now rewrite Hne.
  - now rewrite IH.
Qed.

Lemma length_replace o k v : List.length (JS.replace o k v) = List.length o.
Proof.
  induction o as [|[k' v'] rest IH]; simpl; auto.
  destruct (String.eqb k k'); simpl; auto.
Qed.

Lemma delete_absent o k : ~ In k (JS.keys o) -> JS.delete o k = o.
Proof.
  induction o as [|[k' v'] rest IH]; simpl; intros H; auto.
  destruct (String.eqb k k') eqn:E; simpl.
  - apply String.eqb_eq in E. subst. tauto.
  - f_equal. apply IH. tauto.
Qed.

Lemma own_in_keys o k v : JS.own o k = Some v -> In k (JS.keys o).
Proof.
  induction o as [|[k' v'] rest IH]; simpl; intros H; [discriminate|].
  destruct (String.eqb k k') eqn:E.
  - apply String.eqb_eq in E. auto.
  - auto.
Qed.

(** Deleting a present key of an object without repeated keys removes
    exactly one property. *)
Lemma length_delete_present o k v :
  NoDup (JS.keys o) -> JS.own o k = Some v ->
  S (List.length (JS.delete o k)) = List.length o.
Proof.
  induction o as [|[k' v'] rest IH]; simpl; intros Hnd H; [discriminate|].
  inversion Hnd as [|? ? Hnotin Hnd']; subst.
  destruct (String.eqb k k') eqn:E; simpl.
  - apply String.eqb_eq in E. subst k'.
    fold (JS.delete rest k). now rewrite delete_absent.
  - f_equal. fold (JS.delete rest k). now apply IH.
Qed.

Lemma keys_replace o k v : JS.keys (JS.replace o k v) = JS.keys o.
Proof.
  induction o as [|[k' v'] rest IH]; simpl; auto.
  destruct (String.eqb k k'); simpl; unfold JS.keys in *; congruence.
Qed.

End ObjectFacts.

(** The mapping in memory and its JSON form. *)

Lemma to_json_of_json props : JS.to_json (JS.of_json props) = props.
Proof.
  induction props as [|[k j] rest IH]; simpl; [|rewrite IH]; reflexivity.
Qed.

Lemma own_of_json props k :
  JS.own (JS.of_json props) k = option_map JS.VJson (JS.own props k).
Proof.
  induction props as [|[k' j] rest IH]; simpl; auto.
  destruct (String.eqb k k'); auto.
Qed.

Lemma of_json_replace props k j :
  JS.replace (JS.of_json props) k (JS.VJson j) = JS.of_json (JS.replace props k j).
Proof.
  induction props as [|[k' j'] rest IH]; simpl; auto.
  destruct (String.eqb k k'); simpl; [|rewrite IH]; reflexivity.
Qed.

Lemma of_json_insert_index n props k j :
  JS.insert_index n k (JS.VJson j) (JS.of_json props)
  = JS.of_json (JS.insert_index n k j props).
Proof.
  induction props as [|[k' j'] rest IH]; simpl; auto.
  destruct (JS.array_index k') as [m|]; [destruct (m <? n)%N|]; simpl;
    rewrite ?IH; reflexivity.
Qed.

Lemma of_json_set props k j :
  JS.set (JS.of_json props) k (JS.VJson j) = JS.of_json (JS.set props k j).
Proof.
  unfold JS.set, JS.define. rewrite own_of_json.
  destruct (JS.own props k); simpl.
  - apply of_json_replace.
  - destruct (String.eqb k "__proto__"); auto.
    destruct (JS.array_index k).
    + apply of_json_insert_index.
    + unfold JS.of_json. now rewrite map_app.
Qed.

Lemma of_json_delete props k :
  JS.delete (JS.of_json props) k = JS.of_json (JS.delete props k).
Proof.
  induction props as [|[k' j'] rest IH]; simpl; auto.
  destruct (String.eqb k k'); simpl; [|f_equal]; apply IH.
Qed.

(** ** The pattern matcher *)

Section RegexFacts.
Import Regex.

Lemma matches_Empty s : matches Empty s = false.
Proof. induction s; simpl; auto. Qed.

Lemma mkAlt_Empty_r r : mkAlt r Empty = r.
Proof. destruct r; reflexivity. Qed.

Lemma mkSeq_Eps_l r : mkSeq Eps r = r.
Proof. destruct r; reflexivity. Qed.

(** A pattern that starts with a literal character consumes it. *)
Lemma matches_Chr_Seq d r c s :
  matches (Seq (Chr d) r) (String c s) = (Ascii.eqb c d && matches r s)%bool.
Proof.
  change (matches (Seq (Chr d) r) (String c s))
    with (matches (mkAlt (mkSeq (if Ascii.eqb c d then Eps else Empty) r) Empty) s).
  rewrite mkAlt_Empty_r. destruct (Ascii.eqb c d).
  - now rewrite mkSeq_Eps_l.
  - apply matches_Empty.
Qed.

Lemma taskList_unfold :
  Say.taskList
  = Seq (Chr "[") (Seq (Chr "{")
      (seqs [ Star (Seq (Star (Seq Say.entry_re (Chr ","))) Say.entry_re);
              Chr "}"; Chr "]" ])).
Proof. reflexivity. Qed.

(** Whatever matches [taskList] starts with an opening bracket and an
    opening brace. *)
Lemma taskList_prefix s :
  matches Say.taskList s = true ->
  exists rest, s = String "[" (String "{" rest).
Proof.
  rewrite taskList_unfold. destruct s as [|c1 s]; [discriminate|].
  rewrite matches_Chr_Seq. intros H. apply andb_prop in H as [H1 H2].
  destruct s as [|c2 s]; [discriminate|].
  rewrite matches_Chr_Seq in H2. apply andb_prop in H2 as [H2 _].
  apply Ascii.eqb_eq in H1, H2. subst. eauto.
Qed.

End RegexFacts.

(** Patterns over a restricted alphabet match only strings over it. *)

Section Alphabet.
Import Regex.
Variable P : ascii -> bool.

Lemma accepts_only_mkSeq a b :
  accepts_only P a = true -> accepts_only P b = true ->
  accepts_only P (mkSeq a b) = true.
Proof.
  intros Ha Hb. destruct a, b; simpl in *; auto; rewrite ?Ha, ?Hb; auto.
Qed.

Lemma accepts_only_mkAlt a b :
  accepts_only P a = true -> accepts_only P b = true ->
  accepts_only P (mkAlt a b) = true.
Proof.
  intros Ha Hb. destruct a, b; simpl in *; auto; rewrite ?Ha, ?Hb; auto.
Qed.

Lemma accepts_only_deriv c r :
  accepts_only P r = true -> accepts_only P (deriv c r) = true.
Proof.
  induction r as [| | d | neg ranges | r1 IH1 r2 IH2 | r1 IH1 r2 IH2 | r1 IH1
                  | lo hi r1 IH1]; cbn [deriv accepts_only]; intros H; auto.
  - now destruct (Ascii.eqb c d).
  - now destruct (class_mem neg ranges c).
  - apply andb_prop in H as [H1 H2].
    apply accepts_only_mkAlt.
    + apply accepts_only_mkSeq; auto.
    + destruct (nullable r1); auto.
  - apply andb_prop in H as [H1 H2]. apply accepts_only_mkAlt; auto.
  - apply accepts_only_mkSeq; auto.
  - destruct hi; auto. apply accepts_only_mkSeq; auto.
Qed.

Lemma deriv_outside c r :
  accepts_only P r = true -> P c = false -> deriv c r = Empty.
Proof.
  intros H Hc.
  induction r as [| | d | neg ranges | r1 IH1 r2 IH2 | r1 IH1 r2 IH2 | r1 IH1
                  | lo hi r1 IH1]; cbn [deriv accepts_only] in *; auto.
  - destruct (Ascii.eqb_spec c d); [congruence | reflexivity].
  - destruct (class_mem neg ranges c) eqn:E; [|reflexivity].
    rewrite forallb_forall in H.
    specialize (H (nat_of_ascii c)).
    rewrite ascii_nat_embedding, E, Hc in H.
    assert (In (nat_of_ascii c) (seq 0 256)).
    { apply in_seq. pose proof (nat_ascii_bounded c). lia. }
    specialize (H H0). discriminate H.
  - apply andb_prop in H as [H1 H2].
    rewrite IH1, IH2 by assumption. now destruct (nullable r1).
  - apply andb_prop in H as [H1 H2]. now rewrite IH1, IH2.
  - now rewrite IH1.
  - destruct hi; auto. now rewrite IH1.
Qed.

Lemma matches_accepts_only s : forall r,
  accepts_only P r = true -> matches r s = true -> Str.all_chars P s = true.
Proof.
  induction s as [|c s IH]; cbn [matches Str.all_chars]; intros r Hr Hm; auto.
  destruct (P c) eqn:Hc.
  - cbn [andb]. apply (IH (deriv c r)); auto using accepts_only_deriv.
  - rewrite deriv_outside in Hm by assumption.
    now rewrite matches_Empty in Hm.
Qed.
End Alphabet.

Lemma interval_chars s :
Regex.matches Say.interval_re s = true -> Str.all_chars Say.digit_or_colon s = true.
Proof.
apply matches_accepts_only. vm_compute. reflexivity.
Qed.


(** ** Serialized documents *)

Section StringifyFacts.

Lemma N_to_string_head n :
  exists c s, N_to_string n = String c s /\ Str.is_digit c = true.
Proof.
  unfold N_to_string.
  assert (Hnil : N.to_uint n <> Decimal.Nil).
  { destruct n as [|p]; simpl; [discriminate|].
    apply DecimalPos.Unsigned.to_uint_nonnil. }
  destruct (N.to_uint n); try congruence; simpl; eauto.
Qed.

Lemma number_to_string_head z :
  exists c s, number_to_string z = String c s
              /\ (Str.is_digit c = true \/ c = "-"%char).
Proof.
  unfold number_to_string.
  destruct (N_to_string_head (Z.abs_N z)) as (c & s & E & Hd).
  rewrite E.
  destruct (Z.abs_N z <? 10 ^ 21)%N; destruct (z <? 0); simpl; eauto.
Qed.

Lemma append_empty_r (s : string) : s ++ "" = s.
Proof. induction s; simpl; congruence. Qed.

Lemma join_cons (sep a : string) (l : list string) :
  exists t, Str.join sep (a :: l) = a ++ t.
Proof.
  destruct l as [|b l]; simpl.
  - exists "". now rewrite append_empty_r.
  - eauto.
Qed.

(** The serialized form of a document starts with [[{] only when the
    document is an array whose first element is an object. *)
Lemma stringify_prefix db rest :
  stringify db = String "[" (String "{" rest) ->
  exists props others, db = JArr (JObj props :: others).
Proof.
  destruct db as [| [|] | z | s | items | props]; simpl; try discriminate.
  - destruct (number_to_string_head z) as (c & t & E & [Hd|Hd]);
      rewrite E; intros H; inversion H; subst; discriminate.
  - destruct items as [|x others]; [discriminate|].
    destruct (join_cons "," (stringify x) (map stringify others)) as [t Et].
    simpl map. rewrite Et. clear Et.
    destruct x as [| [|] | z | s | xs | props]; simpl; try discriminate.
    + destruct (number_to_string_head z) as (c & u & E & [Hd|Hd]);
        rewrite E; simpl; intros H; inversion H; subst; discriminate.
    + eauto.
Qed.

End StringifyFacts.

(** A document that passes the store validator is an array that starts
    with an object, so [const [tasks] = JSONfile] in [updateTaskList]
    always yields the task mapping. *)
Lemma validateJSON_true_shape db taskName :
  Say.validateJSON db taskName = inr true ->
  exists props others, db = JArr (JObj props :: others).
Proof.
  unfold Say.validateJSON.
  destruct (Regex.matches Say.taskList (stringify db)) eqn:M.
  - intros _. apply taskList_prefix in M as [rest E].
    now apply stringify_prefix in E.
  - destruct (Say.name_truthy taskName); [|discriminate].
    destruct (Say.first_of db) as [err|tasks]; [discriminate|].
    destruct (Say.can_read_property tasks); discriminate.
Qed.

Lemma validateJSON_true_shape_witness :
  exists props others, Sample.two_tasks = JArr (JObj props :: others).
Proof.
  apply (validateJSON_true_shape Sample.two_tasks (NameStr "")).
  vm_compute. reflexivity.
Defined.

(** ** The store validator as a gate *)

(** C1 (amended).  For create, modify and delete: when the store file
    parses but its serialized form does not match the [taskList] pattern,
    [updateTaskList] answers "Invalid Task List." and leaves the file as it
    was, nothing being written.  For modify the diagnostic code must be
    able to read [tasks[taskName]], that is the document is a sequence (or
    a string) whose first element is neither missing nor [null]. *)
Theorem invalid_store_rejected taskName type updatedTask doc indent tr :
  Regex.matches Say.taskList (stringify doc) = false ->
  (type = Modify -> Say.name_truthy taskName = true ->
   exists tasks, Say.first_of doc = inr tasks /\ Say.can_read_property tasks = true) ->
  Say.updateTaskList taskName type updatedTask
    {| db_file := Document doc indent; trace := tr |}
  = (Str "Invalid Task List.", {| db_file := Document doc indent; trace := tr |}).
Proof.
  intros Hbad Hdiag.
  unfold Say.updateTaskList, Say.updateTaskList_try, Say.validateJSON.
  cbn [db_file read_store bind]. rewrite Hbad.
  destruct type; cbn [Say.name_truthy String.eqb negb]; try reflexivity.
  destruct (Say.name_truthy taskName) eqn:Ht; [|reflexivity].
  destruct (Hdiag eq_refl eq_refl) as (tasks & Hfirst & Hread).
  now rewrite Hfirst, Hread.
Qed.

Lemma invalid_store_rejected_witness :
  Regex.matches Say.taskList (stringify Sample.two_fields) = false
  /\ Say.updateTaskList (NameArr ["bot-task"]) Modify [("channel", JStr "newchan")]
       (Sample.fresh Sample.two_fields)
     = (Str "Invalid Task List.", Sample.fresh Sample.two_fields).
Proof.
  split.
  - vm_compute. reflexivity.
  - apply (invalid_store_rejected (NameArr ["bot-task"]) Modify
             [("channel", JStr "newchan")] Sample.two_fields 4 []).
    + vm_compute. reflexivity.
    + intros _ _. eexists. split; reflexivity.
Defined.

(** C1 as stated fails for the clear command: on a store that does not
    match the pattern it does not answer "Invalid Task List." and it
    overwrites the file. *)
Lemma clear_ignores_invalid_store :
  Regex.matches Say.taskList (stringify Sample.two_fields) = false
  /\ Say.exec Sample.env0 "" ["clear"; "task"; "list"] (Sample.fresh Sample.two_fields)
     = (Str "The task list has been wiped clean.",
        {| db_file := Document empty_doc 2; trace := [FileWritten empty_doc 2] |})
  /\ Str "The task list has been wiped clean." <> Str "Invalid Task List."
  /\ Document empty_doc 2 <> db_file (Sample.fresh Sample.two_fields).
Proof.
  repeat split; try (vm_compute; reflexivity); discriminate.
Qed.

(** ** Clearing the store *)

(** C7.  Whatever the store file holds (nothing, unparseable text, any
    document), the command "clear task list" writes the one-element
    sequence holding an empty mapping and answers with a confirmation. *)
Theorem clear_resets_store e context request w :
  Str.join " " request = "clear task list" ->
  Say.exec e context request w
  = (Str "The task list has been wiped clean.", write_file empty_doc 2 w)
  /\ db_file (snd (Say.exec e context request w)) = Document (JArr [JObj []]) 2.
Proof.
  intros H. unfold Say.exec. rewrite H. cbn [String.eqb]. split; reflexivity.
Qed.

Lemma clear_resets_store_witness :
  Str.join " " ["clear"; "task"; "list"] = "clear task list"
  /\ db_file (snd (Say.exec Sample.env0 "" ["clear"; "task"; "list"]
                     {| db_file := Unparseable "[{"; trace := [] |}))
     = Document (JArr [JObj []]) 2.
Proof.
  split.
  - reflexivity.
  - apply (clear_resets_store Sample.env0 "" ["clear"; "task"; "list"]
             {| db_file := Unparseable "[{"; trace := [] |}).
    reflexivity.
Defined.

(** ** The empty store *)

(** C10.  The empty document, which is what [DBInit] and the clear
    command write, passes the store validator whatever task name comes
    with it, so no operation of [updateTaskList] on it answers
    "Invalid Task List.". *)
Theorem empty_store_is_valid :
  (forall taskName, Say.validateJSON empty_doc taskName = inr true)
  /\ (forall tr, db_file (DBInit {| db_file := Missing; trace := tr |})
                 = Document empty_doc 2)
  /\ (forall e context w,
         db_file (snd (Say.exec e context ["clear"; "task"; "list"] w))
         = Document empty_doc 2)
  /\ (forall taskName type updatedTask indent tr,
         fst (Say.updateTaskList taskName type updatedTask
                {| db_file := Document empty_doc indent; trace := tr |})
         <> Str "Invalid Task List.").
Proof.
  assert (Hvalid : forall taskName, Say.validateJSON empty_doc taskName = inr true).
  { intros taskName. unfold Say.validateJSON.
    replace (Regex.matches Say.taskList (stringify empty_doc)) with true
      by (vm_compute; reflexivity).
    reflexivity. }
  repeat split; auto.
  intros taskName type updatedTask indent tr.
  unfold Say.updateTaskList, Say.updateTaskList_try.
  cbn [db_file read_store bind]. rewrite Hvalid.
  cbn [bind negb Say.first_of empty_doc JS.of_json map].
  destruct type;
    repeat match goal with
           | |- context [if ?b then _ else _] => destruct b
           | |- context [match JS.own ?o ?k with _ => _ end] => destruct (JS.own o k)
           end;
    cbn [fst]; intros H; inversion H.
Qed.

(** ** The interval parser *)

Section ParseFacts.

Lemma digit_char c :
  Str.is_digit c = true ->
  Say.is_space c = false
  /\ Ascii.eqb c "-" = false /\ Ascii.eqb c "+" = false
  /\ Ascii.eqb c "x" = false /\ Ascii.eqb c "X" = false
  /\ Ascii.eqb c ":" = false
  /\ Say.digit_of 10 c = Some (Z.of_nat (Str.code c - 48)).
Proof.
  destruct c as [b0 b1 b2 b3 b4 b5 b6 b7].
  destruct b0, b1, b2, b3, b4, b5, b6, b7;
    vm_compute; intros H; try discriminate H; repeat split; reflexivity.
Qed.

Lemma append_assoc (a b c : string) : (a ++ b) ++ c = a ++ (b ++ c).
Proof. induction a; simpl; congruence. Qed.

Lemma split_acc_prefix sep acc a rest :
  Str.all_chars (fun c => negb (Ascii.eqb c sep)) a = true ->
  Str.split_acc sep acc (a ++ rest) = Str.split_acc sep (acc ++ a) rest.
Proof.
  revert acc. induction a as [|c a IH]; simpl; intros acc H.
  - now rewrite append_empty_r.
  - apply andb_prop in H as [Hc Ha].
    apply negb_true_iff in Hc. rewrite Hc, IH by assumption.
    now rewrite append_assoc.
Qed.

Lemma digits_no_colon s :
  Str.all_chars Str.is_digit s = true ->
  Str.all_chars (fun c => negb (Ascii.eqb c ":")) s = true.
Proof.
  induction s as [|c s IH]; simpl; auto.
  intros H. apply andb_prop in H as [Hc Hs].
  apply digit_char in Hc as (_ & _ & _ & _ & _ & Hcolon & _).
  rewrite Hcolon. simpl. auto.
Qed.

Lemma is_digits_all s : Str.is_digits s = true -> Str.all_chars Str.is_digit s = true.
Proof. unfold Str.is_digits. intros H. now apply andb_prop in H. Qed.

(** Splitting at the colons. *)
Lemma split_one s :
  Str.is_digits s = true -> Str.split ":" s = [s].
Proof.
  intros H. unfold Str.split.
  rewrite <- (append_empty_r s) at 1.
  rewrite split_acc_prefix by now apply digits_no_colon, is_digits_all.
  reflexivity.
Qed.

Lemma split_cons a rest :
  Str.is_digits a = true ->
  Str.split ":" (a ++ ":" ++ rest) = a :: Str.split ":" rest.
Proof.
  intros H. unfold Str.split.
  rewrite split_acc_prefix by now apply digits_no_colon, is_digits_all.
  reflexivity.
Qed.

Lemma leading_digits_all a s :
  Str.all_chars Str.is_digit s = true ->
  Say.leading_digits 10 (Some a) s = Some (Str.digits_value_acc a s).
Proof.
  revert a. induction s as [|c s IH]; simpl; intros a H; auto.
  apply andb_prop in H as [Hc Hs].
  apply digit_char in Hc as (_ & _ & _ & _ & _ & _ & Hd).
  rewrite Hd. now apply IH.
Qed.

(** [parseInt] reads a string of digits as a decimal number. *)
Lemma parseInt_digits s :
  Str.is_digits s = true -> Say.parseInt s = Some (Str.digits_value s).
Proof.
  unfold Str.is_digits. intros H. apply andb_prop in H as [Hne Hall].
  destruct s as [|c s]; [discriminate|]. clear Hne.
  simpl in Hall. apply andb_prop in Hall as [Hc Hs].
  pose proof (digit_char c Hc) as (Hsp & Hminus & Hplus & _ & _ & _ & Hd).
  unfold Say.parseInt. cbn [Say.trim_start]. rewrite Hsp, Hminus, Hplus.
  assert (Hradix :
            (match String c s with
             | String c0 (String c1 rest) =>
                 if (Ascii.eqb c0 "0" && (Ascii.eqb c1 "x" || Ascii.eqb c1 "X"))%bool
                 then (16, rest) else (10, String c s)
             | _ => (10, String c s)
             end) = (10, String c s)).
  { destruct s as [|c1 s]; [reflexivity|].
    simpl in Hs. apply andb_prop in Hs as [Hc1 _].
    apply digit_char in Hc1 as (_ & _ & _ & Hx & HX & _).
    rewrite Hx, HX. now rewrite andb_false_r. }
  rewrite Hradix. cbn [Say.leading_digits]. rewrite Hd.
  rewrite leading_digits_all by assumption.
  unfold Str.digits_value. cbn [Str.digits_value_acc].
  now rewrite Z.mul_1_l.
Qed.

Lemma digits_value_acc_nonneg s a : 0 <= a -> 0 <= Str.digits_value_acc a s.
Proof.
  revert a. induction s as [|c s IH]; cbn [Str.digits_value_acc]; intros a H; auto.
  apply IH. lia.
Qed.

Lemma digits_value_nonneg s : 0 <= Str.digits_value s.
Proof. apply digits_value_acc_nonneg. lia. Qed.

Lemma valid_date t : 0 <= t <= Say.max_time -> Say.invalid_date t = false.
Proof.
  intros H. unfold Say.invalid_date. apply Z.ltb_ge. lia.
Qed.

Lemma all_chars_app P a b :
  Str.all_chars P a = true -> Str.all_chars P b = true -> Str.all_chars P (a ++ b) = true.
Proof.
  induction a as [|c a IH]; simpl; auto.
  intros H Hb. apply andb_prop in H as [Hc Ha]. rewrite Hc. simpl. auto.
Qed.

(** The pieces between the colons of a string of digits and colons are
    strings of digits, possibly empty. *)
Lemma split_acc_digits s : forall acc,
  Str.all_chars Str.is_digit acc = true ->
  Str.all_chars Say.digit_or_colon s = true ->
  Forall (fun piece => Str.all_chars Str.is_digit piece = true)
         (Str.split_acc ":" acc s).
Proof.
  induction s as [|c s IH]; cbn [Str.split_acc Str.all_chars]; intros acc Hacc Hs.
  - constructor; auto.
  - apply andb_prop in Hs as [Hc Hs]. unfold Say.digit_or_colon in Hc.
    destruct (Ascii.eqb c ":") eqn:E.
    + constructor; auto.
    + rewrite orb_false_r in Hc. apply IH; auto.
      apply all_chars_app; auto. simpl. now rewrite Hc.
Qed.

(** On a string of digits, [parseInt] gives NaN or a number that is not
    negative. *)
Lemma parseInt_digits_nonneg s :
  Str.all_chars Str.is_digit s = true ->
  match Say.parseInt s with
  | Some z => 0 <= z
  | None => True
  end.
Proof.
  intros H. destruct s as [|c s].
  - exact I.
  - rewrite parseInt_digits.
    + apply digits_value_nonneg.
    + unfold Str.is_digits. now rewrite H.
Qed.

Lemma truthy_part_value_nonneg p :
  Say.part_nonneg p -> 0 <= Say.part_value (Some p).
Proof. destruct p; simpl; auto; lia. Qed.

Lemma parseSeconds_nonneg epox s :
  Forall Say.part_nonneg (map Say.parseInt (Str.split ":" s)) ->
  0 <= Say.parseSeconds epox s.
Proof.
  intros H. unfold Say.parseSeconds.
  destruct (map Say.parseInt (Str.split ":" s)) as [|p1 [|p2 [|p3 [|p4 rest]]]].
  - cbn. lia.
  - inversion H as [|? ? H1 _]; subst.
    apply truthy_part_value_nonneg in H1.
    cbn [Say.truthy_part Say.part_value] in *.
    repeat match goal with
           | |- context [if ?b then _ else _] => destruct b
           end; lia.
  - inversion H as [|? ? H1 H']; subst. inversion H' as [|? ? H2 _]; subst.
    apply truthy_part_value_nonneg in H1, H2.
    cbn [Say.truthy_part Say.part_value] in *.
    repeat match goal with
           | |- context [if ?b then _ else _] => destruct b
           end; lia.
  - inversion H as [|? ? H1 H']; subst. inversion H' as [|? ? H2 H'']; subst.
    inversion H'' as [|? ? H3 _]; subst.
    apply truthy_part_value_nonneg in H1, H2, H3.
    cbn [Say.truthy_part Say.part_value] in *.
    repeat match goal with
           | |- context [if ?b then _ else _] => destruct b
           end; lia.
  - cbn. lia.
Qed.

(** A string that passes the interval pattern parses to a number of
    seconds that is not negative. *)
Lemma checked_interval_nonneg epox s :
  Regex.matches Say.interval_re s = true -> 0 <= Say.parseSeconds epox s.
Proof.
  intros H. apply parseSeconds_nonneg. apply Forall_map.
  apply interval_chars in H.
  pose proof (split_acc_digits s "" eq_refl H) as Hp.
  unfold Str.split. revert Hp. apply Forall_impl.
  intros piece. apply parseInt_digits_nonneg.
Qed.

End ParseFacts.

(** C4.  [parseSeconds] reads the colon-separated components from right
    to left as seconds, minutes and hours and returns the total in
    seconds, as long as the clock plus that total stays in the range of
    [Date]; with a clock after 1970 and well before that limit,
    [parseSeconds("2:5:30")] is 7530 and [parseSeconds("60:00")] is 3600. *)
Theorem parseSeconds_hms epox :
  0 <= epox <= Say.max_time - 7530 ->
  (forall s,
      Str.is_digits s = true ->
      epox + Str.digits_value s <= Say.max_time ->
      Say.parseSeconds epox s = Str.digits_value s)
  /\ (forall m s,
         Str.is_digits m = true -> Str.is_digits s = true ->
         epox + (Str.digits_value m * 60 + Str.digits_value s) <= Say.max_time ->
         Say.parseSeconds epox (m ++ ":" ++ s)
         = Str.digits_value m * 60 + Str.digits_value s)
  /\ (forall h m s,
         Str.is_digits h = true -> Str.is_digits m = true -> Str.is_digits s = true ->
         epox + (Str.digits_value h * 3600 + Str.digits_value m * 60 + Str.digits_value s)
         <= Say.max_time ->
         Say.parseSeconds epox (h ++ ":" ++ m ++ ":" ++ s)
         = Str.digits_value h * 3600 + Str.digits_value m * 60 + Str.digits_value s)
  /\ Say.parseSeconds epox "2:5:30" = 7530
  /\ Say.parseSeconds epox "60:00" = 3600.
Proof.
  intros Hclock.
  assert (H1 : forall s,
             Str.is_digits s = true ->
             epox + Str.digits_value s <= Say.max_time ->
             Say.parseSeconds epox s = Str.digits_value s).
  { intros s Hs Hr. pose proof (digits_value_nonneg s).
    unfold Say.parseSeconds. rewrite split_one by assumption.
    cbn [map]. rewrite parseInt_digits by assumption.
    cbn [Say.truthy_part Say.part_value andb orb].
    rewrite !orb_false_r.
    rewrite (valid_date (epox + _)) by lia. rewrite andb_false_r.
    destruct (Z.eqb_spec (Str.digits_value s) 0) as [E|E]; cbn [negb].
    - rewrite E. reflexivity.
    - rewrite valid_date by lia. lia. }
  assert (H2 : forall m s,
             Str.is_digits m = true -> Str.is_digits s = true ->
             epox + (Str.digits_value m * 60 + Str.digits_value s) <= Say.max_time ->
             Say.parseSeconds epox (m ++ ":" ++ s)
             = Str.digits_value m * 60 + Str.digits_value s).
  { intros m s Hm Hs Hr.
    pose proof (digits_value_nonneg m). pose proof (digits_value_nonneg s).
    unfold Say.parseSeconds.
    rewrite split_cons, split_one by assumption.
    cbn [map]. rewrite !parseInt_digits by assumption.
    cbn [Say.truthy_part Say.part_value andb orb].
    rewrite !orb_false_r.
    rewrite (valid_date (epox + Str.digits_value s)) by lia.
    rewrite (valid_date (epox + Str.digits_value m * 60)) by lia.
    rewrite !andb_false_r. cbn [orb].
    destruct (Z.eqb_spec (Str.digits_value s) 0) as [Es|Es];
      destruct (Z.eqb_spec (Str.digits_value m) 0) as [Em|Em]; cbn [negb];
      rewrite valid_date by lia; lia. }
  assert (H3 : forall h m s,
             Str.is_digits h = true -> Str.is_digits m = true ->
             Str.is_digits s = true ->
             epox + (Str.digits_value h * 3600 + Str.digits_value m * 60
                     + Str.digits_value s) <= Say.max_time ->
             Say.parseSeconds epox (h ++ ":" ++ m ++ ":" ++ s)
             = Str.digits_value h * 3600 + Str.digits_value m * 60
               + Str.digits_value s).
  { intros h m s Hh Hm Hs Hr.
    pose proof (digits_value_nonneg h).
    pose proof (digits_value_nonneg m). pose proof (digits_value_nonneg s).
    unfold Say.parseSeconds.
    rewrite !split_cons, split_one by assumption.
    cbn [map]. rewrite !parseInt_digits by assumption.
    cbn [Say.truthy_part Say.part_value andb orb].
    rewrite (valid_date (epox + Str.digits_value s)) by lia.
    rewrite (valid_date (epox + Str.digits_value m * 60)) by lia.
    rewrite (valid_date (epox + Str.digits_value h * 60 * 60)) by lia.
    rewrite !andb_false_r. cbn [orb].
    destruct (Z.eqb_spec (Str.digits_value s) 0) as [Es|Es];
      destruct (Z.eqb_spec (Str.digits_value m) 0) as [Em|Em];
      destruct (Z.eqb_spec (Str.digits_value h) 0) as [Eh|Eh]; cbn [negb];
      rewrite valid_date by lia; lia. }
  repeat split; auto.
  - change "2:5:30" with ("2" ++ ":" ++ "5" ++ ":" ++ "30").
    rewrite H3; try reflexivity.
    change (Str.digits_value "2") with 2. change (Str.digits_value "5") with 5.
    change (Str.digits_value "30") with 30. lia.
  - change "60:00" with ("60" ++ ":" ++ "00").
    rewrite H2; try reflexivity.
    change (Str.digits_value "60") with 60. change (Str.digits_value "00") with 0.
    lia.
Qed.

Lemma parseSeconds_hms_witness :
  0 <= 1700000000000 <= Say.max_time - 7530
  /\ Say.parseSeconds 1700000000000 "2:5:30" = 7530
  /\ Say.parseSeconds 1700000000000 "60:00" = 3600.
Proof.
  assert (Hclock : 0 <= 1700000000000 <= Say.max_time - 7530).
  { split; discriminate. }
  split; [exact Hclock|].
  exact (proj2 (proj2 (proj2 (parseSeconds_hms 1700000000000 Hclock)))).
Defined.

(** ** Renaming a task *)

Section Rename.
Variables (taskName : name_arg) (new : string).
Variables (props : list (string * json)) (others : list json).
Variables (record : json).
Variables (indent : nat) (tr : list event).

Let old : string := Say.name_key taskName.
Let doc : json := JArr (JObj props :: others).
Let w : world := {| db_file := Document doc indent; trace := tr |}.
Let props' : list (string * json) := JS.delete (JS.set props new record) old.

Hypothesis Hvalid : Regex.matches Say.taskList (stringify doc) = true.
Hypothesis Hold : JS.own props old = Some record.
Hypothesis Htruthy : JS.truthy (JS.VJson record) = true.
Hypothesis Hdiff : new <> old.

(** What [updateTaskList] does with the patch [{named: new}]. *)
Lemma rename_step :
  Say.updateTaskList taskName Modify [("named", JStr new)] w
  = (Str ("Task " ++ old ++ " successfully modified."),
     write_file (JArr [JObj props']) 4 w).
Proof.
  unfold Say.updateTaskList, Say.updateTaskList_try, Say.validateJSON. subst w.
  cbn [db_file read_store bind].
  rewrite Hvalid. subst doc. cbn [bind negb Say.first_of].
  fold old. unfold JS.get. rewrite own_of_json, Hold. cbn [option_map].
  rewrite Htruthy. cbn [negb].
  replace (JS.own [("named", JStr new)] "named") with (Some (JStr new))
    by reflexivity.
  assert (Hneq : Say.strict_neq taskName (JStr new) = true).
  { subst old. destruct taskName as [s|items]; cbn in *; [|reflexivity].
    apply negb_true_iff, String.eqb_neq. congruence. }
  rewrite Hneq. cbn [Say.to_display].
  rewrite of_json_set, of_json_delete, to_json_of_json.
  reflexivity.
Qed.

Lemma rename_old_gone : JS.own props' old = None.
Proof. apply own_delete_same. Qed.

Lemma rename_others_kept k : k <> new -> k <> old -> JS.own props' k = JS.own props k.
Proof.
  intros Hn Ho. subst props'.
  rewrite own_delete_other by assumption. now apply own_set_other.
Qed.

Lemma rename_new_holds_record :
  new <> "__proto__" \/ JS.own props new <> None ->
  JS.own props' new = Some record.
Proof.
  intros H. subst props'.
  rewrite own_delete_other by assumption.
  apply own_set_same. tauto.
Qed.

(** When the target name is taken, the mapping loses one entry. *)
Lemma rename_onto_existing_count other :
  NoDup (JS.keys props) -> JS.own props new = Some other ->
  S (List.length props') = List.length props.
Proof.
  intros Hnd Hnew. subst props'. unfold JS.set. rewrite Hnew.
  rewrite <- (length_replace props new record).
  apply length_delete_present with (v := record).
  - now rewrite keys_replace.
  - rewrite own_replace_other by congruence. exact Hold.
Qed.

End Rename.

(** The command [modify old named new], once the new name has passed the
    field validator, is this operation of the task store; the task name
    arrives as the one-element array that [splice] returned. *)
Lemma exec_rename_command e context old new w :
  Regex.matches Say.name_re new = true ->
  Say.exec e context ["modify"; old; "named"; new] w
  = Say.updateTaskList (NameArr [old]) Modify [("named", JStr new)] w.
Proof.
  intros Hname. unfold Say.exec, Say.modifyTask.
  cbn [Str.join nth_error skipn firstn List.length Nat.eqb andb orb negb
       Say.is_word Say.includes existsb String.eqb Ascii.eqb Bool.eqb append].
  cbn [Say.checkRegexNotMatch String.eqb Ascii.eqb Bool.eqb].
  now rewrite Hname.
Qed.

(** Where the rename does move the record.  On a valid store, a modify
    with a rename directive to a name that differs from the old one (and
    is not [__proto__], unless the mapping has an own property of that
    name) moves the record of an existing task: the new key holds the
    very record the old key held, the old key is gone, every other key is
    as before, and the result is written. *)
Theorem rename_moves_record taskName new props others record indent tr :
  Regex.matches Say.taskList (stringify (JArr (JObj props :: others))) = true ->
  JS.own props (Say.name_key taskName) = Some record ->
  JS.truthy (JS.VJson record) = true ->
  new <> Say.name_key taskName ->
  new <> "__proto__" \/ JS.own props new <> None ->
  exists props',
    Say.updateTaskList taskName Modify [("named", JStr new)]
      {| db_file := Document (JArr (JObj props :: others)) indent; trace := tr |}
    = (Str ("Task " ++ Say.name_key taskName ++ " successfully modified."),
       {| db_file := Document (JArr [JObj props']) 4;
          trace := tr ++ [FileWritten (JArr [JObj props']) 4] |})
    /\ JS.own props' new = Some record
    /\ JS.own props' (Say.name_key taskName) = None
    /\ (forall k, k <> new -> k <> Say.name_key taskName ->
                  JS.own props' k = JS.own props k).
Proof.
  intros Hvalid Hold Htruthy Hdiff Hproto.
  exists (JS.delete (JS.set props new record) (Say.name_key taskName)).
  split; [|split; [|split]].
  - now apply rename_step.
  - now apply rename_new_holds_record.
  - apply rename_old_gone.
  - intros k. apply rename_others_kept.
Qed.

Lemma rename_moves_record_witness :
  exists props',
    Say.updateTaskList (NameArr ["bot-task"]) Modify [("named", JStr "night-task")]
      (Sample.fresh Sample.two_tasks)
    = (Str "Task bot-task successfully modified.",
       {| db_file := Document (JArr [JObj props']) 4;
          trace := [FileWritten (JArr [JObj props']) 4] |})
    /\ JS.own props' "night-task" = Some Sample.bot_task
    /\ JS.own props' "bot-task" = None
    /\ (forall k, k <> "night-task" -> k <> "bot-task" ->
                  JS.own props' k
                  = JS.own [("bot-task", Sample.bot_task);
                            ("greeter", Sample.other_task)] k).
Proof.
  apply (rename_moves_record (NameArr ["bot-task"]) "night-task"
           [("bot-task", Sample.bot_task); ("greeter", Sample.other_task)] []
           Sample.bot_task 4 []).
  - vm_compute. reflexivity.
  - reflexivity.
  - reflexivity.
  - intros H. vm_compute in H. discriminate H.
  - left. intros H. discriminate H.
Defined.

(** C6.  A rename is to move the record to the new key with its fields
    unchanged, and [updateTaskList] guards the move by comparing the task
    name with the new name ([taskName !== named]), so that a rename to
    the name the task already has would touch nothing.  [modifyTask]
    passes the task name as a one-element array, for which the guard
    always holds: on the store that holds [bot-task], the command
    [modify bot-task named bot-task] is confirmed, the record is assigned
    onto itself and then deleted, and the mapping is written empty.  The
    record is lost instead of kept. *)
Lemma rename_to_same_name_loses_record :
  Say.exec Sample.env0 "" ["modify"; "bot-task"; "named"; "bot-task"]
    (Sample.fresh Sample.one_task)
  = (Str "Task bot-task successfully modified.",
     {| db_file := Document (JArr [JObj []]) 4;
        trace := [FileWritten (JArr [JObj []]) 4] |})
  /\ JS.own (@nil (string * json)) "bot-task" = None.
Proof. split; vm_compute; reflexivity. Qed.

(** C9.  Renaming a task to the name of another task of a valid store
    replaces that task's record by the renamed one and reports success:
    the target name is not checked for a conflict, and the mapping ends
    with one entry less. *)
Theorem rename_onto_existing_overwrites
        taskName new props others record other indent tr :
  Regex.matches Say.taskList (stringify (JArr (JObj props :: others))) = true ->
  NoDup (JS.keys props) ->
  JS.own props (Say.name_key taskName) = Some record ->
  JS.truthy (JS.VJson record) = true ->
  JS.own props new = Some other ->
  new <> Say.name_key taskName ->
  exists props',
    Say.updateTaskList taskName Modify [("named", JStr new)]
      {| db_file := Document (JArr (JObj props :: others)) indent; trace := tr |}
    = (Str ("Task " ++ Say.name_key taskName ++ " successfully modified."),
       {| db_file := Document (JArr [JObj props']) 4;
          trace := tr ++ [FileWritten (JArr [JObj props']) 4] |})
    /\ JS.own props' new = Some record
    /\ JS.own props' (Say.name_key taskName) = None
    /\ S (List.length props') = List.length props.
Proof.
  intros Hvalid Hnd Hold Htruthy Hnew Hdiff.
  exists (JS.delete (JS.set props new record) (Say.name_key taskName)).
  split; [|split; [|split]].
  - now apply rename_step.
  - apply rename_new_holds_record; auto. right. congruence.
  - apply rename_old_gone.
  - now apply rename_onto_existing_count with (other := other).
Qed.

Lemma rename_onto_existing_overwrites_witness :
  exists props',
    Say.updateTaskList (NameArr ["bot-task"]) Modify [("named", JStr "greeter")]
      (Sample.fresh Sample.two_tasks)
    = (Str "Task bot-task successfully modified.",
       {| db_file := Document (JArr [JObj props']) 4;
          trace := [FileWritten (JArr [JObj props']) 4] |})
    /\ JS.own props' "greeter" = Some Sample.bot_task
    /\ JS.own props' "bot-task" = None
    /\ S (List.length props') = 2%nat.
Proof.
  apply (rename_onto_existing_overwrites (NameArr ["bot-task"]) "greeter"
           [("bot-task", Sample.bot_task); ("greeter", Sample.other_task)] []
           Sample.bot_task Sample.other_task 4 []).
  - vm_compute. reflexivity.
  - repeat constructor; simpl; intuition discriminate.
  - reflexivity.
  - reflexivity.
  - reflexivity.
  - intros H. vm_compute in H. discriminate H.
Defined.

(** ** Creating a task *)

(** On a valid store, creating a task under a name that is taken answers
    with the conflict message and leaves the file alone: nothing is
    written. *)
Theorem create_existing_refused name newTask props others record indent tr :
  Regex.matches Say.taskList (stringify (JArr (JObj props :: others))) = true ->
  JS.own props name = Some record ->
  JS.truthy (JS.VJson record) = true ->
  Say.updateTaskList (NameStr name) Create newTask
    {| db_file := Document (JArr (JObj props :: others)) indent; trace := tr |}
  = (Str ("Task with name '" ++ name ++ "' already exists."),
     {| db_file := Document (JArr (JObj props :: others)) indent; trace := tr |}).
Proof.
  intros Hvalid Hown Htruthy.
  unfold Say.updateTaskList, Say.updateTaskList_try, Say.validateJSON.
  cbn [db_file read_store bind].
  rewrite Hvalid. cbn [bind negb Say.first_of Say.name_key].
  unfold JS.get. rewrite own_of_json, Hown. cbn [option_map].
  now rewrite Htruthy.
Qed.

Lemma create_existing_refused_witness :
  Say.updateTaskList (NameStr "bot-task") Create
    [("totalWaitInterval", JNum 5); ("channel", JStr "chan"); ("taskMessage", JStr "hi")]
    (Sample.fresh Sample.one_task)
  = (Str "Task with name 'bot-task' already exists.", Sample.fresh Sample.one_task).
Proof.
  apply (create_existing_refused "bot-task" _ [("bot-task", Sample.bot_task)] []
           Sample.bot_task 4 []).
  - vm_compute. reflexivity.
  - reflexivity.
  - reflexivity.
Defined.

(** On a valid store, creating a task under a name that is free, and that
    [Object.prototype] does not provide, adds the task under that name,
    keeps every other entry, writes the mapping and answers with the name
    and the channel. *)
Theorem create_fresh_inserted name newTask props others indent tr :
  Regex.matches Say.taskList (stringify (JArr (JObj props :: others))) = true ->
  JS.own props name = None ->
  JS.inherited name = JS.VUndefined ->
  exists props',
    Say.updateTaskList (NameStr name) Create newTask
      {| db_file := Document (JArr (JObj props :: others)) indent; trace := tr |}
    = (Str ("Task " ++ name ++ " activated on channel "
                    ++ Say.channel_text newTask ++ "."),
       {| db_file := Document (JArr [JObj props']) 4;
          trace := tr ++ [FileWritten (JArr [JObj props']) 4] |})
    /\ JS.own props' name = Some (JObj newTask)
    /\ (forall k, k <> name -> JS.own props' k = JS.own props k).
Proof.
  intros Hvalid Hown Hinh. exists (JS.set props name (JObj newTask)).
  split; [|split].
  - unfold Say.updateTaskList, Say.updateTaskList_try, Say.validateJSON.
  cbn [db_file read_store bind].
    rewrite Hvalid. cbn [bind negb Say.first_of Say.name_key].
    unfold JS.get. rewrite own_of_json, Hown. cbn [option_map].
    rewrite Hinh. cbn [JS.truthy].
    now rewrite of_json_set, to_json_of_json.
  - apply own_set_same. right. intros E. subst name. discriminate Hinh.
  - intros k Hk. now apply own_set_other.
Qed.

Lemma create_fresh_inserted_witness :
  exists props',
    Say.updateTaskList (NameStr "greeter") Create
      [("totalWaitInterval", JNum 60); ("channel", JStr "lobby");
       ("taskMessage", JStr "hello")]
      (Sample.fresh Sample.one_task)
    = (Str "Task greeter activated on channel lobby.",
       {| db_file := Document (JArr [JObj props']) 4;
          trace := [FileWritten (JArr [JObj props']) 4] |})
    /\ JS.own props' "greeter" = Some Sample.other_task
    /\ (forall k, k <> "greeter" ->
                  JS.own props' k = JS.own [("bot-task", Sample.bot_task)] k).
Proof.
  apply (create_fresh_inserted "greeter"
           [("totalWaitInterval", JNum 60); ("channel", JStr "lobby");
            ("taskMessage", JStr "hello")]
           [("bot-task", Sample.bot_task)] [] 4 []).
  - vm_compute. reflexivity.
  - reflexivity.
  - reflexivity.
Defined.

(** C5 at a name that every object inherits from [Object.prototype]: the
    store is empty, the name passes the field validator, and yet the
    create command answers that the task exists and writes nothing. *)
Lemma create_inherited_name_refused :
  JS.own (@nil (string * json)) "constructor" = None
  /\ Say.checkRegexNotMatch [("every", "5"); ("on", "chan"); ("named", "constructor")]
     = None
  /\ Say.exec Sample.env0 ""
       ["hello"; "every"; "5"; "on"; "chan"; "named"; "constructor"]
       {| db_file := Document empty_doc 2; trace := [] |}
     = (Str "Task with name 'constructor' already exists.",
        {| db_file := Document empty_doc 2; trace := [ParseSecondsCalled "5"] |}).
Proof. repeat split; vm_compute; reflexivity. Qed.

(** ** Deleting a task *)

(** On a valid store, deleting an existing task removes that key and no
    other, writes the mapping and answers with a confirmation. *)
Theorem delete_removes_only_that_key
        taskName updatedTask props others record indent tr :
  Regex.matches Say.taskList (stringify (JArr (JObj props :: others))) = true ->
  JS.own props (Say.name_key taskName) = Some record ->
  JS.truthy (JS.VJson record) = true ->
  exists props',
    Say.updateTaskList taskName Delete updatedTask
      {| db_file := Document (JArr (JObj props :: others)) indent; trace := tr |}
    = (Str ("Task " ++ Say.name_key taskName ++ " successfully removed."),
       {| db_file := Document (JArr [JObj props']) 4;
          trace := tr ++ [FileWritten (JArr [JObj props']) 4] |})
    /\ JS.own props' (Say.name_key taskName) = None
    /\ (forall k, k <> Say.name_key taskName -> JS.own props' k = JS.own props k).
Proof.
  intros Hvalid Hown Htruthy. exists (JS.delete props (Say.name_key taskName)).
  split; [|split].
  - unfold Say.updateTaskList, Say.updateTaskList_try, Say.validateJSON.
  cbn [db_file read_store bind].
    rewrite Hvalid. cbn [bind negb Say.first_of].
    unfold JS.get. rewrite own_of_json, Hown. cbn [option_map].
    rewrite Htruthy. cbn [negb].
    now rewrite of_json_delete, to_json_of_json.
  - apply own_delete_same.
  - intros k Hk. now apply own_delete_other.
Qed.

Lemma delete_removes_only_that_key_witness :
  exists props',
    Say.updateTaskList (NameArr ["bot-task"]) Delete [] (Sample.fresh Sample.two_tasks)
    = (Str "Task bot-task successfully removed.",
       {| db_file := Document (JArr [JObj props']) 4;
          trace := [FileWritten (JArr [JObj props']) 4] |})
    /\ JS.own props' "bot-task" = None
    /\ (forall k, k <> "bot-task" ->
                  JS.own props' k
                  = JS.own [("bot-task", Sample.bot_task);
                            ("greeter", Sample.other_task)] k).
Proof.
  apply (delete_removes_only_that_key (NameArr ["bot-task"]) []
           [("bot-task", Sample.bot_task); ("greeter", Sample.other_task)] []
           Sample.bot_task 4 []).
  - vm_compute. reflexivity.
  - reflexivity.
  - reflexivity.
Defined.

(** On a valid store, deleting a name that is neither a key of the mapping
    nor provided by [Object.prototype] answers that the task does not
    exist and writes nothing. *)
Theorem delete_absent_refused taskName updatedTask props others indent tr :
  Regex.matches Say.taskList (stringify (JArr (JObj props :: others))) = true ->
  JS.own props (Say.name_key taskName) = None ->
  JS.inherited (Say.name_key taskName) = JS.VUndefined ->
  Say.updateTaskList taskName Delete updatedTask
    {| db_file := Document (JArr (JObj props :: others)) indent; trace := tr |}
  = (Str ("The task '" ++ Say.name_key taskName ++ "' does not exists."),
     {| db_file := Document (JArr (JObj props :: others)) indent; trace := tr |}).
Proof.
  intros Hvalid Hown Hinh.
  unfold Say.updateTaskList, Say.updateTaskList_try, Say.validateJSON.
  cbn [db_file read_store bind].
  rewrite Hvalid. cbn [bind negb Say.first_of].
  unfold JS.get. rewrite own_of_json, Hown. cbn [option_map].
  now rewrite Hinh.
Qed.

Lemma delete_absent_refused_witness :
  Say.updateTaskList (NameArr ["greeter"]) Delete [] (Sample.fresh Sample.one_task)
  = (Str "The task 'greeter' does not exists.", Sample.fresh Sample.one_task).
Proof.
  apply (delete_absent_refused (NameArr ["greeter"]) []
           [("bot-task", Sample.bot_task)] [] 4 []).
  - vm_compute. reflexivity.
  - reflexivity.
  - reflexivity.
Defined.

(** The scenario of the specification: create [bot-task], change its
    channel, delete it; the store ends with the empty mapping. *)
Lemma create_modify_delete_scenario :
  let w0 := {| db_file := Document empty_doc 2; trace := [] |} in
  let r1 := Say.exec Sample.env0 ""
              ["my"; "repeat"; "message"; "every"; "2:5:30"; "on"; "pogTV";
               "named"; "bot-task"] w0 in
  let r2 := Say.exec Sample.env0 "" ["modify"; "bot-task"; "on"; "newchan"] (snd r1) in
  let r3 := Say.exec Sample.env0 "" ["modify"; "bot-task"; "delete"] (snd r2) in
  fst r1 = Str "Task bot-task activated on channel pogtv."
  /\ db_file (snd r1) = Document Sample.one_task 4
  /\ fst r2 = Str "Task bot-task successfully modified."
  /\ fst r3 = Str "Task bot-task successfully removed."
  /\ db_file (snd r3) = Document (JArr [JObj []]) 4.
Proof. repeat split; vm_compute; reflexivity. Qed.

(** ** The events of a command *)

(** [updateTaskList] leaves the trace as it is or adds one write. *)
Lemma updateTaskList_trace taskName type updatedTask w :
  trace (snd (Say.updateTaskList taskName type updatedTask w)) = trace w
  \/ exists doc indent,
      trace (snd (Say.updateTaskList taskName type updatedTask w))
      = (trace w ++ [FileWritten doc indent])%list.
Proof.
  unfold Say.updateTaskList, Say.updateTaskList_try.
  destruct (db_file w) as [| text | JSONfile ind]; cbn [read_store bind]; auto.
  destruct (Say.validateJSON JSONfile _) as [err | [|]]; cbn [bind negb]; auto.
  destruct (Say.first_of JSONfile) as [err | [[| b | z | s | items | props] | | |]];
    cbn [bind]; auto.
  destruct type;
    repeat match goal with
           | |- context [if ?b then _ else _] => destruct b
           | |- context [match JS.own ?o ?k with _ => _ end] => destruct (JS.own o k)
           end;
    cbn [snd trace write_file]; eauto.
Qed.

Lemma updateTaskList_calls taskName type updatedTask w arg :
  In (ParseSecondsCalled arg)
     (trace (snd (Say.updateTaskList taskName type updatedTask w))) ->
  In (ParseSecondsCalled arg) (trace w).
Proof.
  destruct (updateTaskList_trace taskName type updatedTask w) as [E | (doc & ind & E)];
    rewrite E; auto.
  intros H. apply in_app_or in H as [H | [H | []]]; [assumption | discriminate H].
Qed.

(** ** The arguments of [parseSeconds] *)

(** When the field validator lets an [every] field pass, the field
    matches the interval pattern. *)
Lemma checkRegexNotMatch_every v rest :
  Say.checkRegexNotMatch (("every", v) :: rest) = None ->
  Regex.matches Say.interval_re v = true.
Proof.
  cbn [Say.checkRegexNotMatch String.eqb Ascii.eqb Bool.eqb andb].
  destruct (Regex.matches Say.interval_re v); [reflexivity | discriminate].
Qed.

(** Closes a branch of [exec] that does not call [parseSeconds]. *)
Ltac no_new_call H :=
  first [ left; exact H
        | apply updateTaskList_calls in H; left; exact H ].

Lemma call_then_update e v w taskName type patch arg :
  Regex.matches Say.interval_re v = true ->
  In (ParseSecondsCalled arg)
     (trace (snd (let '(seconds, w1) := Say.call_parseSeconds e v w in
                  Say.updateTaskList taskName type (patch seconds) w1))) ->
  In (ParseSecondsCalled arg) (trace w) \/ Regex.matches Say.interval_re arg = true.
Proof.
  intros Hv H. unfold Say.call_parseSeconds in H.
  apply updateTaskList_calls in H. cbn [trace] in H.
  apply in_app_or in H as [H | [H | []]]; [now left|].
  inversion H. subst. now right.
Qed.

(** Except for a modify command with more than one word after [every],
    every string that [exec] passes to [parseSeconds] matches the
    interval pattern. *)
Theorem parseSeconds_argument_checked e context request w arg :
  (forall name v1 v2 rest, request <> "modify" :: name :: "every" :: v1 :: v2 :: rest) ->
  In (ParseSecondsCalled arg) (trace (snd (Say.exec e context request w))) ->
  In (ParseSecondsCalled arg) (trace w) \/ Regex.matches Say.interval_re arg = true.
Proof.
  intros Hshape Hin. unfold Say.exec in Hin.
  destruct (String.eqb (Str.join " " request) "clear task list").
  { cbn in Hin. apply in_app_or in Hin as [H|[H|[]]]; [auto|discriminate]. }
  destruct (Say.is_word (nth_error request 0) "modify") eqn:Hm.
  - destruct request as [|r0 request]; [discriminate|].
    cbn in Hm. apply String.eqb_eq in Hm. subst r0.
    cbn [skipn] in Hin. unfold Say.modifyTask in Hin.
    destruct request as [|name [|type [|v1 [|v2 rest]]]];
      cbn -[Say.updateTaskList String.eqb Say.checkRegexNotMatch Say.call_parseSeconds
            Str.join] in Hin.
    + no_new_call Hin.
    + no_new_call Hin.
    + destruct (_ || _); no_new_call Hin.
    + destruct (negb _); [no_new_call Hin|].
      destruct (String.eqb type "say") eqn:Es; cbn [negb andb] in Hin;
        [no_new_call Hin|].
      destruct (Say.checkRegexNotMatch [(type, v1)]) eqn:C; [no_new_call Hin|].
      destruct (String.eqb type "every") eqn:Ee.
      * apply String.eqb_eq in Ee. subst type.
        apply checkRegexNotMatch_every in C.
        now apply call_then_update with (1 := C) in Hin.
      * destruct (String.eqb type "on"); [no_new_call Hin|].
        destruct (String.eqb type "named"); no_new_call Hin.
    + destruct (negb _); [no_new_call Hin|].
      rewrite andb_false_r in Hin.
      destruct (String.eqb type "say") eqn:Es; [no_new_call Hin|].
      destruct (String.eqb type "every") eqn:Ee.
      * apply String.eqb_eq in Ee. subst type.
        exfalso. now apply (Hshape name v1 v2 rest).
      * destruct (String.eqb type "on"); [no_new_call Hin|].
        destruct (String.eqb type "named"); no_new_call Hin.
  - destruct (_ || _); [no_new_call Hin|].
    destruct (skipn _ request) as [|m0 [|every [|m2 [|on [|m4 [|taskName [|]]]]]]];
      try no_new_call Hin.
    destruct (Say.checkRegexNotMatch _) eqn:C; [no_new_call Hin|].
    apply checkRegexNotMatch_every in C.
    unfold Say.call_parseSeconds in Hin.
    destruct (_ =? 0).
    + cbn [snd trace] in Hin.
      apply in_app_or in Hin as [H | [H | []]]; [now left|].
      inversion H. subst. now right.
    + apply updateTaskList_calls in Hin. cbn [trace] in Hin.
      apply in_app_or in Hin as [H | [H | []]]; [now left|].
      inversion H. subst. now right.
Qed.

Lemma parseSeconds_argument_checked_witness :
  In (ParseSecondsCalled "1:30") (trace (Sample.fresh Sample.one_task))
  \/ Regex.matches Say.interval_re "1:30" = true.
Proof.
  apply (parseSeconds_argument_checked Sample.env0 ""
           ["modify"; "bot-task"; "every"; "1:30"] (Sample.fresh Sample.one_task) "1:30").
  - intros name v1 v2 rest H. discriminate H.
  - vm_compute. left. reflexivity.
Defined.

(** ** The create command *)




(** The usage test of [exec] lets a command through only when [splice]
    has cut off six words. *)
Lemma meta_has_six_words (request : list string) :
  let cut := Say.splice_start (Z.of_nat (List.length request))
                              (Z.of_nat (List.length request) - 6) in
  let meta := skipn cut request in
  (List.length (firstn cut request) =? 0)%nat = false ->
  Say.at_index meta (Z.of_nat (List.length meta) - 4) <> None ->
  List.length meta = 6%nat.
Proof.
  intros cut meta Hrest Hon.
  apply Nat.eqb_neq in Hrest. rewrite length_firstn in Hrest.
  unfold Say.at_index in Hon.
  destruct (Z.ltb_spec (Z.of_nat (List.length meta) - 4) 0) as [Hneg|Hpos];
    [congruence|].
  subst meta. rewrite length_skipn in *.
  subst cut. unfold Say.splice_start in *.
  destruct (Z.ltb_spec (Z.of_nat (List.length request) - 6) 0); lia.
Qed.




(** ** Changing a field *)

Section Merge.
Context {A : Type}.
Implicit Types (o : list (string * A)) (k : string).

Lemma own_app o1 o2 k :
  JS.own (o1 ++ o2) k
  = match JS.own o1 k with
    | Some v => Some v
    | None => JS.own o2 k
    end.
Proof.
  induction o1 as [|[k' v'] rest IH]; simpl; auto.
  destruct (String.eqb k k'); auto.
Qed.

Lemma own_absent o k : ~ In k (JS.keys o) -> JS.own o k = None.
Proof.
  induction o as [|[k' v'] rest IH]; simpl; intros H; auto.
  destruct (String.eqb_spec k k') as [E|E]; [subst; tauto|].
  apply IH. tauto.
Qed.

(** Without repeated keys the last property of a name is the first. *)
Lemma own_rev o k : NoDup (JS.keys o) -> JS.own (rev o) k = JS.own o k.
Proof.
  induction o as [|[k' v'] rest IH]; simpl; intros Hnd; auto.
  inversion Hnd as [|? ? Hnotin Hnd']; subst.
  rewrite own_app, IH by assumption. simpl.
  destruct (String.eqb_spec k k') as [E|E].
  - subst. now rewrite own_absent.
  - now destruct (JS.own rest k).
Qed.

(** Defining properties one after the other: the last definition of a
    name wins. *)
Lemma own_fold_define (l : list (string * A)) : forall acc k,
  JS.own (fold_left (fun acc kv => JS.define acc (fst kv) (snd kv)) l acc) k
  = match JS.own (rev l) k with
    | Some v => Some v
    | None => JS.own acc k
    end.
Proof.
  induction l as [|[k' v'] rest IH]; intros acc k; cbn [fold_left rev fst snd]; auto.
  rewrite IH, own_app. destruct (JS.own (rev rest) k); auto.
  simpl. destruct (String.eqb_spec k k') as [E|E].
  - subst. apply own_define_same.
  - now apply own_define_other.
Qed.

End Merge.

(** [{...fields, [k]: v}] holds [v] under [k] and is [fields] elsewhere. *)
Lemma merge_single fields k v :
  NoDup (JS.keys fields) ->
  JS.own (JS.merge fields [(k, v)]) k = Some v
  /\ (forall k', k' <> k -> JS.own (JS.merge fields [(k, v)]) k' = JS.own fields k').
Proof.
  intros Hnd. unfold JS.merge. split.
  - rewrite own_fold_define, rev_app_distr. simpl. now rewrite String.eqb_refl.
  - intros k' Hk. rewrite own_fold_define, rev_app_distr. simpl.
    apply String.eqb_neq in Hk. rewrite Hk.
    rewrite own_rev by assumption. now destruct (JS.own fields k').
Qed.

(** On a valid store, a modify whose patch sets one field other than the
    name replaces the record of an existing task by the record with that
    field changed and all other fields as they were; every other entry is
    kept, and the mapping is written. *)
Theorem modify_changes_one_field
        taskName field v props others fields indent tr :
  Regex.matches Say.taskList (stringify (JArr (JObj props :: others))) = true ->
  JS.own props (Say.name_key taskName) = Some (JObj fields) ->
  NoDup (JS.keys fields) ->
  field <> "named" ->
  exists props' fields',
    Say.updateTaskList taskName Modify [(field, v)]
      {| db_file := Document (JArr (JObj props :: others)) indent; trace := tr |}
    = (Str ("Task " ++ Say.name_key taskName ++ " successfully modified."),
       {| db_file := Document (JArr [JObj props']) 4;
          trace := tr ++ [FileWritten (JArr [JObj props']) 4] |})
    /\ JS.own props' (Say.name_key taskName) = Some (JObj fields')
    /\ JS.own fields' field = Some v
    /\ (forall f, f <> field -> JS.own fields' f = JS.own fields f)
    /\ (forall k, k <> Say.name_key taskName -> JS.own props' k = JS.own props k).
Proof.
  intros Hvalid Hown Hnd Hfield.
  exists (JS.set props (Say.name_key taskName) (JObj (JS.merge fields [(field, v)]))).
  exists (JS.merge fields [(field, v)]).
  destruct (merge_single fields field v Hnd) as [Hm1 Hm2].
  split; [|split; [|split; [|split]]]; auto.
  - unfold Say.updateTaskList, Say.updateTaskList_try, Say.validateJSON.
  cbn [db_file read_store bind].
    rewrite Hvalid. cbn [bind negb Say.first_of].
    unfold JS.get. rewrite own_of_json, Hown. cbn [option_map JS.truthy negb].
    assert (En : String.eqb "named" field = false).
    { apply String.eqb_neq. congruence. }
    cbn [JS.own]. rewrite En. cbn [JS.spread].
    now rewrite of_json_set, to_json_of_json.
  - apply own_set_same. left. congruence.
  - intros k Hk. now apply own_set_other.
Qed.

Lemma modify_changes_one_field_witness :
  exists props' fields',
    Say.updateTaskList (NameArr ["bot-task"]) Modify [("channel", JStr "newchan")]
      (Sample.fresh Sample.two_tasks)
    = (Str "Task bot-task successfully modified.",
       {| db_file := Document (JArr [JObj props']) 4;
          trace := [FileWritten (JArr [JObj props']) 4] |})
    /\ JS.own props' "bot-task" = Some (JObj fields')
    /\ JS.own fields' "channel" = Some (JStr "newchan")
    /\ (forall f, f <> "channel" ->
                  JS.own fields' f
                  = JS.own [ ("totalWaitInterval", JNum 7530);
                             ("channel", JStr "pogtv");
                             ("taskMessage", JStr "my repeat message") ] f)
    /\ (forall k, k <> "bot-task" ->
                  JS.own props' k
                  = JS.own [("bot-task", Sample.bot_task);
                            ("greeter", Sample.other_task)] k).
Proof.
  apply (modify_changes_one_field (NameArr ["bot-task"]) "channel" (JStr "newchan")
           [("bot-task", Sample.bot_task); ("greeter", Sample.other_task)] []
           [ ("totalWaitInterval", JNum 7530); ("channel", JStr "pogtv");
             ("taskMessage", JStr "my repeat message") ] 4 []).
  - vm_compute. reflexivity.
  - reflexivity.
  - repeat constructor; simpl; intuition discriminate.
  - discriminate.
Defined.

(** ** The modify command and the interval *)

(** C2 at a modify command with two words after [every]: the field
    validator is skipped and [parseSeconds] receives a string that does not
    match the interval pattern. *)
Lemma modify_every_unchecked_interval :
  Regex.matches Say.interval_re "x" = false
  /\ trace (snd (Say.exec Sample.env0 "" ["modify"; "bot-task"; "every"; "x"; "y"]
                   (Sample.fresh Sample.one_task)))
     = [ ParseSecondsCalled "x";
         FileWritten
           (JArr [JObj [("bot-task",
                         JObj [ ("totalWaitInterval", JNum 0);
                                ("channel", JStr "pogtv");
                                ("taskMessage", JStr "my repeat message") ])]]) 4 ].
Proof. split; vm_compute; reflexivity. Qed.

(** C3 at the command [modify bot-task every 0]: the interval passes the
    field validator, [parseSeconds] returns 0, and the task is stored with
    a [totalWaitInterval] of 0. *)
Lemma modify_every_zero_stored :
  Say.checkRegexNotMatch [("every", "0")] = None
  /\ Say.parseSeconds (now Sample.env0) "0" = 0
  /\ Say.exec Sample.env0 "" ["modify"; "bot-task"; "every"; "0"]
       (Sample.fresh Sample.one_task)
     = (Str "Task bot-task successfully modified.",
        let stored :=
          JArr [JObj [("bot-task",
                       JObj [ ("totalWaitInterval", JNum 0);
                              ("channel", JStr "pogtv");
                              ("taskMessage", JStr "my repeat message") ])]] in
        {| db_file := Document stored 4;
           trace := [ParseSecondsCalled "0"; FileWritten stored 4] |}).
Proof. repeat split; vm_compute; reflexivity. Qed.

(** ** What [exec] returns *)





(** C8 at a store file that is missing, that does not parse, or that
    holds a document that is not a sequence: the delete, the modify and the
    create command return [false], not a string. *)
Lemma exec_returns_false_without_store :
  let broken := {| db_file := Unparseable "[{"; trace := [] |} in
  let absent := {| db_file := Missing; trace := [] |} in
  let object := {| db_file := Document (JObj []) 2; trace := [] |} in
  Say.exec Sample.env0 "" ["modify"; "bot-task"; "delete"] broken = (JSfalse, broken)
  /\ Say.exec Sample.env0 "" ["modify"; "bot-task"; "on"; "lobby"] absent
     = (JSfalse, absent)
  /\ fst (Say.exec Sample.env0 ""
            ["hello"; "every"; "5"; "on"; "chan"; "named"; "greeter"] broken)
     = JSfalse
  /\ Say.exec Sample.env0 "" ["modify"; "bot-task"; "on"; "lobby"] object
     = (JSfalse, object).
Proof. repeat split; vm_compute; reflexivity. Qed.

(** ** The strings of a pattern *)

Section Lang.
Import Regex.

Lemma append_nil_inv (a b : string) : a ++ b = "" -> a = "" /\ b = "".
Proof. destruct a; simpl; intros H; [auto | discriminate]. Qed.

Lemma lang_Empty s : ~ lang Empty s.
Proof. intros H. inversion H. Qed.

Lemma lang_Eps_inv s : lang Eps s -> s = "".
Proof. intros H. now inversion H. Qed.

Lemma lang_Chr_inv c s : lang (Chr c) s -> s = String c "".
Proof. intros H. now inversion H. Qed.

Lemma lang_Class_inv neg ranges s :
  lang (Class neg ranges) s ->
  exists c, s = String c "" /\ class_mem neg ranges c = true.
Proof. intros H. inversion H; subst. eauto. Qed.

Lemma lang_Seq_inv r1 r2 s :
  lang (Seq r1 r2) s -> exists s1 s2, s = s1 ++ s2 /\ lang r1 s1 /\ lang r2 s2.
Proof. intros H. inversion H; subst. eauto. Qed.

Lemma lang_Alt_inv r1 r2 s : lang (Alt r1 r2) s -> lang r1 s \/ lang r2 s.
Proof. intros H. inversion H; subst; auto. Qed.

Lemma lang_Rep_inv lo hi r s :
  lang (Rep lo hi r) s ->
  (lo = 0%nat /\ s = "")
  \/ exists hi' s1 s2,
      hi = S hi' /\ s = s1 ++ s2 /\ lang r s1 /\ lang (Rep (Nat.pred lo) hi' r) s2.
Proof. intros H. inversion H; subst; eauto 8. Qed.

Lemma nullable_lang r : proper r = true -> (nullable r = true <-> lang r "").
Proof.
  induction r as [| | c | neg ranges | r1 IH1 r2 IH2 | r1 IH1 r2 IH2 | r1 IH1
                  | lo hi r1 IH1]; cbn [proper nullable]; intros Hp.
  - split; [discriminate | intros H; inversion H].
  - split; [constructor | reflexivity].
  - split; [discriminate | intros H; inversion H].
  - split; [discriminate | intros H; inversion H].
  - apply andb_prop in Hp as [Hp1 Hp2]. split.
    + intros H. apply andb_prop in H as [H1 H2].
      change "" with ("" ++ ""). constructor; [now apply IH1 | now apply IH2].
    + intros H. apply lang_Seq_inv in H as (s1 & s2 & E & H1 & H2).
      symmetry in E. apply append_nil_inv in E as [-> ->].
      apply andb_true_intro. split; [now apply IH1 | now apply IH2].
  - apply andb_prop in Hp as [Hp1 Hp2]. split.
    + intros H. apply orb_prop in H as [H|H].
      * apply lang_Alt_l. now apply IH1.
      * apply lang_Alt_r. now apply IH2.
    + intros H. apply lang_Alt_inv in H as [H|H]; apply orb_true_intro.
      * left. now apply IH1.
      * right. now apply IH2.
  - split; [constructor | reflexivity].
  - apply andb_prop in Hp as [Hp Hle]. apply andb_prop in Hp as [Hp1 Hn].
    apply negb_true_iff in Hn. rewrite Hn, orb_false_r. split.
    + intros H. apply Nat.eqb_eq in H. subst. constructor.
    + intros H. apply lang_Rep_inv in H as [[-> _] | (hi' & s1 & s2 & -> & E & H1 & H2)].
      * reflexivity.
      * symmetry in E. apply append_nil_inv in E as [-> ->].
        apply IH1 in H1; [congruence | assumption].
Qed.

Lemma lang_Seq_Eps_l r t : lang (Seq Eps r) t <-> lang r t.
Proof.
  split.
  - intros H. apply lang_Seq_inv in H as (s1 & s2 & -> & H1 & H2).
    apply lang_Eps_inv in H1. now subst.
  - intros H. change t with ("" ++ t). constructor; [constructor | assumption].
Qed.

Lemma lang_Seq_Eps_r r t : lang (Seq r Eps) t <-> lang r t.
Proof.
  split.
  - intros H. apply lang_Seq_inv in H as (s1 & s2 & -> & H1 & H2).
    apply lang_Eps_inv in H2. subst. now rewrite append_empty_r.
  - intros H. rewrite <- (append_empty_r t). constructor; [assumption | constructor].
Qed.

Lemma lang_Seq_Empty_l r t : lang (Seq Empty r) t <-> lang Empty t.
Proof.
  split; intros H.
  - apply lang_Seq_inv in H as (s1 & s2 & _ & H1 & _). now apply lang_Empty in H1.
  - now apply lang_Empty in H.
Qed.

Lemma lang_Seq_Empty_r r t : lang (Seq r Empty) t <-> lang Empty t.
Proof.
  split; intros H.
  - apply lang_Seq_inv in H as (s1 & s2 & _ & _ & H2). now apply lang_Empty in H2.
  - now apply lang_Empty in H.
Qed.

Lemma lang_mkSeq r1 r2 s : lang (mkSeq r1 r2) s <-> lang (Seq r1 r2) s.
Proof.
  destruct r1, r2; cbn [mkSeq];
    rewrite ?lang_Seq_Empty_l, ?lang_Seq_Empty_r, ?lang_Seq_Eps_l, ?lang_Seq_Eps_r;
    reflexivity.
Qed.

Lemma lang_Alt_Empty_l r t : lang (Alt Empty r) t <-> lang r t.
Proof.
  split.
  - intros H. apply lang_Alt_inv in H as [H|H]; [now apply lang_Empty in H | assumption].
  - now apply lang_Alt_r.
Qed.

Lemma lang_Alt_Empty_r r t : lang (Alt r Empty) t <-> lang r t.
Proof.
  split.
  - intros H. apply lang_Alt_inv in H as [H|H]; [assumption | now apply lang_Empty in H].
  - now apply lang_Alt_l.
Qed.

Lemma lang_mkAlt r1 r2 s : lang (mkAlt r1 r2) s <-> lang (Alt r1 r2) s.
Proof.
  destruct r1, r2; cbn [mkAlt];
    rewrite ?lang_Alt_Empty_l, ?lang_Alt_Empty_r; reflexivity.
Qed.

Lemma lang_Star_cons_inv r c s :
  lang (Star r) (String c s) ->
  exists s1 s2, s = s1 ++ s2 /\ lang r (String c s1) /\ lang (Star r) s2.
Proof.
  intros H. remember (Star r) as r' eqn:Er. remember (String c s) as t eqn:Et.
  revert Er Et.
  induction H as [| | | | | | | r0 s1 s2 H1 _ H2 IH2 | |]; intros Er Et;
    try discriminate.
  inversion Er; subst r0. destruct s1 as [|d s1].
  - simpl in Et. now apply IH2.
  - simpl in Et. inversion Et; subst. eauto.
Qed.

Lemma proper_mkSeq r1 r2 :
  proper r1 = true -> proper r2 = true -> proper (mkSeq r1 r2) = true.
Proof.
  intros H1 H2. destruct r1, r2; cbn [mkSeq proper] in *; auto;
    now rewrite ?H1, ?H2.
Qed.

Lemma proper_mkAlt r1 r2 :
  proper r1 = true -> proper r2 = true -> proper (mkAlt r1 r2) = true.
Proof.
  intros H1 H2. destruct r1, r2; cbn [mkAlt proper] in *; auto;
    now rewrite ?H1, ?H2.
Qed.

Lemma proper_deriv c r : proper r = true -> proper (deriv c r) = true.
Proof.
  induction r as [| | d | neg ranges | r1 IH1 r2 IH2 | r1 IH1 r2 IH2 | r1 IH1
                  | lo hi r1 IH1]; cbn [proper deriv]; intros Hp; auto.
  - now destruct (Ascii.eqb c d).
  - now destruct (class_mem neg ranges c).
  - apply andb_prop in Hp as [Hp1 Hp2]. apply proper_mkAlt.
    + apply proper_mkSeq; auto.
    + destruct (nullable r1); auto.
  - apply andb_prop in Hp as [Hp1 Hp2]. apply proper_mkAlt; auto.
  - apply proper_mkSeq; auto.
  - destruct hi as [|hi']; [reflexivity|].
    apply andb_prop in Hp as [Hp Hle]. apply andb_prop in Hp as [Hp1 Hn].
    apply proper_mkSeq; auto. cbn [proper]. rewrite Hp1, Hn. cbn [andb].
    apply Nat.leb_le in Hle. apply Nat.leb_le. lia.
Qed.

(** The derivative stands for what may follow the character. *)
Lemma deriv_lang c r : forall s,
  proper r = true -> (lang (deriv c r) s <-> lang r (String c s)).
Proof.
  induction r as [| | d | neg ranges | r1 IH1 r2 IH2 | r1 IH1 r2 IH2 | r1 IH1
                  | lo hi r1 IH1]; cbn [proper deriv]; intros s Hp.
  - split; intros H; inversion H.
  - split; intros H; inversion H.
  - destruct (Ascii.eqb_spec c d) as [->|Hne]; split; intros H.
    + apply lang_Eps_inv in H. subst. constructor.
    + apply lang_Chr_inv in H. inversion H. constructor.
    + now apply lang_Empty in H.
    + apply lang_Chr_inv in H. inversion H. congruence.
  - destruct (class_mem neg ranges c) eqn:E; split; intros H.
    + apply lang_Eps_inv in H. subst. now constructor.
    + apply lang_Class_inv in H as (c' & H & _). inversion H. constructor.
    + now apply lang_Empty in H.
    + apply lang_Class_inv in H as (c' & H & Hm). inversion H. congruence.
  - apply andb_prop in Hp as [Hp1 Hp2]. rewrite lang_mkAlt. split; intros H.
    + apply lang_Alt_inv in H as [H|H].
      * apply lang_mkSeq, lang_Seq_inv in H as (s1 & s2 & -> & H1 & H2).
        apply IH1 in H1; [|assumption].
        change (String c (s1 ++ s2)) with (String c s1 ++ s2). now constructor.
      * destruct (nullable r1) eqn:En; [|now apply lang_Empty in H].
        apply nullable_lang in En; [|assumption]. apply IH2 in H; [|assumption].
        change (String c s) with ("" ++ String c s). now constructor.
    + apply lang_Seq_inv in H as (s1 & s2 & E & H1 & H2).
      destruct s1 as [|d s1]; simpl in E.
      * subst s2. apply lang_Alt_r.
        apply nullable_lang in H1; [|assumption]. rewrite H1. now apply IH2.
      * inversion E; subst. apply lang_Alt_l, lang_mkSeq.
        constructor; [now apply IH1 | assumption].
  - apply andb_prop in Hp as [Hp1 Hp2]. rewrite lang_mkAlt. split; intros H.
    + apply lang_Alt_inv in H as [H|H];
        [apply lang_Alt_l; now apply IH1 | apply lang_Alt_r; now apply IH2].
    + apply lang_Alt_inv in H as [H|H];
        [apply lang_Alt_l; now apply IH1 | apply lang_Alt_r; now apply IH2].
  - rewrite lang_mkSeq. split; intros H.
    + apply lang_Seq_inv in H as (s1 & s2 & -> & H1 & H2).
      apply IH1 in H1; [|assumption].
      change (String c (s1 ++ s2)) with (String c s1 ++ s2). now constructor.
    + apply lang_Star_cons_inv in H as (s1 & s2 & -> & H1 & H2).
      constructor; [now apply IH1 | assumption].
  - apply andb_prop in Hp as [Hp Hle]. apply andb_prop in Hp as [Hp1 Hn].
    apply negb_true_iff in Hn.
    destruct hi as [|hi'].
    + split; intros H; [now apply lang_Empty in H|].
      apply lang_Rep_inv in H as [[_ H] | (hi' & s1 & s2 & H & _)]; discriminate.
    + rewrite lang_mkSeq. split; intros H.
      * apply lang_Seq_inv in H as (s1 & s2 & -> & H1 & H2).
        apply IH1 in H1; [|assumption].
        change (String c (s1 ++ s2)) with (String c s1 ++ s2). now constructor.
      * apply lang_Rep_inv in H as [[_ H] | (hi0 & s1 & s2 & Eh & E & H1 & H2)];
          [discriminate|].
        inversion Eh; subst hi0. destruct s1 as [|d s1]; simpl in E.
        -- apply nullable_lang in H1; [congruence | assumption].
        -- inversion E; subst. constructor; [now apply IH1 | assumption].
Qed.

(** The matcher decides membership. *)
Theorem matches_lang s : forall r,
  proper r = true -> (matches r s = true <-> lang r s).
Proof.
  induction s as [|c s IH]; intros r Hp; cbn [matches].
  - now apply nullable_lang.
  - rewrite IH by now apply proper_deriv. now apply deriv_lang.
Qed.

End Lang.

(** ** What the field validator accepts *)

Section Classes.
Import Regex.

(** A counted repetition of a character class: the length is in the
    bounds and every character is in the class. *)
Lemma matches_Rep_class neg ranges s : forall lo hi,
  matches (Rep lo hi (Class neg ranges)) s
  = length_between lo hi s && Str.all_chars (class_mem neg ranges) s.
Proof.
  unfold length_between.
  induction s as [|c s IH]; intros lo hi; cbn [matches Str.all_chars String.length].
  - cbn [nullable]. rewrite orb_false_r, andb_true_r.
    destruct lo; reflexivity.
  - cbn [deriv]. destruct hi as [|hi'].
    + rewrite matches_Empty. cbn [Nat.leb]. now rewrite andb_false_r.
    + destruct (class_mem neg ranges c); cbn [mkSeq andb].
      * rewrite IH. destruct lo; reflexivity.
      * rewrite matches_Empty. now rewrite andb_false_r.
Qed.

Lemma word_class c :
  class_mem false [("a", "z"); ("A", "Z"); ("0", "9"); ("_", "_")]%char c
  = is_word_char c.
Proof.
  destruct c as [b0 b1 b2 b3 b4 b5 b6 b7].
  destruct b0, b1, b2, b3, b4, b5, b6, b7; reflexivity.
Qed.

Lemma name_class c :
  class_mem false [("a", "z"); ("A", "Z"); ("0", "9"); ("_", "_"); ("-", "-")]%char c
  = is_name_char c.
Proof.
  destruct c as [b0 b1 b2 b3 b4 b5 b6 b7].
  destruct b0, b1, b2, b3, b4, b5, b6, b7; reflexivity.
Qed.

Lemma all_chars_ext P Q s :
  (forall c, P c = Q c) -> Str.all_chars P s = Str.all_chars Q s.
Proof. intros H. induction s as [|c s IH]; simpl; [reflexivity | now rewrite H, IH]. Qed.

Lemma matches_name_re v :
  matches Say.name_re v = length_between 3 40 v && Str.all_chars is_name_char v.
Proof.
  unfold Say.name_re, name_char. rewrite matches_Rep_class.
  now rewrite (all_chars_ext _ _ v name_class).
Qed.

Lemma matches_channel_re v :
  matches Say.channel_re v = length_between 4 25 v && Str.all_chars is_word_char v.
Proof.
  unfold Say.channel_re, word. rewrite matches_Rep_class.
  now rewrite (all_chars_ext _ _ v word_class).
Qed.

End Classes.


Section Interval.
Import Regex.

Lemma digit_class c : class_mem false [("0", "9")]%char c = Str.is_digit c.
Proof.
  unfold class_mem, Str.is_digit. cbn [existsb xorb]. now rewrite orb_false_r.
Qed.

Lemma lang_Star_digits s :
  lang (Star digit) s <-> Str.all_chars Str.is_digit s = true.
Proof.
  split.
  - intros H. remember (Star digit) as r eqn:Er. revert Er.
    induction H as [| | | | | | | r0 s1 s2 H1 _ H2 IH2 | |]; intros Er;
      try discriminate; [reflexivity|].
    inversion Er; subst r0.
    apply lang_Class_inv in H1 as (c & -> & Hc). rewrite digit_class in Hc.
    simpl. rewrite Hc. now apply IH2.
  - induction s as [|c s IH]; simpl; intros H; [constructor|].
    apply andb_prop in H as [Hc Hs].
    change (String c s) with (String c "" ++ s).
    constructor; [|now apply IH]. constructor. now rewrite digit_class.
Qed.

Lemma lang_Plus_digits s : lang (Plus digit) s <-> Str.is_digits s = true.
Proof.
  unfold Plus, Str.is_digits. split.
  - intros H. apply lang_Seq_inv in H as (s1 & s2 & -> & H1 & H2).
    apply lang_Class_inv in H1 as (c & -> & Hc). rewrite digit_class in Hc.
    apply lang_Star_digits in H2. simpl. now rewrite Hc, H2.
  - intros H. apply andb_prop in H as [Hne H].
    destruct s as [|c s]; [discriminate|]. simpl in H.
    apply andb_prop in H as [Hc Hs].
    change (String c s) with (String c "" ++ s). constructor.
    + constructor. now rewrite digit_class.
    + now apply lang_Star_digits.
Qed.



End Interval.


(** ** Well-formed stores fit the pattern of the store *)

Section Serialized.
Import Regex.

Lemma name_char_plain c : is_name_char c = true -> quote_char c = String c "".
Proof.
  destruct c as [b0 b1 b2 b3 b4 b5 b6 b7].
  destruct b0, b1, b2, b3, b4, b5, b6, b7;
    vm_compute; intros H; try discriminate H; reflexivity.
Qed.

Lemma word_char_name_char c : is_word_char c = true -> is_name_char c = true.
Proof. unfold is_name_char. intros ->. reflexivity. Qed.

Lemma quote_body_plain s :
  Str.all_chars is_name_char s = true -> quote_body s = s.
Proof.
  induction s as [|c s IH]; simpl; intros H; [reflexivity|].
  apply andb_prop in H as [Hc Hs]. now rewrite (name_char_plain c Hc), IH.
Qed.

Lemma all_chars_impl (P Q : ascii -> bool) s :
  (forall c, P c = true -> Q c = true) ->
  Str.all_chars P s = true -> Str.all_chars Q s = true.
Proof.
  intros HPQ. induction s as [|c s IH]; simpl; intros H; [reflexivity|].
  apply andb_prop in H as [Hc Hs]. now rewrite (HPQ c Hc), IH.
Qed.

Lemma quote_name name :
  matches Say.name_re name = true -> quote name = String Str.dquote (name ++ String Str.dquote "").
Proof.
  rewrite matches_name_re. intros H. apply andb_prop in H as [_ H].
  unfold quote. now rewrite quote_body_plain.
Qed.

Lemma quote_channel channel :
  matches Say.channel_re channel = true ->
  quote channel = String Str.dquote (channel ++ String Str.dquote "").
Proof.
  rewrite matches_channel_re. intros H. apply andb_prop in H as [_ H].
  unfold quote. rewrite quote_body_plain; [reflexivity|].
  revert H. apply all_chars_impl, word_char_name_char.
Qed.

Lemma string_of_uint_digits d :
  Str.all_chars Str.is_digit (NilEmpty.string_of_uint d) = true.
Proof. induction d; simpl; auto. Qed.

Lemma N_to_string_digits n : Str.is_digits (N_to_string n) = true.
Proof.
  unfold Str.is_digits. destruct (N_to_string_head n) as (c & s & E & _).
  rewrite E at 1. cbn [String.eqb negb andb].
  apply string_of_uint_digits.
Qed.

Lemma number_to_string_digits z :
  0 <= z < 10 ^ 21 -> Str.is_digits (number_to_string z) = true.
Proof.
  intros [H0 H1]. unfold number_to_string.
  replace (Z.abs_N z <? 10 ^ 21)%N with true.
  - replace (z <? 0) with false by (symmetry; apply Z.ltb_ge; lia).
    apply N_to_string_digits.
  - symmetry. apply N.ltb_lt. lia.
Qed.

Lemma lang_Lit s : lang (Lit s) s.
Proof.
  induction s as [|c s IH]; cbn [Lit]; [constructor|].
  destruct s as [|d s]; [constructor|].
  change (String c (String d s)) with (String c "" ++ String d s).
  constructor; [constructor | exact IH].
Qed.

Lemma lang_message_plain t : forall u,
  Str.all_chars (fun c => negb (Ascii.eqb c Str.dquote)) t = true ->
  lang message_re u -> lang message_re (t ++ u).
Proof.
  induction t as [|c t IH]; simpl; intros u H Hu; [assumption|].
  apply andb_prop in H as [Hc Ht].
  change (String c (t ++ u)) with (String c "" ++ (t ++ u)).
  constructor; [|now apply IH].
  apply lang_Alt_l. constructor.
  unfold class_mem. cbn [existsb]. unfold Str.in_range.
  apply negb_true_iff in Hc.
  destruct (Nat.leb_spec (Str.code Str.dquote) (Str.code c)),
           (Nat.leb_spec (Str.code c) (Str.code Str.dquote)); cbn; auto.
  exfalso. assert (Str.code c = Str.code Str.dquote) as E by lia.
  unfold Str.code in E.
  apply (f_equal ascii_of_nat) in E. rewrite !ascii_nat_embedding in E.
  subst c. now rewrite Ascii.eqb_refl in Hc.
Qed.

Lemma quote_char_cases c :
  (c = Str.dquote /\ quote_char c = String Str.backslash (String Str.dquote ""))
  \/ Str.all_chars (fun c => negb (Ascii.eqb c Str.dquote)) (quote_char c) = true.
Proof.
  destruct c as [b0 b1 b2 b3 b4 b5 b6 b7].
  destruct b0, b1, b2, b3, b4, b5, b6, b7;
    first [ right; vm_compute; reflexivity | left; split; reflexivity ].
Qed.

(** The text of a quoted string fits the message part of the pattern. *)
Lemma lang_message_body m : lang message_re (quote_body m).
Proof.
  induction m as [|c m IH]; cbn [quote_body]; [constructor|].
  destruct (quote_char_cases c) as [[-> E] | H].
  - rewrite E.
    change (String Str.backslash (String Str.dquote "") ++ quote_body m)
      with ((String Str.backslash "" ++ String Str.dquote "") ++ quote_body m).
    constructor; [|exact IH].
    apply lang_Alt_r. constructor; constructor.
  - now apply lang_message_plain.
Qed.

End Serialized.

Section Entries.
Import Regex.

Lemma lang_entry_text name digits channel body :
  matches Say.name_re name = true ->
  Str.is_digits digits = true ->
  matches Say.channel_re channel = true ->
  lang message_re body ->
  lang Say.entry_re (entry_text name digits channel body).
Proof.
  intros Hn Hd Hc Hb. unfold Say.entry_re, entry_text. cbv zeta. cbn [seqs].
  repeat (apply lang_Seq);
    try (apply lang_Chr); try (apply lang_Lit).
  - apply matches_lang; [reflexivity | exact Hn].
  - now apply lang_Plus_digits.
  - apply matches_lang; [reflexivity | exact Hc].
  - exact Hb.
Qed.

Lemma entry_text_stringify name seconds channel message :
  matches Say.name_re name = true ->
  matches Say.channel_re channel = true ->
  quote name ++ ":" ++ stringify (task_record seconds channel message)
  = entry_text name (number_to_string seconds) channel (quote_body message).
Proof.
  intros Hn Hc. unfold task_record. cbn [stringify map fst snd Str.join].
  rewrite (quote_name name Hn), (quote_channel channel Hc).
  unfold entry_text, quote, Say.quoted. cbv zeta.
  repeat (first [rewrite !append_assoc | progress cbn [append]]). reflexivity.
Qed.

End Entries.

Section Store.
Import Regex.

Let group : regex := Seq (Star (Seq Say.entry_re (Chr ","))) Say.entry_re.

Lemma lang_group_join text texts :
  Forall (lang Say.entry_re) (text :: texts) ->
  lang group (Str.join "," (text :: texts)).
Proof.
  revert text. induction texts as [|text' texts IH]; intros text H.
  - inversion H; subst. cbn [Str.join].
    change text with ("" ++ text). constructor; [constructor | assumption].
  - inversion H as [|? ? H1 H2]; subst.
    apply IH, lang_Seq_inv in H2 as (t1 & t2 & E & Ht1 & Ht2).
    change (Str.join "," (text :: text' :: texts))
      with (text ++ "," ++ Str.join "," (text' :: texts)).
    rewrite E.
    replace (text ++ "," ++ t1 ++ t2) with (((text ++ ",") ++ t1) ++ t2)
      by now rewrite !append_assoc.
    constructor; [|assumption].
    constructor; [|assumption].
    constructor; [assumption | constructor].
Qed.

Lemma lang_entries texts :
  Forall (lang Say.entry_re) texts -> lang (Star group) (Str.join "," texts).
Proof.
  intros H. destruct texts as [|text texts]; [constructor|].
  rewrite <- (append_empty_r (Str.join "," (text :: texts))).
  constructor; [now apply lang_group_join | constructor].
Qed.

Lemma well_formed_entry_text kv :
  well_formed_entry kv ->
  lang Say.entry_re (quote (fst kv) ++ ":" ++ stringify (snd kv)).
Proof.
  intros [name seconds channel message Hn Hs Hc]. cbn [fst snd].
  rewrite entry_text_stringify by assumption.
  apply lang_entry_text; auto.
  - now apply number_to_string_digits.
  - apply lang_message_body.
Qed.

Lemma well_formed_matches props :
  well_formed props ->
  matches Say.taskList (stringify (JArr [JObj props])) = true.
Proof.
  intros H. apply matches_lang; [reflexivity|].
  cbn [stringify map Str.join].
  change (lang Say.taskList
            (String "["
               (String "{"
                  (Str.join ","
                     (map (fun kv => quote (fst kv) ++ ":" ++ stringify (snd kv)) props)
                   ++ "}") ++ "]"))).
  cbn [append]. rewrite append_assoc.
  rewrite taskList_unfold. cbn [seqs].
  change (String "[" (String "{" ?x)) with ("[" ++ "{" ++ x).
  constructor; [constructor|].
  constructor; [constructor|].
  constructor; [|constructor; constructor].
  apply lang_entries. apply Forall_map.
  revert H. apply Forall_impl. exact well_formed_entry_text.
Qed.

End Store.

(** ** Properties of all entries *)

Section ForallFacts.
Context {A : Type} (P : string * A -> Prop).
Implicit Types (o : list (string * A)) (k : string) (v : A).

Lemma Forall_replace o k v : Forall P o -> P (k, v) -> Forall P (JS.replace o k v).
Proof.
  intros Ho Hv. induction o as [|[k' v'] rest IH]; simpl; auto.
  inversion Ho; subst. destruct (String.eqb_spec k k') as [->|Hne]; auto.
Qed.

Lemma Forall_insert_index n o k v :
  Forall P o -> P (k, v) -> Forall P (JS.insert_index n k v o).
Proof.
  intros Ho Hv. induction o as [|[k' v'] rest IH]; simpl; auto.
  inversion Ho; subst.
  destruct (JS.array_index k') as [m|]; [destruct (m <? n)%N|]; auto.
Qed.

Lemma Forall_define o k v : Forall P o -> P (k, v) -> Forall P (JS.define o k v).
Proof.
  intros Ho Hv. unfold JS.define. destruct (JS.own o k).
  - now apply Forall_replace.
  - destruct (JS.array_index k).
    + now apply Forall_insert_index.
    + apply Forall_app. auto.
Qed.

Lemma Forall_set o k v : Forall P o -> P (k, v) -> Forall P (JS.set o k v).
Proof.
  intros Ho Hv. unfold JS.set. destruct (JS.own o k).
  - now apply Forall_replace.
  - destruct (String.eqb k "__proto__"); auto using Forall_define.
Qed.

Lemma Forall_delete o k : Forall P o -> Forall P (JS.delete o k).
Proof.
  intros Ho. unfold JS.delete. apply Forall_forall. intros x Hx.
  apply filter_In in Hx as [Hx _]. revert x Hx. now apply Forall_forall.
Qed.

Lemma Forall_own o k v : Forall P o -> JS.own o k = Some v -> P (k, v).
Proof.
  intros Ho. induction o as [|[k' v'] rest IH]; simpl; [discriminate|].
  inversion Ho; subst. destruct (String.eqb_spec k k') as [->|Hne]; auto.
  intros E. inversion E; subst. assumption.
Qed.

End ForallFacts.

Section Preserve.
Variable Q : string * json -> Prop.

Lemma Forall_of_json props : Forall Q props -> Forall (on_value Q) (JS.of_json props).
Proof.
  intros H. unfold JS.of_json. apply Forall_map. revert H. apply Forall_impl.
  intros [k j]. exact (fun H => H).
Qed.

Lemma Forall_to_json o : Forall (on_value Q) o -> Forall Q (JS.to_json o).
Proof.
  induction o as [|[k v] rest IH]; simpl; intros H; auto.
  inversion H as [|? ? Hv Hrest]; subst. unfold on_value in Hv.
  destruct v; cbn [fst snd] in Hv; auto.
Qed.

(** What [updateTaskList] writes keeps a property that holds of every
    entry, provided that the entry which the operation adds has it. *)
Lemma updateTaskList_preserves taskName type updatedTask w :
  let props := store_entries (db_file w) in
  let key := Say.name_key taskName in
  let old := JS.get (JS.of_json props) key in
  Forall Q props ->
  (type = Create -> JS.truthy old = false -> Q (key, JObj updatedTask)) ->
  (type = Modify -> JS.truthy old = true ->
   match JS.own updatedTask "named" with
   | Some named => on_value Q (Say.to_display named, old)
   | None => Q (key, JObj (JS.merge (JS.spread old) updatedTask))
   end) ->
  Forall Q (store_entries
              (db_file (snd (Say.updateTaskList taskName type updatedTask w)))).
Proof.
  intros props key old HQ Hc Hm.
  unfold Say.updateTaskList, Say.updateTaskList_try.
  destruct (db_file w) as [| text | doc indent] eqn:Ew;
    cbn [read_store bind snd]; try (rewrite Ew; exact HQ).
  destruct (Say.validateJSON doc _) as [err | [|]] eqn:V; cbn [bind negb snd];
    try (rewrite Ew; exact HQ).
  apply validateJSON_true_shape in V as (props0 & others & ->).
  cbn [store_entries] in props. subst props.
  pose proof (Forall_of_json props0 HQ) as Hv.
  cbn [Say.first_of bind]. fold key. fold old.
  destruct type.
  - destruct (JS.truthy old) eqn:Ht; cbn [snd db_file write_file store_entries];
      [rewrite Ew; exact HQ|].
    apply Forall_to_json, Forall_set; auto. exact (Hc eq_refl eq_refl).
  - destruct (JS.truthy old) eqn:Ht; cbn [negb snd db_file write_file store_entries];
      [|rewrite Ew; exact HQ].
    specialize (Hm eq_refl eq_refl).
    destruct (JS.own updatedTask "named") as [named|].
    + destruct (Say.strict_neq taskName named);
        cbn [snd db_file write_file store_entries].
      * apply Forall_to_json, Forall_delete, Forall_set; auto.
      * now apply Forall_to_json.
    + cbn [snd db_file write_file store_entries].
      apply Forall_to_json, Forall_set; auto.
  - destruct (JS.truthy old); cbn [negb snd db_file write_file store_entries];
      [|rewrite Ew; exact HQ].
    now apply Forall_to_json, Forall_delete.
Qed.

End Preserve.

(** [updateTaskList] leaves the file as it is or writes a one-element
    sequence that holds a mapping, indented by four. *)
Lemma updateTaskList_file taskName type updatedTask w :
  db_file (snd (Say.updateTaskList taskName type updatedTask w)) = db_file w
  \/ exists props',
      db_file (snd (Say.updateTaskList taskName type updatedTask w))
      = Document (JArr [JObj props']) 4.
Proof.
  unfold Say.updateTaskList, Say.updateTaskList_try.
  destruct (db_file w) as [| text | doc indent] eqn:Ew;
    cbn [read_store bind snd]; auto.
  destruct (Say.validateJSON doc _) as [err | [|]]; cbn [bind negb snd]; auto.
  destruct (Say.first_of doc) as [err | [[| b | z | s | items | props] | | |]];
    cbn [bind snd]; auto.
  destruct type;
    repeat match goal with
           | |- context [if ?b then _ else _] => destruct b
           | |- context [match JS.own ?o ?k with _ => _ end] => destruct (JS.own o k)
           end;
    cbn [snd db_file write_file]; eauto.
Qed.

(** ** Commands as operations of the store *)

Section Decoding.

Ltac quiet := left; cbn [snd]; constructor.

Lemma is_word_eq x s : Say.is_word x s = true -> x = Some s.
Proof.
  destruct x as [t|]; simpl; [|discriminate].
  intros H. apply String.eqb_eq in H. now subst.
Qed.

Lemma checkRegexNotMatch_on v rest :
  Say.checkRegexNotMatch (("on", v) :: rest) = None ->
  Regex.matches Say.channel_re v = true.
Proof.
  cbn [Say.checkRegexNotMatch String.eqb Ascii.eqb Bool.eqb andb].
  destruct (Regex.matches Say.channel_re v); [reflexivity | discriminate].
Qed.

Lemma checkRegexNotMatch_named v rest :
  Say.checkRegexNotMatch (("named", v) :: rest) = None ->
  Regex.matches Say.name_re v = true.
Proof.
  cbn [Say.checkRegexNotMatch String.eqb Ascii.eqb Bool.eqb andb].
  destruct (Regex.matches Say.name_re v); [reflexivity | discriminate].
Qed.

(** A command writes nothing, clears the store, or is one operation of
    the task store, after at most one call of [parseSeconds]. *)
Lemma exec_cases e context request w :
  no_write w (snd (Say.exec e context request w))
  \/ Say.exec e context request w
     = (Str "The task list has been wiped clean.", write_file empty_doc 2 w)
  \/ exists taskName type patch w1,
      decoded e request taskName type patch
      /\ no_write w w1
      /\ Say.exec e context request w = Say.updateTaskList taskName type patch w1.
Proof.
  unfold Say.exec.
  destruct (String.eqb (Str.join " " request) "clear task list"); [now (right; left)|].
  destruct (Say.is_word (nth_error request 0) "modify") eqn:Hm.
  - destruct request as [|r0 request]; [discriminate|].
    cbn in Hm. apply String.eqb_eq in Hm. subst r0.
    cbn [skipn]. unfold Say.modifyTask.
    destruct request as [|name [|type [|v1 rest]]];
      cbn -[Say.updateTaskList String.eqb Say.checkRegexNotMatch Say.call_parseSeconds
            Str.join].
    + quiet.
    + quiet.
    + destruct (String.eqb_spec type "remove") as [->|Hr];
        [|destruct (String.eqb_spec type "delete") as [->|Hd]];
        cbn [orb snd]; [| |quiet];
        right; right; exists (NameArr [name]), Delete, [], w;
          repeat split; constructor; auto.
    + idtac.
      destruct (String.eqb_spec type "say") as [->|Hs].
      { cbn [orb negb andb]. right; right.
        exists (NameArr [name]), Modify, [("taskMessage", JStr (Str.join " " (v1 :: rest)))], w.
        repeat split; constructor. }
      destruct (String.eqb_spec type "every") as [->|He].
      { cbn [orb negb andb].
        destruct (Nat.eqb (List.length rest) 0) eqn:El.
        - destruct rest; [|discriminate].
          destruct (Say.checkRegexNotMatch [("every", v1)]) eqn:C; [quiet|].
          apply checkRegexNotMatch_every in C.
          right; right. eexists (NameArr [name]), Modify, _, _.
          split; [|split; [|reflexivity]]; [now constructor | constructor].
        - right; right. eexists (NameArr [name]), Modify, _, _.
          split; [|split; [|reflexivity]]; [|constructor].
          constructor. intros ->. discriminate. }
      destruct (String.eqb_spec type "on") as [->|Ho].
      { cbn [orb negb andb].
        destruct (Nat.eqb (List.length rest) 0) eqn:El.
        - destruct rest; [|discriminate].
          destruct (Say.checkRegexNotMatch [("on", v1)]) eqn:C; [quiet|].
          apply checkRegexNotMatch_on in C.
          right; right. eexists (NameArr [name]), Modify, _, w.
          split; [|split; [|reflexivity]]; [now constructor | constructor].
        - right; right. eexists (NameArr [name]), Modify, _, w.
          split; [|split; [|reflexivity]]; [|constructor].
          constructor. intros ->. discriminate. }
      destruct (String.eqb_spec type "named") as [->|Hn].
      { cbn [orb negb andb].
        destruct (Nat.eqb (List.length rest) 0) eqn:El.
        - destruct rest; [|discriminate].
          destruct (Say.checkRegexNotMatch [("named", v1)]) eqn:C; [quiet|].
          apply checkRegexNotMatch_named in C.
          right; right. eexists (NameArr [name]), Modify, _, w.
          split; [|split; [|reflexivity]]; [now constructor | constructor].
        - right; right. eexists (NameArr [name]), Modify, _, w.
          split; [|split; [|reflexivity]]; [|constructor].
          constructor. intros ->. discriminate. }
      quiet.
  - set (cut := Say.splice_start _ _).
    destruct (orb _ _) eqn:Hu; [quiet|].
    apply orb_false_elim in Hu as [Hu Hnamed].
    apply orb_false_elim in Hu as [Hu Hon].
    apply orb_false_elim in Hu as [Hlen Hevery].
    apply negb_false_iff, is_word_eq in Hnamed, Hon, Hevery.
    pose proof (firstn_skipn cut request) as Esplit.
    remember (firstn cut request) as message eqn:Emsg.
    destruct (skipn cut request) as [|m0 [|every [|m2 [|on [|m4 [|name [|]]]]]]];
      try quiet.
    cbn in Hevery, Hon, Hnamed.
    injection Hevery as E1. injection Hon as E2. injection Hnamed as E3.
    subst m0 m2 m4.
    destruct (Say.checkRegexNotMatch _) eqn:C; [quiet|].
    unfold Say.call_parseSeconds.
    destruct (Z.eqb_spec (Say.parseSeconds (now e) every) 0) as [E0|E0]; [quiet|].
    right; right. eexists (NameStr name), Create, _, _.
    split; [|split; [|reflexivity]]; [|constructor].
    assert (D : forall req,
               req = (message ++ ["every"; every; "on"; on; "named"; name])%list ->
               decoded e req (NameStr name) Create
                 [ ("totalWaitInterval", JNum (Say.parseSeconds (now e) every));
                   ("channel", JStr (Str.toLowerCase on));
                   ("taskMessage", JStr (Str.join " " message)) ]).
    { intros req ->. constructor; auto.
      intros E. rewrite E in Hlen. discriminate. }
    apply D. now symmetry.
Qed.

(** A command leaves the store file alone, clears it, or is one
    operation of the task store. *)
Lemma exec_decodes e context request w :
  db_file (snd (Say.exec e context request w)) = db_file w
  \/ db_file (snd (Say.exec e context request w)) = Document empty_doc 2
  \/ exists taskName type patch w1,
      decoded e request taskName type patch
      /\ db_file w1 = db_file w
      /\ Say.exec e context request w = Say.updateTaskList taskName type patch w1.
Proof.
  destruct (exec_cases e context request w)
    as [H | [E | (taskName & type & patch & w1 & Hd & H & E)]].
  - left. now destruct H.
  - right; left. now rewrite E.
  - right; right. exists taskName, type, patch, w1.
    repeat split; auto. now destruct H.
Qed.

End Decoding.

(** ** Commands keep the store well formed *)

Section Fields.

(** Whatever the string, the result of [parseSeconds] is in the range of
    [Date]. *)
Lemma parseSeconds_bound epox s :
  - Say.max_time <= Say.parseSeconds epox s <= Say.max_time.
Proof.
  assert (Hin : forall i, - Say.max_time
                          <= (if Say.invalid_date i then 0 else i) <= Say.max_time).
  { intros i. unfold Say.invalid_date.
    destruct (Z.ltb_spec Say.max_time (Z.abs i)); unfold Say.max_time in *; lia. }
  unfold Say.parseSeconds.
  destruct (map Say.parseInt (Str.split ":" s)) as [|p1 [|p2 [|p3 [|p4 rest]]]];
    try apply Hin;
    match goal with
    | |- context [if ?b then 0 else _] => destruct b; [unfold Say.max_time; lia|]
    end; apply Hin.
Qed.

Lemma lower_word_char c : is_word_char c = true -> is_word_char (Str.lower_char c) = true.
Proof.
  destruct c as [b0 b1 b2 b3 b4 b5 b6 b7].
  destruct b0, b1, b2, b3, b4, b5, b6, b7;
    vm_compute; intros H; try discriminate H; reflexivity.
Qed.

Lemma lower_char_idempotent c : Str.lower_char (Str.lower_char c) = Str.lower_char c.
Proof.
  destruct c as [b0 b1 b2 b3 b4 b5 b6 b7].
  destruct b0, b1, b2, b3, b4, b5, b6, b7; reflexivity.
Qed.

Lemma toLowerCase_idempotent s :
  Str.toLowerCase (Str.toLowerCase s) = Str.toLowerCase s.
Proof.
  induction s as [|c s IH]; simpl; [reflexivity|].
  now rewrite lower_char_idempotent, IH.
Qed.

Lemma toLowerCase_length s : String.length (Str.toLowerCase s) = String.length s.
Proof. induction s as [|c s IH]; simpl; congruence. Qed.

Lemma toLowerCase_word s :
  Str.all_chars is_word_char s = true ->
  Str.all_chars is_word_char (Str.toLowerCase s) = true.
Proof.
  induction s as [|c s IH]; simpl; intros H; [reflexivity|].
  apply andb_prop in H as [Hc Hs]. now rewrite lower_word_char, IH.
Qed.

(** Lower-casing keeps a channel a channel. *)
Lemma channel_re_toLowerCase v :
  Regex.matches Say.channel_re v = true ->
  Regex.matches Say.channel_re (Str.toLowerCase v) = true.
Proof.
  rewrite !matches_channel_re. unfold length_between.
  rewrite toLowerCase_length. intros H. apply andb_prop in H as [Hl Hc].
  now rewrite Hl, toLowerCase_word.
Qed.

Lemma checked_interval_range e value :
  Regex.matches Say.interval_re value = true ->
  0 <= Say.parseSeconds (now e) value < 10 ^ 21.
Proof.
  intros H. pose proof (checked_interval_nonneg (now e) value H).
  pose proof (parseSeconds_bound (now e) value). unfold Say.max_time in *. lia.
Qed.

End Fields.

Section WellFormed.

(** The record that a modify command finds under a name of a well-formed
    mapping, when the name is a key or nothing that objects inherit. *)
Lemma found_record props name :
  well_formed props ->
  JS.own props name <> None \/ JS.inherited name = JS.VUndefined ->
  JS.truthy (JS.get (JS.of_json props) name) = true ->
  exists seconds channel message,
    JS.get (JS.of_json props) name = JS.VJson (task_record seconds channel message)
    /\ well_formed_entry (name, task_record seconds channel message).
Proof.
  intros Hwf Hname. unfold JS.get. rewrite own_of_json.
  destruct (JS.own props name) as [r|] eqn:Eo; cbn [option_map].
  - intros _. pose proof (Forall_own _ _ _ _ Hwf Eo) as Hr.
    inversion Hr; subst. eauto.
  - destruct Hname as [Hname|Hname]; [congruence|]. rewrite Hname. discriminate.
Qed.

End WellFormed.

(** Commands keep a well-formed store well formed, with two exceptions:
    a modify command with more than one word after [every], [on] or
    [named], whose value is not checked, and a modify command for a name
    that is no key of the mapping but a property that every object
    inherits. *)
Theorem exec_keeps_store_well_formed e context request w :
  well_formed_file (db_file w) ->
  (forall name type v1 v2 rest,
      request = "modify" :: name :: type :: v1 :: v2 :: rest ->
      type <> "every" /\ type <> "on" /\ type <> "named") ->
  (forall name type value rest,
      request = "modify" :: name :: type :: value :: rest ->
      JS.own (store_entries (db_file w)) name <> None
      \/ JS.inherited name = JS.VUndefined) ->
  well_formed_file (db_file (snd (Say.exec e context request w))).
Proof.
  intros (props & indent & Ew & Hwf) Hchecked Hname.
  destruct (exec_decodes e context request w)
    as [E | [E | (taskName & type & patch & w1 & Hd & Ew1 & E)]].
  - rewrite E, Ew. now exists props, indent.
  - rewrite E. exists [], 2%nat. split; [reflexivity | constructor].
  - rewrite E. rewrite Ew in Ew1, Hname. cbn [store_entries] in Hname.
    assert (Hkeep : Forall well_formed_entry
                      (store_entries
                         (db_file (snd (Say.updateTaskList taskName type patch w1))))).
    { apply updateTaskList_preserves; rewrite Ew1; cbn [store_entries]; auto.
      - (* create *)
        intros -> _. inversion Hd; subst.
        match goal with
        | C : Say.checkRegexNotMatch _ = None |- _ =>
            pose proof (checkRegexNotMatch_every _ _ C) as Hevery;
            cbn [Say.checkRegexNotMatch String.eqb Ascii.eqb Bool.eqb andb] in C;
            rewrite Hevery in C; cbn [negb] in C;
            destruct (Regex.matches Say.channel_re on) eqn:Hon; [|discriminate C];
            cbn [negb] in C;
            destruct (Regex.matches Say.name_re name) eqn:Hnm; [|discriminate C]
        end.
        cbn [Say.name_key]. constructor; auto.
        + now apply checked_interval_range.
        + now apply channel_re_toLowerCase.
      - (* modify *)
        intros -> Htruthy. inversion Hd; subst; cbn [Say.name_key Str.join] in *.
        + (* say *)
          destruct (found_record props name Hwf (Hname _ _ _ _ eq_refl) Htruthy)
            as (seconds & channel & message & -> & Hr).
          cbn [JS.own String.eqb Ascii.eqb Bool.eqb JS.spread task_record].
          inversion Hr; subst. now constructor.
        + (* every *)
          destruct rest as [|v2 rest];
            [|now destruct (Hchecked _ _ _ _ _ eq_refl) as (? & _)].
          destruct (found_record props name Hwf (Hname _ _ _ _ eq_refl) Htruthy)
            as (seconds & channel & message & -> & Hr).
          cbn [JS.own String.eqb Ascii.eqb Bool.eqb JS.spread task_record].
          inversion Hr; subst. constructor; auto.
          apply checked_interval_range. auto.
        + (* on *)
          destruct rest as [|v2 rest];
            [|now destruct (Hchecked _ _ _ _ _ eq_refl) as (_ & ? & _)].
          destruct (found_record props name Hwf (Hname _ _ _ _ eq_refl) Htruthy)
            as (seconds & channel & message & -> & Hr).
          cbn [JS.own String.eqb Ascii.eqb Bool.eqb JS.spread task_record].
          inversion Hr; subst. constructor; auto.
          apply channel_re_toLowerCase. auto.
        + (* named *)
          destruct rest as [|v2 rest];
            [|now destruct (Hchecked _ _ _ _ _ eq_refl) as (_ & _ & ?)].
          destruct (found_record props name Hwf (Hname _ _ _ _ eq_refl) Htruthy)
            as (seconds & channel & message & -> & Hr).
          cbn [JS.own String.eqb Ascii.eqb Bool.eqb Say.to_display on_value fst snd].
          inversion Hr; subst. constructor; auto. }
    destruct (updateTaskList_file taskName type patch w1) as [Ef | (props' & Ef)].
    + rewrite Ef, Ew1. now exists props, indent.
    + rewrite Ef in Hkeep |- *. cbn [store_entries] in Hkeep.
      now exists props', 4%nat.
Qed.

Lemma exec_keeps_store_well_formed_witness :
  well_formed_file
    (db_file (snd (Say.exec Sample.env0 "" ["modify"; "bot-task"; "on"; "NewChan"]
                            (Sample.fresh Sample.one_task)))).
Proof.
  apply exec_keeps_store_well_formed.
  - exists [("bot-task", Sample.bot_task)], 4%nat. split; [reflexivity|].
    repeat constructor; vm_compute; try reflexivity; discriminate.
  - intros name type v1 v2 rest E. discriminate E.
  - intros name type value rest E. injection E as <- <- <- <-.
    left. discriminate.
Defined.

(** ** Channels are stored in lower case *)

Section LowerCase.

Lemma Forall_merge (P : string * json -> Prop) a b :
  Forall P a -> Forall P b -> Forall P (JS.merge a b).
Proof.
  intros Ha Hb. unfold JS.merge.
  assert (H : Forall P (a ++ b)%list) by (apply Forall_app; auto).
  assert (Hacc : Forall P (@nil (string * json))) by constructor.
  revert H Hacc. generalize (@nil (string * json)) as acc.
  induction (a ++ b)%list as [|[k v] rest IH]; intros acc H Hacc; simpl; auto.
  inversion H; subst. apply IH; auto. apply Forall_define; auto.
Qed.

Lemma indexed_no_channel {A} (l : list A) (f : A -> json) : forall i,
  Forall lower_case_field (JS.indexed i (map f l)).
Proof.
  induction l as [|x rest IH]; intros i; simpl; constructor; auto.
  unfold lower_case_field. cbn [fst]. intros E.
  destruct (N_to_string_head i) as (c & s & Hs & Hd).
  rewrite E in Hs. injection Hs as <- _. discriminate Hd.
Qed.

Lemma spread_lower_case k v :
  on_value lower_case_channel (k, v) -> Forall lower_case_field (JS.spread v).
Proof.
  unfold on_value, lower_case_channel. cbn [fst snd].
  destruct v as [[| b | z | s | items | fields] | | |]; cbn [JS.spread]; auto.
  - intros _. clear k.
    assert (E : JS.chars s = map (fun c => JStr (String c "")) (list_ascii_of_string s)).
    { induction s as [|c s IH]; simpl; [reflexivity | now rewrite IH]. }
    rewrite E. apply indexed_no_channel.
  - intros _. rewrite <- (map_id items). apply indexed_no_channel.
Qed.

End LowerCase.

(** Every command keeps the channels of the store in lower case: the
    create command and the modify command both store the channel through
    [toLowerCase], whether or not the words were checked. *)
Theorem exec_keeps_channels_lower_case e context request w :
  Forall lower_case_channel (store_entries (db_file w)) ->
  Forall lower_case_channel
         (store_entries (db_file (snd (Say.exec e context request w)))).
Proof.
  intros Hlow.
  destruct (exec_decodes e context request w)
    as [E | [E | (taskName & type & patch & w1 & Hd & Ew1 & E)]].
  - now rewrite E.
  - rewrite E. constructor.
  - rewrite E. rewrite <- Ew1 in Hlow.
    apply updateTaskList_preserves; auto.
    + intros -> _. inversion Hd; subst.
      unfold lower_case_channel. cbn [snd].
      repeat constructor; unfold lower_case_field; cbn [fst snd];
        try discriminate.
      intros _. eexists. split; [reflexivity | apply toLowerCase_idempotent].
    + intros -> Htruthy.
      set (old := JS.get _ _) in *.
      assert (Hold : on_value lower_case_channel (Say.name_key taskName, old)).
      { subst old. unfold JS.get. rewrite own_of_json.
        destruct (JS.own _ _) as [j|] eqn:Eo; cbn [option_map].
        - apply (Forall_own _ _ _ _ Hlow Eo).
        - unfold JS.inherited.
          destruct (String.eqb _ "__proto__"); [constructor|].
          destruct (existsb _ _); exact I. }
      inversion Hd; subst; cbn [JS.own String.eqb Ascii.eqb Bool.eqb].
      * unfold lower_case_channel. cbn [snd].
        apply Forall_merge; [exact (spread_lower_case _ _ Hold)|].
        repeat constructor. unfold lower_case_field. cbn [fst]. discriminate.
      * unfold lower_case_channel. cbn [snd].
        apply Forall_merge; [exact (spread_lower_case _ _ Hold)|].
        repeat constructor. unfold lower_case_field. cbn [fst]. discriminate.
      * unfold lower_case_channel. cbn [snd].
        apply Forall_merge; [exact (spread_lower_case _ _ Hold)|].
        repeat constructor. unfold lower_case_field. cbn [fst snd].
        intros _. eexists. split; [reflexivity | apply toLowerCase_idempotent].
      * unfold on_value, lower_case_channel in *. cbn [fst snd] in *. exact Hold.
Qed.

Lemma exec_keeps_channels_lower_case_witness :
  Forall lower_case_channel
         (store_entries
            (db_file (snd (Say.exec Sample.env0 ""
                             ["hello"; "every"; "1:30"; "on"; "Lobby"; "named"; "greeter"]
                             (Sample.fresh Sample.one_task))))).
Proof.
  apply exec_keeps_channels_lower_case.
  constructor; [|constructor].
  unfold lower_case_channel. cbn.
  repeat constructor; intros H; try discriminate H; eexists; split; reflexivity.
Defined.

(** ** Requests that are no command *)

Section Usage.

Lemma is_word_neq x s : x <> Some s -> Say.is_word x s = false.
Proof.
  destruct x as [t|]; cbn; auto. intros H.
  apply String.eqb_neq. congruence.
Qed.

Lemma modify_is_not_clear args :
  String.eqb (Str.join " " ("modify" :: args)) "clear task list" = false.
Proof. destruct args; reflexivity. Qed.

End Usage.

(** A request that is not the clear command, does not start with
    [modify] and does not end in [every _ on _ named _] after at least
    one word of message is answered with the usage text, whatever the
    store file is; the world is as before: no call of [parseSeconds], no
    write. *)
Theorem malformed_command_answers_usage e context request w :
  Str.join " " request <> "clear task list" ->
  nth_error request 0 <> Some "modify" ->
  (forall message every on name,
      message <> [] ->
      request <> (message ++ ["every"; every; "on"; on; "named"; name])%list) ->
  Say.exec e context request w = (Str (Say.usage e), w).
Proof.
  intros Hclear Hmodify Hshape. unfold Say.exec.
  apply String.eqb_neq in Hclear. rewrite Hclear.
  rewrite (is_word_neq _ _ Hmodify).
  set (cut := Say.splice_start _ _).
  destruct (orb _ _) eqn:Hu; [reflexivity|].
  apply orb_false_elim in Hu as [Hu Hnamed].
  apply orb_false_elim in Hu as [Hu Hon].
  apply orb_false_elim in Hu as [Hlen Hevery].
  apply negb_false_iff, is_word_eq in Hnamed, Hon, Hevery.
  pose proof (firstn_skipn cut request) as Esplit.
  remember (firstn cut request) as message eqn:Emsg.
  destruct (skipn cut request) as [|m0 [|every [|m2 [|on [|m4 [|name [|]]]]]]];
    try reflexivity.
  cbn in Hevery, Hon, Hnamed.
  injection Hevery as E1. injection Hon as E2. injection Hnamed as E3.
  subst m0 m2 m4.
  exfalso. apply (Hshape message every on name); [|now symmetry].
  intros E. rewrite E in Hlen. discriminate.
Qed.

Lemma malformed_command_answers_usage_witness :
  Say.exec Sample.env0 "" ["hello"; "every"; "5"; "in"; "lobby"; "named"; "greeter"]
           (Sample.fresh Sample.one_task)
  = (Str (Say.usage Sample.env0), Sample.fresh Sample.one_task).
Proof.
  apply malformed_command_answers_usage.
  - discriminate.
  - discriminate.
  - intros message every on name _ E.
    apply (f_equal (@rev string)) in E. rewrite rev_app_distr in E.
    cbn in E. discriminate.
Defined.

(** A modify command with fewer than two words after the task name, other
    than a removal, or with a field other than [say], [every], [on] and
    [named], is answered with the help text of modify; the world is as
    before: no call of [parseSeconds], no write. *)
Theorem incomplete_modify_answers_help e context args w :
  (forall name, args <> [name; "remove"] /\ args <> [name; "delete"]) ->
  (List.length args <= 2)%nat
  \/ (forall field, nth_error args 1 = Some field ->
                    ~ In field ["say"; "every"; "on"; "named"]) ->
  Say.exec e context ("modify" :: args) w = (Str (Say.modify e), w).
Proof.
  intros Hremoval Hshape. unfold Say.exec.
  rewrite modify_is_not_clear. cbn [nth_error Say.is_word].
  rewrite String.eqb_refl. cbn [skipn]. unfold Say.modifyTask.
  destruct args as [|name [|field [|v1 rest]]];
    cbn -[Say.updateTaskList String.eqb Say.checkRegexNotMatch Say.call_parseSeconds
          Str.join]; try reflexivity.
  - destruct (Hremoval name) as [Hr Hd].
    destruct (String.eqb_spec field "remove") as [->|_]; [congruence|].
    destruct (String.eqb_spec field "delete") as [->|_]; [congruence|].
    reflexivity.
  - destruct Hshape as [Hlen|Hfield]; [cbn in Hlen; lia|].
    specialize (Hfield field eq_refl). cbn [In] in Hfield.
    destruct (String.eqb_spec field "say") as [->|_]; [tauto|].
    destruct (String.eqb_spec field "every") as [->|_]; [tauto|].
    destruct (String.eqb_spec field "on") as [->|_]; [tauto|].
    destruct (String.eqb_spec field "named") as [->|_]; [tauto|].
    reflexivity.
Qed.

Lemma incomplete_modify_answers_help_witness :
  Say.exec Sample.env0 "" ["modify"; "bot-task"; "channel"; "lobby"]
           (Sample.fresh Sample.one_task)
  = (Str (Say.modify Sample.env0), Sample.fresh Sample.one_task).
Proof.
  apply incomplete_modify_answers_help.
  - intros name. split; discriminate.
  - right. intros field E. injection E as <-. cbn [In].
    intros [H|[H|[H|[H|[]]]]]; discriminate.
Defined.

(** ** A task that is created and removed; replies and writes *)

Section RoundTrip.
Context {A : Type}.
Implicit Types (o : list (string * A)) (k : string) (v : A).





End RoundTrip.

Section Valid.

(** What [updateTaskList] does on a well-formed store, up to the
    operation itself. *)
Lemma updateTaskList_try_well_formed taskName type updatedTask props indent tr :
  well_formed props ->
  Say.updateTaskList_try taskName type updatedTask
    {| db_file := Document (JArr [JObj props]) indent; trace := tr |}
  = let w := {| db_file := Document (JArr [JObj props]) indent; trace := tr |} in
    let tasks := JS.of_json props in
    let key := Say.name_key taskName in
    let persist tasks' returnedValue :=
      (Str returnedValue, write_file (JArr [JObj (JS.to_json tasks')]) 4 w) in
    match type with
    | Create =>
        if JS.truthy (JS.get tasks key)
        then inr (Str ("Task with name '" ++ key ++ "' already exists."), w)
        else inr (persist (JS.set tasks key (JS.VJson (JObj updatedTask)))
                          ("Task " ++ key ++ " activated on channel "
                                   ++ Say.channel_text updatedTask ++ "."))
    | Modify =>
        if negb (JS.truthy (JS.get tasks key))
        then inr (Str ("The task '" ++ key ++ "' does not exists."), w)
        else
          match JS.own updatedTask "named" with
          | Some named =>
              if Say.strict_neq taskName named
              then inr (persist
                          (JS.delete
                             (JS.set tasks (Say.to_display named) (JS.get tasks key))
                             key)
                          ("Task " ++ key ++ " successfully modified."))
              else inr (persist tasks ("Task " ++ key ++ " successfully modified."))
          | None =>
              inr (persist (JS.set tasks key
                              (JS.VJson (JObj (JS.merge (JS.spread (JS.get tasks key))
                                                        updatedTask))))
                           ("Task " ++ key ++ " successfully modified."))
          end
    | Delete =>
        if negb (JS.truthy (JS.get tasks key))
        then inr (Str ("The task '" ++ key ++ "' does not exists."), w)
        else inr (persist (JS.delete tasks key)
                          ("Task " ++ key ++ " successfully removed."))
    end.
Proof.
  intros Hwf. unfold Say.updateTaskList_try, Say.validateJSON.
  cbn [db_file read_store bind].
  rewrite (well_formed_matches props Hwf).
  cbn [bind negb Say.first_of]. reflexivity.
Qed.

End Valid.



Section Outcome.

Lemma writes_app a b : writes (a ++ b) = (writes a ++ writes b)%list.
Proof. apply filter_app. Qed.

Lemma no_write_writes w w1 :
  no_write w w1 -> db_file w1 = db_file w /\ writes (trace w1) = writes (trace w).
Proof.
  intros [|arg]; [auto|]. cbn [db_file trace]. split; [reflexivity|].
  rewrite writes_app. cbn. apply app_nil_r.
Qed.

(** [updateTaskList] confirms and writes once, or it leaves the world
    as it is. *)
Lemma updateTaskList_outcome taskName type updatedTask w :
  snd (Say.updateTaskList taskName type updatedTask w) = w
  \/ (confirmation (fst (Say.updateTaskList taskName type updatedTask w))
      /\ exists doc indent,
          snd (Say.updateTaskList taskName type updatedTask w) = write_file doc indent w).
Proof.
  unfold Say.updateTaskList, Say.updateTaskList_try.
  destruct (db_file w) as [| text | JSONfile ind]; cbn [read_store bind]; auto.
  destruct (Say.validateJSON JSONfile _) as [err | [|]]; cbn [bind negb]; auto.
  destruct (Say.first_of JSONfile) as [err | [[| b | z | s | items | props] | | |]];
    cbn [bind]; auto.
  destruct type;
    repeat match goal with
           | |- context [if ?b then _ else _] => destruct b
           | |- context [match JS.own ?o ?k with _ => _ end] => destruct (JS.own o k)
           end;
    cbn [fst snd]; auto; right; (split; [constructor | eauto]).
Qed.

End Outcome.

(** A command changes the store file only when it confirms: with any
    other reply, a usage text, a complaint about a word, the refusal of a
    name or of the store, or [false], the file is as before and nothing
    was written.  When it confirms, it has written exactly once. *)
Theorem store_written_only_with_confirmation e context request w :
  let r := Say.exec e context request w in
  (confirmation (fst r)
   /\ exists doc indent,
       db_file (snd r) = Document doc indent
       /\ writes (trace (snd r)) = (writes (trace w) ++ [FileWritten doc indent])%list)
  \/ (db_file (snd r) = db_file w /\ writes (trace (snd r)) = writes (trace w)).
Proof.
  intros r. subst r.
  destruct (exec_cases e context request w)
    as [H | [E | (taskName & type & patch & w1 & Hd & H & E)]].
  - right. now apply no_write_writes.
  - left. rewrite E. cbn [fst snd]. split; [constructor|].
    exists empty_doc, 2%nat. split; [reflexivity|].
    cbn [write_file trace]. rewrite writes_app. reflexivity.
  - rewrite E. apply no_write_writes in H as [Hfile Hwrites].
    destruct (updateTaskList_outcome taskName type patch w1)
      as [Esame | (Hconf & doc & indent & Ewrite)].
    + right. rewrite Esame. auto.
    + left. split; [assumption|]. exists doc, indent. rewrite Ewrite.
      split; [reflexivity|].
      cbn [write_file trace]. rewrite writes_app, Hwrites. reflexivity.
Qed.

(** ** The range checks of the interval parser *)

Section RangeChecks.

Lemma invalid_date_nonneg t : 0 <= t -> Say.invalid_date t = (Say.max_time <? t).
Proof. intros H. unfold Say.invalid_date. now rewrite Z.abs_eq. Qed.

(** The test of one component: it is skipped for a component that is
    zero, and then the clock alone is in range. *)
Lemma component_check epox v :
  0 <= epox <= Say.max_time -> 0 <= v ->
  (negb (v =? 0) && Say.invalid_date (epox + v))%bool = (Say.max_time <? epox + v).
Proof.
  intros He Hv. rewrite invalid_date_nonneg by lia.
  destruct (Z.eqb_spec v 0) as [->|Hne]; cbn [negb andb]; [|reflexivity].
  symmetry. apply Z.ltb_ge. lia.
Qed.

End RangeChecks.

(** What [parseSeconds] answers near the end of the range of [Date],
    for the three forms that the field validator accepts: zero as soon
    as the clock plus the seconds, plus sixty times the minutes or plus
    3600 times the hours, each taken alone, or the total without the
    clock, is past the last time value; the total otherwise. *)
Theorem parseSeconds_range_checks epox :
  0 <= epox <= Say.max_time ->
  (forall s,
      Str.is_digits s = true ->
      let seconds := Str.digits_value s in
      Say.parseSeconds epox s
      = if (Say.max_time <? epox + seconds) || (Say.max_time <? seconds)
        then 0 else seconds)
  /\ (forall m s,
         Str.is_digits m = true -> Str.is_digits s = true ->
         let minutes := Str.digits_value m in
         let seconds := Str.digits_value s in
         let total := minutes * 60 + seconds in
         Say.parseSeconds epox (m ++ ":" ++ s)
         = if (Say.max_time <? epox + seconds) || (Say.max_time <? epox + minutes * 60)
              || (Say.max_time <? total)
           then 0 else total)
  /\ (forall h m s,
         Str.is_digits h = true -> Str.is_digits m = true -> Str.is_digits s = true ->
         let hours := Str.digits_value h in
         let minutes := Str.digits_value m in
         let seconds := Str.digits_value s in
         let total := hours * 3600 + minutes * 60 + seconds in
         Say.parseSeconds epox (h ++ ":" ++ m ++ ":" ++ s)
         = if (Say.max_time <? epox + seconds) || (Say.max_time <? epox + minutes * 60)
              || (Say.max_time <? epox + hours * 3600) || (Say.max_time <? total)
           then 0 else total).
Proof.
  intros He.
  assert (Hweight : forall v w,
             0 <= v -> 0 < w ->
             (negb (v =? 0) && Say.invalid_date (epox + v * w))%bool
             = (Say.max_time <? epox + v * w)).
  { intros v w Hv Hw. rewrite invalid_date_nonneg by nia.
    destruct (Z.eqb_spec v 0) as [->|Hne]; cbn [negb andb]; [|reflexivity].
    symmetry. apply Z.ltb_ge. lia. }
  split; [|split].
  - intros s Hs seconds.
    pose proof (digits_value_nonneg s).
    unfold Say.parseSeconds. rewrite split_one by assumption.
    cbn [map]. rewrite !parseInt_digits by assumption.
    cbn [Say.truthy_part Say.part_value andb orb]. fold seconds.
    rewrite !orb_false_r.
    rewrite (component_check epox seconds) by (subst seconds; lia).
    destruct (Say.max_time <? epox + seconds); [reflexivity|]. cbn [orb].
    replace (if negb (seconds =? 0) then 0 + seconds else 0) with seconds
      by (destruct (Z.eqb_spec seconds 0); cbn [negb]; lia).
    now rewrite invalid_date_nonneg by (subst seconds; lia).
  - intros m s Hm Hs minutes seconds total.
    pose proof (digits_value_nonneg m). pose proof (digits_value_nonneg s).
    unfold Say.parseSeconds.
    rewrite !split_cons, split_one by assumption.
    cbn [map]. rewrite !parseInt_digits by assumption.
    cbn [Say.truthy_part Say.part_value andb orb]. fold minutes seconds.
    rewrite !orb_false_r.
    rewrite (component_check epox seconds) by (subst seconds; lia).
    rewrite (Hweight minutes 60) by (subst minutes; lia).
    destruct (orb _ _) eqn:Hchecks; [reflexivity|]. cbn [orb].
    replace (if negb (minutes =? 0)
             then (if negb (seconds =? 0) then 0 + seconds else 0) + minutes * 60
             else if negb (seconds =? 0) then 0 + seconds else 0)
      with total
      by (subst total; destruct (Z.eqb_spec minutes 0);
          destruct (Z.eqb_spec seconds 0); cbn [negb]; lia).
    now rewrite invalid_date_nonneg by (subst total minutes seconds; lia).
  - intros h m s Hh Hm Hs hours minutes seconds total.
    pose proof (digits_value_nonneg h). pose proof (digits_value_nonneg m).
    pose proof (digits_value_nonneg s).
    unfold Say.parseSeconds.
    rewrite !split_cons, split_one by assumption.
    cbn [map]. rewrite !parseInt_digits by assumption.
    cbn [Say.truthy_part Say.part_value]. fold hours minutes seconds.
    rewrite (component_check epox seconds) by (subst seconds; lia).
    rewrite (Hweight minutes 60) by (subst minutes; lia).
    replace (hours * 60 * 60) with (hours * 3600) by lia.
    rewrite (Hweight hours 3600) by (subst hours; lia).
    destruct (orb _ _) eqn:Hchecks; [reflexivity|]. cbn [orb].
    replace (if negb (hours =? 0)
             then (if negb (minutes =? 0)
                   then (if negb (seconds =? 0) then 0 + seconds else 0)
                        + minutes * 60
                   else if negb (seconds =? 0) then 0 + seconds else 0)
                  + hours * 3600
             else if negb (minutes =? 0)
                  then (if negb (seconds =? 0) then 0 + seconds else 0)
                       + minutes * 60
                  else if negb (seconds =? 0) then 0 + seconds else 0)
      with total
      by (subst total; destruct (Z.eqb_spec hours 0);
          destruct (Z.eqb_spec minutes 0);
          destruct (Z.eqb_spec seconds 0); cbn [negb]; lia).
    now rewrite invalid_date_nonneg by (subst total hours minutes seconds; lia).
Qed.

Lemma parseSeconds_range_checks_witness :
  Say.parseSeconds 1700000000000 "2400000000000:0:1" = 0.
Proof.
  assert (Hclock : 0 <= 1700000000000 <= Say.max_time) by (split; discriminate).
  exact (proj2 (proj2 (parseSeconds_range_checks 1700000000000 Hclock))
           "2400000000000" "0" "1" eq_refl eq_refl eq_refl).
Defined.

(** ** What the store validator accepts *)

Section Synchronize.

Lemma append_split (a : string) : forall b x y,
  a ++ x = b ++ y ->
  exists c, (a = b ++ c /\ y = c ++ x) \/ (b = a ++ c /\ x = c ++ y).
Proof.
  induction a as [|ca a IH]; intros b x y E.
  - exists b. right. cbn in *. auto.
  - destruct b as [|cb b].
    + exists (String ca a). left. cbn in *. auto.
    + cbn in E. injection E as -> E.
      destruct (IH b x y E) as (c & [[-> ->] | [-> ->]]);
        exists c; [left | right]; auto.
Qed.

Lemma all_chars_append P a b :
  Str.all_chars P (a ++ b) = Str.all_chars P a && Str.all_chars P b.
Proof.
  induction a as [|c a IH]; cbn [append Str.all_chars]; [reflexivity|].
  now rewrite IH, andb_assoc.
Qed.

Lemma quote_char_shape c :
  (quote_char c = String c "" /\ plain_char c = true)
  \/ exists t, quote_char c = String Str.backslash t.
Proof.
  destruct c as [b0 b1 b2 b3 b4 b5 b6 b7].
  destruct b0, b1, b2, b3, b4, b5, b6, b7;
    first [ left; split; reflexivity | right; eexists; reflexivity ].
Qed.

(** A run of plain characters up to a double quote is the whole of a
    quoted string that starts at the same place. *)
Lemma sync_plain k : forall n x y,
  Str.all_chars plain_char n = true ->
  n ++ String Str.dquote x = quote_body k ++ String Str.dquote y ->
  n = k /\ quote_body k = k /\ x = y.
Proof.
  induction k as [|c k IH]; intros n x y Hn E; cbn [quote_body] in *.
  - destruct n as [|c' n']; cbn in E.
    + injection E as ->. auto.
    + injection E as -> _. discriminate Hn.
  - destruct (quote_char_shape c) as [[Ec Hc] | (t & Ec)]; rewrite Ec in *.
    + destruct n as [|c' n']; cbn in E.
      * injection E as <- _. discriminate Hc.
      * injection E as -> E. cbn in Hn. apply andb_prop in Hn as [_ Hn].
        destruct (IH n' x y Hn E) as (-> & Ek & ->).
        cbn [append]. now rewrite Ek.
    + destruct n as [|c' n']; cbn in E.
      * discriminate E.
      * injection E as -> _. discriminate Hn.
Qed.

Lemma name_char_is_plain c : is_name_char c = true -> plain_char c = true.
Proof.
  destruct c as [b0 b1 b2 b3 b4 b5 b6 b7].
  destruct b0, b1, b2, b3, b4, b5, b6, b7;
    vm_compute; intros H; try discriminate H; reflexivity.
Qed.

Lemma no_bare_quote_app a : forall p b,
  no_bare_quote p (a ++ b) = no_bare_quote p a && no_bare_quote (last_char p a) b.
Proof.
  induction a as [|c a IH]; intros p b; cbn [append no_bare_quote].
  - reflexivity.
  - now rewrite IH, andb_assoc.
Qed.

Lemma no_bare_quote_char c p : no_bare_quote p (quote_char c) = true.
Proof.
  destruct c as [b0 b1 b2 b3 b4 b5 b6 b7].
  destruct b0, b1, b2, b3, b4, b5, b6, b7; reflexivity.
Qed.

Lemma no_bare_quote_body s : forall p, no_bare_quote p (quote_body s) = true.
Proof.
  induction s as [|c s IH]; intros p; cbn [quote_body]; [reflexivity|].
  now rewrite no_bare_quote_app, no_bare_quote_char, IH.
Qed.

Import Regex.

Lemma not_quote_class c :
  class_mem true [(Str.dquote, Str.dquote)] c = negb (Ascii.eqb c Str.dquote).
Proof.
  destruct c as [b0 b1 b2 b3 b4 b5 b6 b7].
  destruct b0, b1, b2, b3, b4, b5, b6, b7; reflexivity.
Qed.

(** In the text of a message, as the pattern reads it, a double quote
    comes after a backslash. *)
Lemma no_bare_quote_message msg :
  lang message_re msg -> forall p, no_bare_quote p msg = true.
Proof.
  unfold message_re. intros H.
  remember (Star (Alt not_quote (Seq (Chr Str.backslash) (Chr Str.dquote)))) as r eqn:Er.
  induction H as [| | | | | | | r0 s1 s2 H1 _ H2 IH2 | |]; try discriminate;
    intros p; [reflexivity|].
  injection Er as ->. specialize (IH2 eq_refl).
  apply lang_Alt_inv in H1 as [H1|H1].
  - apply lang_Class_inv in H1 as (c & -> & Hc). rewrite not_quote_class in Hc.
    cbn [append no_bare_quote]. now rewrite Hc, IH2.
  - apply lang_Seq_inv in H1 as (a & b & -> & Ha & Hb).
    apply lang_Chr_inv in Ha, Hb. subst a b.
    cbn [append no_bare_quote]. rewrite IH2. reflexivity.
Qed.

(** Inside a string of the serialized text, nothing that the pattern
    lets follow an entry can come: the quote that ends the string is
    followed by a colon, a comma or a closing bracket, never by a name. *)
Lemma follows_not_in_string q rest :
  no_bare_quote "}" q = true ->
  no_name_start rest = true ->
  ~ follows (q ++ String Str.dquote rest).
Proof.
  intros Hq Hrest H. inversion H as [E | c t Hc E | c t Hc E]; clear H.
  - destruct q as [|c0 [|c1 [|c2 q]]]; cbn in E; try discriminate E.
  - destruct q as [|c0 q]; cbn in E.
    + injection E as <-. cbn in Hrest. now rewrite Hc in Hrest.
    + injection E as <- _. discriminate Hq.
  - destruct q as [|c0 [|c1 q]]; cbn in E.
    + discriminate E.
    + injection E as <- <-. cbn in Hrest. now rewrite Hc in Hrest.
    + injection E as <- <- _. discriminate Hq.
Qed.

Lemma plain_has_no_quote u x t :
  Str.all_chars plain_char t = true -> t <> u ++ String Str.dquote x.
Proof.
  intros H ->. rewrite all_chars_append in H. apply andb_prop in H as [_ H].
  discriminate H.
Qed.

Lemma last_char_plain u : forall p,
  Str.all_chars plain_char u = true ->
  Ascii.eqb p Str.backslash = false ->
  Ascii.eqb (last_char p u) Str.backslash = false.
Proof.
  induction u as [|c u IH]; intros p H Hp; cbn in *; [assumption|].
  apply andb_prop in H as [Hc Hu]. apply IH; [assumption|].
  unfold plain_char in Hc. apply andb_prop in Hc as [_ Hc].
  now apply negb_true_iff in Hc.
Qed.

(** A closing brace and what follows an entry cannot be the start of a
    serialized string. *)
Lemma brace_not_in_string s rest X :
  follows X ->
  no_name_start rest = true ->
  String "}" X <> quote_body s ++ String Str.dquote rest.
Proof.
  intros HX Hrest E.
  destruct (quote_body s) as [|s0 q] eqn:Es; cbn in E; [discriminate E|].
  injection E as <- E.
  pose proof (no_bare_quote_body s "x"%char) as Hs. rewrite Es in Hs.
  cbn [no_bare_quote] in Hs. apply andb_prop in Hs as [_ Hs].
  apply (follows_not_in_string q rest Hs Hrest). now rewrite <- E.
Qed.

(** The text of a message as the pattern reads it, up to its closing
    quote and the closing brace of the record, is the text of the
    message as it was serialized. *)
Lemma message_sync msg X m Z :
  lang message_re msg ->
  follows X ->
  no_name_start Z = true ->
  first_quote_opens Z ->
  msg ++ String Str.dquote (String "}" X) = quote_body m ++ String Str.dquote Z ->
  msg = quote_body m /\ String "}" X = Z.
Proof.
  intros Hmsg HX HZ Hfq E.
  destruct (append_split _ _ _ _ E) as (c & [[Emsg EZ] | [Em EX]]).
  - (* the pattern reads at least as far as the message goes *)
    destruct c as [|c0 c].
    + rewrite append_empty_r in Emsg. cbn in EZ. injection EZ as EZ. auto.
    + exfalso. cbn in EZ. injection EZ as <- EZ.
      (* the closing quote is read as part of the message *)
      pose proof (no_bare_quote_message msg Hmsg "}"%char) as Hnb.
      rewrite Emsg, no_bare_quote_app in Hnb. apply andb_prop in Hnb as [_ Hnb].
      cbn [no_bare_quote] in Hnb. apply andb_prop in Hnb as [_ Hnb].
      inversion Hfq as [t Ht Et | u s rest Hu Hrest Et].
      * subst t. now apply (plain_has_no_quote c (String "}" X) Z).
      * rewrite <- Et in EZ.
        destruct (append_split _ _ _ _ EZ) as (d & [[Eu Ed] | [Ec Ed]]).
        -- destruct d as [|d0 d]; cbn in Ed.
           ++ injection Ed as Ed.
              now apply (brace_not_in_string s rest X).
           ++ injection Ed as <- _. subst u.
              rewrite all_chars_append in Hu. apply andb_prop in Hu as [_ Hu].
              discriminate Hu.
        -- destruct d as [|d0 d]; cbn in Ed.
           ++ injection Ed as Ed.
              apply (brace_not_in_string s rest X); auto.
           ++ injection Ed as <- _. subst c.
              rewrite no_bare_quote_app in Hnb. apply andb_prop in Hnb as [_ Hnb].
              cbn [no_bare_quote] in Hnb. apply andb_prop in Hnb as [Hnb _].
              rewrite (last_char_plain u Str.dquote Hu eq_refl) in Hnb.
              discriminate Hnb.
  - (* the pattern ends the message inside the serialized message *)
    destruct c as [|c0 c]; cbn in EX.
    + rewrite append_empty_r in Em. injection EX as EX. auto.
    + exfalso. injection EX as <- EX.
      destruct c as [|c1 c]; cbn in EX; [discriminate EX|].
      injection EX as <- EX.
      pose proof (no_bare_quote_body m "x"%char) as Hnb.
      rewrite Em, no_bare_quote_app in Hnb. apply andb_prop in Hnb as [_ Hnb].
      cbn [no_bare_quote] in Hnb.
      apply andb_prop in Hnb as [_ Hnb]. apply andb_prop in Hnb as [_ Hnb].
      apply (follows_not_in_string c Z Hnb HZ). now rewrite <- EX.
Qed.

End Synchronize.

Section Values.

Lemma strip_trailing_zeros_chars P s :
  Str.all_chars P s = true -> Str.all_chars P (strip_trailing_zeros s) = true.
Proof.
  induction s as [|c s IH]; cbn [strip_trailing_zeros Str.all_chars]; [reflexivity|].
  intros H. apply andb_prop in H as [Hc Hs]. specialize (IH Hs).
  destruct (strip_trailing_zeros s) as [|d t].
  - destruct (Ascii.eqb c "0"); cbn; [reflexivity | now rewrite Hc].
  - cbn [Str.all_chars] in *. now rewrite Hc, IH.
Qed.

Lemma digit_is_number_char c : Str.is_digit c = true -> number_char c = true.
Proof. unfold number_char. now intros ->. Qed.

Lemma N_to_string_all_digits n : Str.all_chars Str.is_digit (N_to_string n) = true.
Proof. apply string_of_uint_digits. Qed.

Lemma number_to_string_chars z : Str.all_chars number_char (number_to_string z) = true.
Proof.
  assert (Hd : forall n, Str.all_chars number_char (N_to_string n) = true).
  { intros n. apply (all_chars_impl Str.is_digit); [apply digit_is_number_char|].
    apply N_to_string_all_digits. }
  assert (Hsign : Str.all_chars number_char (if z <? 0 then "-" else "") = true)
    by (destruct (z <? 0); reflexivity).
  unfold number_to_string. cbv zeta.
  destruct (Z.abs_N z <? 10 ^ 21)%N.
  - rewrite all_chars_append, Hsign. apply Hd.
  - pose proof (Hd (Z.abs_N z)) as Hn.
    destruct (N_to_string (Z.abs_N z)) as [|d rest]; [assumption|].
    cbn [Str.all_chars] in Hn. apply andb_prop in Hn as [Hd0 Hrest].
    rewrite !all_chars_append, Hsign. cbn [Str.all_chars andb].
    rewrite Hd0. cbn [andb].
    rewrite Hd, andb_true_r.
    destruct (String.eqb (strip_trailing_zeros rest) ""); [reflexivity|].
    cbn [append Str.all_chars]. cbn.
    now apply strip_trailing_zeros_chars.
Qed.

(** A number that prints as digits only is not negative and below
    10^21. *)
Lemma number_to_string_digits_inv z :
  Str.all_chars Str.is_digit (number_to_string z) = true -> 0 <= z < 10 ^ 21.
Proof.
  unfold number_to_string. cbv zeta.
  destruct (Z.ltb_spec z 0) as [Hneg|Hpos].
  - assert (Hsign : forall x, Str.all_chars Str.is_digit ("-" ++ x) = false)
      by reflexivity.
    cbv iota.
    destruct (Z.abs_N z <? 10 ^ 21)%N.
    + now rewrite Hsign.
    + destruct (N_to_string (Z.abs_N z)); [discriminate | now rewrite Hsign].
  - cbv iota. destruct (N.ltb_spec (Z.abs_N z) (10 ^ 21)) as [Hlt|Hge].
    + intros _. split; [assumption|].
      apply N2Z.inj_lt in Hlt. rewrite N2Z.inj_abs_N, Z.abs_eq in Hlt by assumption.
      exact Hlt.
    + destruct (N_to_string_head (Z.abs_N z)) as (d & rest & -> & _).
      cbn [append Str.all_chars]. rewrite !all_chars_append.
      assert (He : forall x, Str.all_chars Str.is_digit (String "e" x) = false)
        by reflexivity.
      rewrite He, !andb_false_r. discriminate.
Qed.

Lemma number_char_cases c :
  number_char c = true -> plain_char c = true /\ Ascii.eqb c "," = false.
Proof.
  destruct c as [b0 b1 b2 b3 b4 b5 b6 b7].
  destruct b0, b1, b2, b3, b4, b5, b6, b7;
    vm_compute; intros H; try discriminate H; split; reflexivity.
Qed.

(** What a serialized value starts with tells its kind. *)
Lemma stringify_head v :
  match v with
  | JNull => stringify v = "null"
  | JBool true => stringify v = "true"
  | JBool false => stringify v = "false"
  | JNum _ => exists c rest, stringify v = String c rest
                             /\ (Str.is_digit c = true \/ c = "-"%char)
  | JStr _ => exists rest, stringify v = String Str.dquote rest
  | JArr _ => exists rest, stringify v = String "[" rest
  | JObj _ => exists rest, stringify v = String "{" rest
  end.
Proof.
  destruct v as [| [|] | z | s | items | fields]; cbn [stringify]; eauto.
  - apply number_to_string_head.
  - unfold quote. eauto.
  - cbn. eauto.
  - cbn. eauto.
Qed.

Lemma stringify_brace v t rest :
  stringify v ++ t = String "{" rest -> exists fields, v = JObj fields.
Proof.
  pose proof (stringify_head v) as H.
  destruct v as [| [|] | z | s | items | fields]; eauto.
  - rewrite H. discriminate.
  - rewrite H. discriminate.
  - rewrite H. discriminate.
  - destruct H as (c & u & -> & Hc); cbn; intros E; injection E as -> _.
    destruct Hc as [Hc|Hc]; discriminate Hc.
  - destruct H as (u & ->). discriminate.
  - destruct H as (u & ->). discriminate.
Qed.

Lemma stringify_quote v t rest :
  stringify v ++ t = String Str.dquote rest -> exists s, v = JStr s.
Proof.
  pose proof (stringify_head v) as H.
  destruct v as [| [|] | z | s | items | fields]; eauto.
  - rewrite H. discriminate.
  - rewrite H. discriminate.
  - rewrite H. discriminate.
  - destruct H as (c & u & -> & Hc); cbn; intros E; injection E as -> _.
    destruct Hc as [Hc|Hc]; discriminate Hc.
  - destruct H as (u & ->). discriminate.
  - destruct H as (u & ->). discriminate.
Qed.

Lemma stringify_digit v t c rest :
  Str.is_digit c = true ->
  stringify v ++ t = String c rest -> exists z, v = JNum z.
Proof.
  intros Hc. pose proof (stringify_head v) as H.
  destruct v as [| [|] | z | s | items | fields]; eauto.
  - rewrite H. intros E. injection E as <- _. discriminate Hc.
  - rewrite H. intros E. injection E as <- _. discriminate Hc.
  - rewrite H. intros E. injection E as <- _. discriminate Hc.
  - destruct H as (u & ->). intros E. injection E as <- _. discriminate Hc.
  - destruct H as (u & ->). intros E. injection E as <- _. discriminate Hc.
  - destruct H as (u & ->). intros E. injection E as <- _. discriminate Hc.
Qed.

End Values.

Section JsonInduction.
Variable P : json -> Prop.
Hypothesis Hnull : P JNull.
Hypothesis Hbool : forall b, P (JBool b).
Hypothesis Hnum : forall z, P (JNum z).
Hypothesis Hstr : forall s, P (JStr s).
Hypothesis Harr : forall items, Forall P items -> P (JArr items).
Hypothesis Hobj : forall props, P (JObj props).

(** Induction on a document through the elements of its arrays. *)
Fixpoint json_elements_ind (j : json) : P j :=
  match j with
  | JNull => Hnull
  | JBool b => Hbool b
  | JNum z => Hnum z
  | JStr s => Hstr s
  | JArr items =>
      Harr items
           ((fix go (l : list json) : Forall P l :=
               match l with
               | [] => Forall_nil P
               | x :: rest => Forall_cons x (json_elements_ind x) (go rest)
               end) items)
  | JObj props => Hobj props
  end.

End JsonInduction.

Section Texts.

Lemma join_tail (f : string) (l : list string) (t : string) :
  Str.join "," (f :: l) ++ t
  = f ++ fold_right (fun x acc => String "," (x ++ acc)) t l.
Proof.
  revert f. induction l as [|g l IH]; intros f.
  - reflexivity.
  - change (Str.join "," (f :: g :: l)) with (f ++ "," ++ Str.join "," (g :: l)).
    rewrite !append_assoc. cbn [append fold_right]. now rewrite IH.
Qed.

Lemma field_text k v t :
  (quote k ++ ":" ++ stringify v) ++ t
  = String Str.dquote (quote_body k ++ String Str.dquote (String ":" (stringify v ++ t))).
Proof.
  unfold quote. cbn [append]. rewrite !append_assoc. reflexivity.
Qed.

Lemma fields_fold rest t :
  fold_right (fun x acc => String "," (x ++ acc)) t
             (map (fun kv => quote (fst kv) ++ ":" ++ stringify (snd kv)) rest)
  = fields_tail rest t.
Proof.
  induction rest as [|kv rest IH]; cbn [map fold_right fields_tail]; [reflexivity|].
  now rewrite field_text, IH.
Qed.

Lemma items_fold rest t :
  fold_right (fun x acc => String "," (x ++ acc)) t (map stringify rest)
  = items_tail rest t.
Proof.
  induction rest as [|x rest IH]; cbn [map fold_right items_tail]; [reflexivity|].
  now rewrite IH.
Qed.

Lemma stringify_object_text props t :
  stringify (JObj props) ++ t
  = String "{"
      (match props with
       | [] => String "}" t
       | kv :: rest =>
           String Str.dquote
             (quote_body (fst kv)
                ++ String Str.dquote
                     (String ":" (stringify (snd kv) ++ fields_tail rest (String "}" t))))
       end).
Proof.
  destruct props as [|kv rest]; [reflexivity|].
  change (stringify (JObj (kv :: rest)))
    with ("{" ++ Str.join ","
                  (map (fun kv => quote (fst kv) ++ ":" ++ stringify (snd kv))
                       (kv :: rest)) ++ "}").
  cbn [map]. rewrite !append_assoc, join_tail, field_text, fields_fold. reflexivity.
Qed.

Lemma stringify_array_text items t :
  stringify (JArr items) ++ t
  = String "["
      (match items with
       | [] => String "]" t
       | x :: rest => stringify x ++ items_tail rest (String "]" t)
       end).
Proof.
  destruct items as [|x rest]; [reflexivity|].
  change (stringify (JArr (x :: rest)))
    with ("[" ++ Str.join "," (map stringify (x :: rest)) ++ "]").
  cbn [map]. rewrite !append_assoc, join_tail, items_fold. reflexivity.
Qed.

Lemma first_quote_prepend u t :
  Str.all_chars plain_char u = true ->
  first_quote_opens t -> first_quote_opens (u ++ t).
Proof.
  intros Hu [t' Ht | u' s rest Hu' Hrest].
  - constructor. now rewrite all_chars_append, Hu.
  - rewrite <- append_assoc. constructor; [|assumption].
    now rewrite all_chars_append, Hu.
Qed.

Lemma first_quote_string s rest :
  no_name_start rest = true ->
  first_quote_opens (String Str.dquote (quote_body s ++ String Str.dquote rest)).
Proof. intros H. now apply (first_quote_some "" s rest). Qed.

Lemma first_quote_fields rest t :
  first_quote_opens t -> first_quote_opens (fields_tail rest t).
Proof.
  intros Ht. destruct rest as [|kv rest]; [assumption|].
  cbn [fields_tail]. apply (first_quote_some "," (fst kv)); reflexivity.
Qed.

Lemma no_name_start_items rest t :
  no_name_start t = true -> no_name_start (items_tail rest t) = true.
Proof. destruct rest; [auto | reflexivity]. Qed.

Lemma first_quote_items items :
  Forall (fun j => forall t, no_name_start t = true -> first_quote_opens t ->
                             first_quote_opens (stringify j ++ t)) items ->
  forall t, no_name_start t = true -> first_quote_opens t ->
            first_quote_opens (items_tail items t).
Proof.
  induction 1 as [|x rest Hx _ IH]; intros t Hn Ht; cbn [items_tail]; [assumption|].
  apply (first_quote_prepend ","); [reflexivity|].
  apply Hx; [now apply no_name_start_items | now apply IH].
Qed.

(** After any serialized value, the first double quote of the text is
    still one that opens a string. *)
Lemma first_quote_stringify j :
  forall t, no_name_start t = true -> first_quote_opens t ->
            first_quote_opens (stringify j ++ t).
Proof.
  induction j as [| b | z | s | items IH | props] using json_elements_ind;
    intros t Hn Ht.
  - now apply (first_quote_prepend "null").
  - destruct b; [now apply (first_quote_prepend "true")
                | now apply (first_quote_prepend "false")].
  - apply first_quote_prepend; [|assumption].
    apply (all_chars_impl number_char); [|apply number_to_string_chars].
    intros c Hc. now apply number_char_cases.
  - cbn [stringify]. unfold quote. cbn [append]. rewrite append_assoc. cbn [append].
    now apply first_quote_string.
  - rewrite stringify_array_text. apply (first_quote_prepend "["); [reflexivity|].
    destruct items as [|x rest].
    + now apply (first_quote_prepend "]").
    + inversion IH as [|? ? Hx Hrest]; subst.
      apply Hx; [now apply no_name_start_items|].
      apply first_quote_items; auto. now apply (first_quote_prepend "]").
  - rewrite stringify_object_text. destruct props as [|kv rest].
    + now apply (first_quote_prepend "{}").
    + apply (first_quote_some "{" (fst kv)); reflexivity.
Qed.

End Texts.

Section Parsing.
Import Regex.

Lemma lang_Lit_inv s : forall t, lang (Lit s) t -> t = s.
Proof.
  induction s as [|c s IH]; intros t H; cbn [Lit] in H.
  - now apply lang_Eps_inv.
  - destruct s as [|d s].
    + now apply lang_Chr_inv.
    + apply lang_Seq_inv in H as (s1 & s2 & -> & H1 & H2).
      apply lang_Chr_inv in H1. apply IH in H2. now subst.
Qed.

(** The text of an entry and what comes after it, character by
    character. *)
Lemma entry_text_tail n d c msg X :
  entry_text n d c msg ++ X
  = String Str.dquote
      (n ++ String Str.dquote
         (":{" ++ String Str.dquote
            ("totalWaitInterval" ++ String Str.dquote
               (":" ++ d ++ "," ++ String Str.dquote
                  ("channel" ++ String Str.dquote
                     (":" ++ String Str.dquote
                        (c ++ String Str.dquote
                           ("," ++ String Str.dquote
                              ("taskMessage" ++ String Str.dquote
                                 (":" ++ String Str.dquote
                                    (msg ++ String Str.dquote (String "}" X)))))))))))).
Proof.
  unfold entry_text, Say.quoted. cbv zeta.
  repeat (first [rewrite !append_assoc | progress cbn [append]]). reflexivity.
Qed.

(** What the pattern of an entry stands for. *)
Lemma entry_re_inv e :
  lang Say.entry_re e ->
  exists n d c msg,
    matches Say.name_re n = true /\ Str.is_digits d = true
    /\ matches Say.channel_re c = true /\ lang message_re msg
    /\ e = entry_text n d c msg.
Proof.
  unfold Say.entry_re. cbn [seqs]. intros H.
  repeat match goal with
         | H : lang (Seq _ _) _ |- _ =>
             let s1 := fresh "s" in
             let s2 := fresh "s" in
             let H1 := fresh "H" in
             let H2 := fresh "H" in
             apply lang_Seq_inv in H as (s1 & s2 & -> & H1 & H2)
         end.
  repeat match goal with
         | H : lang (Chr _) _ |- _ => apply lang_Chr_inv in H; subst
         | H : lang (Lit _) _ |- _ => apply lang_Lit_inv in H; subst
         end.
  match goal with
  | Hn : lang (Rep 3 40 name_char) ?n, Hd : lang (Plus digit) ?d,
    Hc : lang (Rep 4 25 word) ?c, Hm : lang (Star _) ?m |- _ =>
      exists n, d, c, m;
      apply (matches_lang n (Rep 3 40 name_char) eq_refl) in Hn;
      apply (matches_lang c (Rep 4 25 word) eq_refl) in Hc;
      apply lang_Plus_digits in Hd
  end.
  repeat split; auto.
Qed.

Lemma name_re_head n :
  matches Say.name_re n = true ->
  Str.all_chars plain_char n = true
  /\ exists c rest, n = String c rest /\ is_name_char c = true.
Proof.
  rewrite matches_name_re. intros H. apply andb_prop in H as [Hlen Hall].
  split.
  - revert Hall. apply all_chars_impl, name_char_is_plain.
  - destruct n as [|c rest]; [discriminate Hlen|].
    cbn in Hall. apply andb_prop in Hall as [Hc _]. eauto.
Qed.

Lemma channel_re_plain c :
  matches Say.channel_re c = true -> Str.all_chars plain_char c = true.
Proof.
  rewrite matches_channel_re. intros H. apply andb_prop in H as [_ Hall].
  revert Hall. apply all_chars_impl. intros a Ha.
  now apply name_char_is_plain, word_char_name_char.
Qed.

Lemma entry_head e X :
  lang Say.entry_re e ->
  exists c rest, is_name_char c = true /\ e ++ X = String Str.dquote (String c rest).
Proof.
  intros H. apply entry_re_inv in H as (n & d & ch & msg & Hn & _ & _ & _ & ->).
  apply name_re_head in Hn as (_ & c & rest & -> & Hc).
  rewrite entry_text_tail. cbn [append]. eauto.
Qed.

Lemma continuation_follows X : continuation X -> follows X.
Proof.
  intros [| e X' He _ | e X' He _].
  - constructor.
  - destruct (entry_head e X' He) as (c & rest & Hc & ->). now constructor.
  - destruct (entry_head e X' He) as (c & rest & Hc & ->). now constructor.
Qed.

(** Entries with a comma after each, and then an entry. *)
Lemma group_continuation t :
  lang (Star (Seq Say.entry_re (Chr ","))) t ->
  forall e X, lang Say.entry_re e -> continuation X ->
  exists e1 X1, lang Say.entry_re e1 /\ continuation X1 /\ t ++ e ++ X = e1 ++ X1.
Proof.
  intros H. remember (Star (Seq Say.entry_re (Chr ","))) as r eqn:Er.
  induction H as [| | | | | | | r0 s1 s2 H1 _ H2 IH2 | |]; try discriminate;
    intros e X He HX.
  - exists e, X. auto.
  - injection Er as ->. specialize (IH2 eq_refl e X He HX).
    destruct IH2 as (e1 & X1 & He1 & HX1 & E).
    apply lang_Seq_inv in H1 as (e0 & comma & -> & He0 & Hcomma).
    apply lang_Chr_inv in Hcomma. subst comma.
    exists e0, (String "," (e1 ++ X1)). repeat split; auto.
    + now constructor.
    + rewrite !append_assoc, E. reflexivity.
Qed.

(** What the pattern reads between the braces of the mapping, and then
    the end of the document. *)
Lemma store_continuation body :
  lang (Star (Seq (Star (Seq Say.entry_re (Chr ","))) Say.entry_re)) body ->
  continuation (body ++ "}]").
Proof.
  intros H.
  remember (Star (Seq (Star (Seq Say.entry_re (Chr ","))) Say.entry_re)) as r eqn:Er.
  induction H as [| | | | | | | r0 s1 s2 H1 _ H2 IH2 | |]; try discriminate.
  - constructor.
  - injection Er as ->. specialize (IH2 eq_refl).
    apply lang_Seq_inv in H1 as (t & e & -> & Ht & He).
    destruct (group_continuation t Ht e _ He IH2) as (e1 & X1 & He1 & HX1 & E).
    rewrite !append_assoc, E. now constructor.
Qed.

Lemma digits_sync d N x y :
  Str.all_chars Str.is_digit d = true ->
  Str.all_chars number_char N = true ->
  (exists y', y = String "," y' \/ y = String "}" y') ->
  d ++ String "," x = N ++ y ->
  d = N /\ y = String "," x.
Proof.
  intros Hd HN (y' & Hy) E.
  destruct (append_split _ _ _ _ E) as (c & [[Ed Ey] | [EN Ex]]).
  - destruct c as [|c0 c].
    + rewrite append_empty_r in Ed. auto.
    + exfalso. rewrite Ed, all_chars_append in Hd.
      apply andb_prop in Hd as [_ Hd]. cbn in Hd. apply andb_prop in Hd as [Hc0 _].
      destruct Hy as [-> | ->]; cbn in Ey; injection Ey as <- _; discriminate Hc0.
  - destruct c as [|c0 c]; cbn in Ex.
    + rewrite append_empty_r in EN. auto.
    + exfalso. injection Ex as <- _. rewrite EN, all_chars_append in HN.
      apply andb_prop in HN as [_ HN]. discriminate HN.
Qed.

Lemma quote_text s t :
  quote s ++ t = String Str.dquote (quote_body s ++ String Str.dquote t).
Proof. unfold quote. cbn [append]. now rewrite append_assoc. Qed.

Lemma fields_tail_start rest t :
  exists y', fields_tail rest (String "}" t) = String "," y'
             \/ fields_tail rest (String "}" t) = String "}" y'.
Proof. destruct rest; cbn [fields_tail]; eauto. Qed.

(** An entry as the pattern reads it, in front of what may follow an
    entry, is exactly one serialized entry of the mapping, and that
    entry is well formed. *)
Lemma entry_sync e X k v W :
  lang Say.entry_re e ->
  follows X ->
  first_quote_opens (String "}" W) ->
  e ++ X
  = String Str.dquote (quote_body k ++ String Str.dquote (String ":" (stringify v ++ W))) ->
  well_formed_entry (k, v) /\ X = W.
Proof.
  intros He HX HW E.
  apply entry_re_inv in He as (n & d & c & msg & Hn & Hd & Hc & Hmsg & ->).
  rewrite entry_text_tail in E. injection E as E.
  pose proof (name_re_head n Hn) as (Hnp & _).
  apply sync_plain in E as (-> & _ & E); [|assumption].
  cbn [append] in E. injection E as E.
  symmetry in E. destruct (stringify_brace _ _ _ E) as (fields & ->).
  rewrite stringify_object_text in E. injection E as E.
  destruct fields as [|[k1 v1] fields]; [discriminate E|]. cbn [fst snd] in E.
  injection E as E. symmetry in E.
  apply (sync_plain k1 "totalWaitInterval") in E as (<- & _ & E); [|reflexivity].
  cbn [append] in E. injection E as E.
  (* the interval *)
  assert (Hdd : Str.all_chars Str.is_digit d = true) by now apply is_digits_all.
  destruct d as [|d0 d']; [discriminate Hd|].
  symmetry in E.
  assert (Hd0 : Str.is_digit d0 = true)
    by (cbn in Hdd; now apply andb_prop in Hdd as [? _]).
  destruct (stringify_digit _ _ _ _ Hd0 E) as (z & ->).
  cbn [stringify] in E. symmetry in E.
  apply digits_sync in E as (Ed & E);
    [|assumption | apply number_to_string_chars | apply fields_tail_start].
  destruct fields as [|[k2 v2] fields]; [discriminate E|]. cbn [fields_tail fst snd] in E.
  injection E as E. symmetry in E.
  apply (sync_plain k2 "channel") in E as (<- & _ & E); [|reflexivity].
  cbn [append] in E. injection E as E.
  (* the channel *)
  symmetry in E. destruct (stringify_quote _ _ _ E) as (ch & ->).
  cbn [stringify] in E. rewrite quote_text in E. injection E as E. symmetry in E.
  apply sync_plain in E as (-> & _ & E); [|now apply channel_re_plain].
  destruct fields as [|[k3 v3] fields]; [discriminate E|]. cbn [fields_tail fst snd] in E.
  injection E as E.
  apply (sync_plain k3 "taskMessage") in E as (<- & _ & E); [|reflexivity].
  cbn [append] in E. injection E as E.
  (* the message *)
  symmetry in E. destruct (stringify_quote _ _ _ E) as (m & ->).
  cbn [stringify] in E. rewrite quote_text in E. injection E as E. symmetry in E.
  apply message_sync in E as (-> & E); auto.
  - destruct fields as [|kv4 fields]; cbn [fields_tail] in E; [|discriminate E].
    injection E as ->. split; [|reflexivity].
    apply (wf_entry k z ch m); auto.
    apply number_to_string_digits_inv. now rewrite <- Ed.
  - destruct fields; reflexivity.
  - now apply first_quote_fields.
Qed.

End Parsing.

Section Soundness.
Import Regex.

Lemma first_quote_after_entry rest R :
  first_quote_opens (String "}" (String "}" R)) ->
  first_quote_opens (String "}" (fields_tail rest (String "}" R))).
Proof.
  intros H. destruct rest as [|kv rest]; [exact H|].
  cbn [fields_tail]. apply (first_quote_some "}," (fst kv)); reflexivity.
Qed.

(** The entries that the pattern reads after an entry are the entries
    that were serialized, and the document ends with the mapping. *)
Lemma entries_sync rest R :
  first_quote_opens (String "}" (String "}" R)) ->
  forall X, continuation X ->
            X = fields_tail rest (String "}" R) ->
            well_formed rest /\ R = "]".
Proof.
  intros HR. induction rest as [|[k v] rest IH]; intros X HX E; cbn [fields_tail] in E.
  - split; [constructor|].
    destruct HX as [| e X' He _ | e X' He _].
    + now injection E as <-.
    + destruct (entry_head e X' He) as (c & t & _ & E'). rewrite E' in E. discriminate E.
    + discriminate E.
  - cbn [fst snd] in E. destruct HX as [| e X' He HX' | e X' He HX'].
    + discriminate E.
    + destruct (entry_head e X' He) as (c & t & _ & E'). rewrite E' in E. discriminate E.
    + injection E as E.
      apply entry_sync in E as (Hkv & E); auto.
      * destruct (IH X' HX' E) as (Hrest & HR'). split; [now constructor | assumption].
      * now apply continuation_follows.
      * now apply first_quote_after_entry.
Qed.

Lemma first_quote_rest others :
  first_quote_opens (String "}" (String "}" (items_tail others "]"))).
Proof.
  apply (first_quote_prepend "}}"); [reflexivity|].
  apply first_quote_items.
  - apply Forall_forall. intros j _. apply first_quote_stringify.
  - reflexivity.
  - now constructor.
Qed.

(** A document that fits the pattern of the store is a one-element
    sequence whose mapping is well formed. *)
Lemma store_sync props others :
  lang Say.taskList (stringify (JArr (JObj props :: others))) ->
  well_formed props /\ others = [].
Proof.
  intros H.
  rewrite <- (append_empty_r (stringify _)), stringify_array_text in H.
  rewrite stringify_object_text in H.
  rewrite taskList_unfold in H. cbn [seqs] in H.
  apply lang_Seq_inv in H as (b1 & t1 & E1 & Hb1 & H).
  apply lang_Seq_inv in H as (b2 & t2 & -> & Hb2 & H).
  apply lang_Seq_inv in H as (body & t3 & -> & Hbody & H).
  apply lang_Seq_inv in H as (b3 & b4 & -> & Hb3 & Hb4).
  apply lang_Chr_inv in Hb1, Hb2, Hb3, Hb4. subst b1 b2 b3 b4.
  cbn [append] in E1. injection E1 as E1.
  apply store_continuation in Hbody.
  change (String "}" "]") with "}]" in E1.
  set (R := items_tail others "]") in *.
  assert (HR : first_quote_opens (String "}" (String "}" R)))
    by apply first_quote_rest.
  assert (Hend : R = "]" -> others = []).
  { subst R. destruct others; [reflexivity | discriminate]. }
  destruct props as [|[k v] rest].
  - destruct (entries_sync [] R HR _ Hbody (eq_sym E1)) as (_ & E).
    split; [constructor | auto].
  - cbn [fst snd] in E1. remember (body ++ "}]") as X eqn:EX.
    destruct Hbody as [| e X' He HX' | e X' He HX'].
    + discriminate E1.
    + symmetry in E1. apply entry_sync in E1 as (Hkv & E1); auto.
      * destruct (entries_sync rest R HR X' HX' E1) as (Hrest & E).
        split; [now constructor | auto].
      * now apply continuation_follows.
      * now apply first_quote_after_entry.
    + discriminate E1.
Qed.

(** A document that the pattern of the store matches. *)
Lemma accepted_store_well_formed doc :
  matches Say.taskList (stringify doc) = true ->
  exists props, doc = JArr [JObj props] /\ well_formed props.
Proof.
  intros M. destruct (taskList_prefix _ M) as (rest & E).
  apply stringify_prefix in E as (props & others & ->).
  apply matches_lang in M; [|reflexivity].
  apply store_sync in M as (Hwf & ->). eauto.
Qed.

End Soundness.

(** The store validator accepts a document exactly when it is a
    one-element sequence that holds a mapping of well-formed entries:
    each name of 3 to 40 letters, digits, underscores and hyphens, each
    record with exactly the fields [totalWaitInterval], [channel] and
    [taskMessage] in this order, the interval a number that is not
    negative and below 10^21, the channel of 4 to 25 letters, digits and
    underscores, the message any string. *)
Theorem validateJSON_accepts_iff doc taskName :
  Say.validateJSON doc taskName = inr true
  <-> exists props, doc = JArr [JObj props] /\ well_formed props.
Proof.
  split.
  - unfold Say.validateJSON.
    destruct (Regex.matches Say.taskList (stringify doc)) eqn:M.
    + intros _. now apply accepted_store_well_formed.
    + destruct (Say.name_truthy taskName); [|discriminate].
      destruct (Say.first_of doc) as [err|tasks]; [discriminate|].
      destruct (Say.can_read_property tasks); discriminate.
  - intros (props & -> & Hwf). unfold Say.validateJSON.
    now rewrite well_formed_matches.
Qed.

(** ** A store that the validator rejects *)

Section Broken.

(** A document that the store validator does not accept stops every
    operation of the task store. *)
Lemma rejected_store_refuses props taskName type updatedTask indent tr :
  ~ well_formed props ->
  Say.updateTaskList taskName type updatedTask
    {| db_file := Document (JArr [JObj props]) indent; trace := tr |}
  = (Str "Invalid Task List.",
     {| db_file := Document (JArr [JObj props]) indent; trace := tr |}).
Proof.
  intros Hbad. unfold Say.updateTaskList, Say.updateTaskList_try.
  cbn [db_file read_store bind].
  assert (V : forall t, Say.validateJSON (JArr [JObj props]) t = inr false).
  { intros t.
    destruct (Say.validateJSON (JArr [JObj props]) t) as [err | [|]] eqn:V.
    - unfold Say.validateJSON in V.
      destruct (Regex.matches _ _); [discriminate V|].
      destruct (Say.name_truthy t); discriminate V.
    - exfalso. apply Hbad. unfold Say.validateJSON in V.
      destruct (Regex.matches _ _) eqn:M.
      + apply accepted_store_well_formed in M as (props' & E & Hwf).
        now injection E as ->.
      + destruct (Say.name_truthy t); discriminate V.
    - reflexivity. }
  rewrite V. reflexivity.
Qed.

End Broken.

(** A modify command for a name that is no task but a function that
    every object inherits, such as [toString] or [constructor], is
    confirmed, and it stores under that name a record that has only the
    field of the command.  The store validator rejects the outcome:
    every later operation of the task store is answered with
    [Invalid Task List.] and changes nothing. *)
Theorem modify_inherited_name_breaks_store
        e context name word words props indent tr :
  well_formed props ->
  JS.own props name = None ->
  In name JS.Object_prototype_functions ->
  let w := {| db_file := Document (JArr [JObj props]) indent; trace := tr |} in
  let r := Say.exec e context ("modify" :: name :: "say" :: word :: words) w in
  fst r = Str ("Task " ++ name ++ " successfully modified.")
  /\ JS.own (store_entries (db_file (snd r))) name
     = Some (JObj [("taskMessage", JStr (Str.join " " (word :: words)))])
  /\ forall taskName type updatedTask,
       Say.updateTaskList taskName type updatedTask (snd r)
       = (Str "Invalid Task List.", snd r).
Proof.
  intros Hwf Hown Hin w r.
  assert (Hinh : JS.inherited name = JS.VFunction).
  { cbn [JS.Object_prototype_functions In] in Hin.
    repeat (destruct Hin as [<- | Hin]; [reflexivity|]). destruct Hin. }
  assert (Hproto : name <> "__proto__") by (intros ->; discriminate Hinh).
  set (record := JObj [("taskMessage", JStr (Str.join " " (word :: words)))]).
  assert (E : r = (Str ("Task " ++ name ++ " successfully modified."),
                   write_file (JArr [JObj (JS.set props name record)]) 4 w)).
  { subst r. unfold Say.exec. rewrite modify_is_not_clear.
    cbn [nth_error Say.is_word]. rewrite String.eqb_refl. cbn [skipn].
    unfold Say.modifyTask.
    cbn -[Say.updateTaskList Str.join].
    unfold Say.updateTaskList. subst w.
    rewrite updateTaskList_try_well_formed by assumption.
    cbv zeta. cbn [Say.name_key Str.join]. unfold JS.get.
    rewrite own_of_json, Hown. cbn [option_map]. rewrite Hinh.
    cbn [JS.truthy negb JS.own String.eqb Ascii.eqb Bool.eqb JS.spread].
    change (JS.merge [] [("taskMessage", JStr (Str.join " " (word :: words)))])
      with [("taskMessage", JStr (Str.join " " (word :: words)))].
    now rewrite of_json_set, to_json_of_json. }
  rewrite E. cbn [fst snd write_file db_file store_entries].
  assert (Hnew : JS.own (JS.set props name record) name = Some record)
    by (apply own_set_same; auto).
  repeat split; auto.
  intros taskName type updatedTask.
  apply rejected_store_refuses. intros Hbad.
  pose proof (Forall_own _ _ _ _ Hbad Hnew) as Hr.
  inversion Hr.
Qed.

Lemma modify_inherited_name_breaks_store_witness :
  let w := Sample.fresh Sample.one_task in
  let r := Say.exec Sample.env0 "" ["modify"; "toString"; "say"; "hello"] w in
  fst r = Str "Task toString successfully modified."
  /\ JS.own (store_entries (db_file (snd r))) "toString"
     = Some (JObj [("taskMessage", JStr "hello")])
  /\ forall taskName type updatedTask,
       Say.updateTaskList taskName type updatedTask (snd r)
       = (Str "Invalid Task List.", snd r).
Proof.
  apply (modify_inherited_name_breaks_store Sample.env0 "" "toString" "hello" []
           [("bot-task", Sample.bot_task)] 4 []).
  - repeat constructor; vm_compute; try reflexivity; discriminate.
  - reflexivity.
  - cbn. tauto.
Defined.

(** ** Renaming that loses the task *)

Section Lost.
Context {A : Type}.
Implicit Types (o : list (string * A)) (k : string) (v : A).

Lemma replace_same o k v : JS.own o k = Some v -> JS.replace o k v = o.
Proof.
  induction o as [|[k' v'] rest IH]; cbn [JS.own JS.replace]; [discriminate|].
  destruct (String.eqb_spec k k') as [->|Hne].
  - intros E. now injection E as ->.
  - intros E. now rewrite IH.
Qed.

Lemma set_same o k v : JS.own o k = Some v -> JS.set o k v = o.
Proof. intros H. unfold JS.set. rewrite H. now apply replace_same. Qed.

End Lost.

(** Renaming a task to the name it has, or to [__proto__] when the
    mapping has no such key, removes the task: the command confirms, the
    mapping is written without the entry, in the same order otherwise,
    and the record is nowhere in it.  The name is an array in
    [modifyTask], so that it never equals the new name, and writing
    [__proto__] sets the prototype of the mapping, which is not
    serialized. *)
Theorem rename_loses_task e context name new props record indent tr :
  well_formed props ->
  JS.own props name = Some record ->
  new = name \/ (new = "__proto__" /\ JS.own props "__proto__" = None) ->
  let w := {| db_file := Document (JArr [JObj props]) indent; trace := tr |} in
  Say.exec e context ["modify"; name; "named"; new] w
  = (Str ("Task " ++ name ++ " successfully modified."),
     write_file (JArr [JObj (JS.delete props name)]) 4 w).
Proof.
  intros Hwf Hown Hnew w.
  pose proof (Forall_own _ _ _ _ Hwf Hown) as Hentry.
  assert (Hchecked : Regex.matches Say.name_re new = true).
  { destruct Hnew as [-> | [-> _]]; [now inversion Hentry | reflexivity]. }
  assert (Htruthy : JS.truthy (JS.VJson record) = true) by now inversion Hentry.
  unfold Say.exec. rewrite modify_is_not_clear.
  cbn [nth_error Say.is_word]. rewrite String.eqb_refl. cbn [skipn].
  unfold Say.modifyTask.
  cbn -[Say.updateTaskList Regex.matches Say.name_re].
  rewrite Hchecked. cbn [negb].
  unfold Say.updateTaskList. subst w.
  rewrite updateTaskList_try_well_formed by assumption.
  cbv zeta. cbn [Say.name_key Str.join]. unfold JS.get.
  rewrite own_of_json, Hown. cbn [option_map]. rewrite Htruthy.
  cbn [negb JS.own String.eqb Ascii.eqb Bool.eqb Say.strict_neq Say.to_display].
  rewrite of_json_set, of_json_delete, to_json_of_json.
  destruct Hnew as [-> | [-> Hproto]].
  - now rewrite set_same.
  - unfold JS.set. rewrite Hproto. reflexivity.
Qed.

Lemma rename_loses_task_witness :
  Say.exec Sample.env0 "" ["modify"; "bot-task"; "named"; "__proto__"]
           (Sample.fresh Sample.two_tasks)
  = (Str "Task bot-task successfully modified.",
     write_file (JArr [JObj [("greeter", Sample.other_task)]]) 4
                (Sample.fresh Sample.two_tasks)).
Proof.
  apply (rename_loses_task Sample.env0 "" "bot-task" "__proto__"
           [("bot-task", Sample.bot_task); ("greeter", Sample.other_task)]
           Sample.bot_task 4 []).
  - repeat constructor; vm_compute; try reflexivity; discriminate.
  - reflexivity.
  - right. split; reflexivity.
Defined.
